(** * llm-sort: semantic sorting of lines by pairwise LLM judgments

    A shallow embedding of [src/llm_sort.py] (the [sort] command registered
    with the [llm] tool) and the proofs of its specification.

    Conventions of the embedding.
    - A Python [str] is a [string]; a character is read as the code point
      of the same number (0..255).  [str.strip], [str.lower] and
      [str.startswith] follow Python on that range.
    - The language model is external.  [model_obj.prompt(p, ...).text()] is
      a function from the prompt and the model's hidden state to the answer
      and the next state, so that an answer may depend on everything asked
      before.  The world threaded through the program also keeps the
      transcript of the prompts sent, which is how calls are counted.
    - [prompt_template.format(query=.., docA=.., docB=..)] is a function of
      the three fields ([Template]): so it is for the default template and
      for a custom one that [str.format] accepts.  A custom template that
      [str.format] refuses makes the command raise; it is outside the
      embedding, and what is said of a run that does not raise is said of
      the default template or under a hypothesis on the template in use.
    - A text stream is the text it holds.  Iterating it yields its lines
      ([lines_from]): a file named on the command line is opened by
      [click.File("r")], in text mode with universal newlines; standard
      input translates newlines on Windows only.  [read_documents] and
      [sort] take the lines that the streams yielded.
    - click checks the arguments before the body runs: [llm_sort] is the
      command with the check of [--method] and with the set-up of the
      model, which can raise; [sort] is the body from a model that was set
      up.
    - A Python exception ([IndexError] on a list, [KeyError] on a dict) is
      the result [None] of the monad [M].
    - A [float] score is a rational ([Qc]): every score the program builds
      is a multiple of one half, which binary floating point adds exactly.
    - [sorted] is the interpreter's, not the repository's.  It is modelled
      by what Python documents of it: a stable comparison sort that asks
      only [<] of the keys, here a stable insertion sort. *)

From Stdlib Require Import ZArith QArith Qcanon Ascii String.
From Stdlib Require Import DecimalNat DecimalString.
From stdpp Require Import base tactics option list sets numbers strings sorting.

Local Open Scope Z_scope.

(** ** Python strings *)

Module Str.

Definition chr (n : nat) : string := String (ascii_of_nat n) EmptyString.

(** ["\n"] *)
Definition newline : ascii := ascii_of_nat 10.

(** [c.isspace()] for the code points below 256. *)
Definition isspace (c : ascii) : bool :=
  let n := nat_of_ascii c in
  ((9 <=? n)%nat && (n <=? 13)%nat) || ((28 <=? n)%nat && (n <=? 32)%nat)
  || (n =? 133)%nat || (n =? 160)%nat.

(** [c.lower()] for the code points below 256: [A-Z] and the Latin-1
    capitals (192..222 but the multiplication sign 215) move up by 32. *)
Definition lower_char (c : ascii) : ascii :=
  let n := nat_of_ascii c in
  if ((65 <=? n)%nat && (n <=? 90)%nat)
     || ((192 <=? n)%nat && (n <=? 222)%nat && negb (n =? 215)%nat)
  then ascii_of_nat (n + 32) else c.

(** [s.lower()] *)
Fixpoint lower (s : string) : string :=
  match s with
  | EmptyString => EmptyString
  | String c s' => String (lower_char c) (lower s')
  end.

(** Drop the leading characters that satisfy [p]. *)
Fixpoint lstrip_with (p : ascii -> bool) (s : string) : string :=
  match s with
  | EmptyString => EmptyString
  | String c s' => if p c then lstrip_with p s' else s
  end.

(** Drop the trailing characters that satisfy [p]. *)
Fixpoint rstrip_with (p : ascii -> bool) (s : string) : string :=
  match s with
  | EmptyString => EmptyString
  | String c s' =>
      match rstrip_with p s' with
      | EmptyString => if p c then EmptyString else String c EmptyString
      | r => String c r
      end
  end.

(** [s.strip()]: whitespace is dropped at both ends. *)
Definition strip (s : string) : string :=
  rstrip_with isspace (lstrip_with isspace s).

(** [s.rstrip(chars)]: trailing characters that occur in [chars] go. *)
Definition rstrip (s chars : string) : string :=
  rstrip_with (fun c => bool_decide (c ∈ list_ascii_of_string chars)) s.

(** [s.startswith(p)] *)
Fixpoint startswith (s p : string) {struct p} : bool :=
  match p, s with
  | EmptyString, _ => true
  | String _ _, EmptyString => false
  | String c p', String d s' => Ascii.eqb c d && startswith s' p'
  end.

(** [str(n)] for a natural number: decimal, no leading zero. *)
Definition str (n : nat) : string := NilZero.string_of_uint (Nat.to_uint n).

(** Every character of [s] satisfies [p]. *)
Fixpoint all (p : ascii -> bool) (s : string) : bool :=
  match s with
  | EmptyString => true
  | String c s' => p c && all p s'
  end.

End Str.

(** ** Units *)

(** [{"id": .., "content": .., "score": ..}]; the key ["score"] exists only
    once the all-pairs strategy has set it. *)
Record Doc := mkDoc {
  id : string;
  content : string;
  score : option Qc;
}.

#[global] Instance Doc_eq_dec : EqDecision Doc.
Proof. solve_decision. Defined.

(** What a strategy may not change of a unit. *)
Definition identity (d : Doc) : string * string := (id d, content d).

(** [doc["score"] = x] *)
Definition set_score (x : Qc) (d : Doc) : Doc :=
  {| id := id d; content := content d; score := Some x |}.

(** ** The world of a run, and the monad of the program *)

(** The model's hidden state and the prompts sent so far, oldest first. *)
Record World (St : Type) := mkWorld {
  oracle_state : St;
  transcript : list string;
}.
Arguments mkWorld {St} _ _.
Arguments oracle_state {St} _.
Arguments transcript {St} _.

(** A computation returns a value and the next world, or raises. *)
Definition M (St A : Type) : Type := World St -> option (A * World St).

Definition ret {St A} (a : A) : M St A := fun w => Some (a, w).

Definition bind {St A B} (m : M St A) (k : A -> M St B) : M St B :=
  fun w => match m w with
           | Some (a, w') => k a w'
           | None => None
           end.

(** A lookup that raises where Python does: [l[i]] out of range, [d[k]] for
    a missing key. *)
Definition lift {St A} (o : option A) : M St A :=
  fun w => match o with
           | Some a => Some (a, w)
           | None => None
           end.

Notation "x <- m ;; k" := (bind m (fun x => k))
  (at level 100, m at next level, right associativity).

(** [for x in xs: s = body(x, s)] *)
Fixpoint for_each {St A S} (xs : list A) (body : A -> S -> M St S) (s : S)
  : M St S :=
  match xs with
  | [] => ret s
  | x :: xs' => s' <- body x s ;; for_each xs' body s'
  end.

(** [[f(x) for x in xs]] *)
Fixpoint map_each {St A B} (f : A -> M St B) (xs : list A) : M St (list B) :=
  match xs with
  | [] => ret []
  | x :: xs' => y <- f x ;; ys <- map_each f xs' ;; ret (y :: ys)
  end.

(** [l[i] = x], an [IndexError] out of range. *)
Definition list_set {St A} (i : nat) (x : A) (l : list A) : M St (list A) :=
  if decide (i < length l)%nat then ret (<[i := x]> l) else lift None.

(** [range(a, b)] over the naturals, and [range(k)] for an integer [k]
    (empty when [k <= 0]). *)
Definition range (a b : nat) : list nat := seq a (b - a).
Definition range_to (k : Z) : list Z := seqZ 0 k.

(** [a or b] on integers: [a] unless it is zero. *)
Definition int_or (a b : Z) : Z := if a =? 0 then b else a.

(** [l[:k]]: the first [k] elements, and for a negative [k] all but the
    last [-k]. *)
Definition slice_to {A} (k : Z) (l : list A) : list A :=
  if 0 <=? k then take (Z.to_nat k) l
  else take (Z.to_nat (Z.of_nat (length l) + k)) l.

(** ** [sorted] *)

(** What [list.sort] asks of its keys: how to compute one, and [<]. *)
Record Key (St A K : Type) := mkKey {
  key_of : A -> M St K;
  key_lt : K -> K -> M St bool;
}.
Arguments mkKey {St A K} _ _.
Arguments key_of {St A K} _ _.
Arguments key_lt {St A K} _ _ _.

(** Insert [x], which stood before every element of the sorted [s], in
    front of the first element that is not smaller than it. *)
Fixpoint insert {St K} (lt : K -> K -> M St bool) (x : K) (s : list K)
  : M St (list K) :=
  match s with
  | [] => ret [x]
  | y :: s' =>
      b <- lt y x ;;
      if b then (r <- insert lt x s' ;; ret (y :: r)) else ret (x :: y :: s')
  end.

(** [list.sort()] through [<] alone. *)
Fixpoint list_sort {St K} (lt : K -> K -> M St bool) (l : list K)
  : M St (list K) :=
  match l with
  | [] => ret []
  | x :: l' => s <- list_sort lt l' ;; insert lt x s
  end.

(** [sorted(l, key=.., reverse=..)]: the keys are computed once; with
    [reverse] the list is reversed before and after the sort, which keeps
    the units of equal keys in their first order. *)
Definition sorted {St A K} (key : Key St A K) (rev : bool) (l : list A)
  : M St (list A) :=
  keys <- map_each (key_of key) l ;;
  let kv := zip keys l in
  let kv := if rev then reverse kv else kv in
  kv <- list_sort (fun p q => key_lt key p.1 q.1) kv ;;
  ret ((if rev then reverse kv else kv).*2).

(** [functools.cmp_to_key(mycmp)]: the key of [x] is [x] wrapped, and
    [K(a) < K(b)] is [mycmp(a, b) < 0]. *)
Definition cmp_to_key {St A} (mycmp : A -> A -> M St Z) : Key St A A :=
  mkKey ret (fun a b => c <- mycmp a b ;; ret (c <? 0)).

(** [key=lambda d: d["score"]], compared as numbers. *)
Definition score_key {St} : Key St Doc Qc :=
  mkKey (fun d => lift (score d))
        (fun a b => ret (bool_decide (a < b)%Qc)).

(** ** The three outcomes of a comparison, as the program numbers them *)

Definition First : Z := 1.
Definition Second : Z := -1.
Definition Tie : Z := 0.

(** ** The program *)

(** [prompt_template.format(query=q, docA=a, docB=b)] *)
Definition Template : Type := string -> string -> string -> string.

Definition DEFAULT_PAIRWISE_PROMPT : Template := fun query docA docB =>
  let nl := Str.chr 10 in
  let quote := Str.chr 34 in
  "Given the query:" +:+ nl +:+ query +:+ nl +:+ nl +:+
  "Compare the following two lines:" +:+ nl +:+ nl +:+
  "Line A:" +:+ nl +:+ docA +:+ nl +:+ nl +:+
  "Line B:" +:+ nl +:+ docB +:+ nl +:+ nl +:+
  "Which line is more relevant to the query? Please answer with " +:+
  quote +:+ "Line A" +:+ quote +:+ " or " +:+ quote +:+ "Line B" +:+
  quote +:+ ".".

(** [model_obj.prompt(p, system=..).text()] *)
Definition Model (St : Type) : Type := string -> St -> string * St.

Section Strategies.

Context {St : Type}.
Variable model_obj : Model St.
Variable prompt_template : Template.

(** Send one prompt; the transcript grows by it. *)
Definition ask (p : string) : M St string := fun w =>
  let (r, s) := model_obj p (oracle_state w) in
  Some (r, mkWorld s (transcript w ++ [p])).

Definition pairwise_decision (query docA docB : string) : M St Z :=
  let prompt1 := prompt_template query docA docB in
  r1 <- ask prompt1 ;;
  let response1 := Str.strip r1 in
  let prompt2 := prompt_template query docB docA in
  r2 <- ask prompt2 ;;
  let response2 := Str.strip r2 in
  let resp1 := Str.lower response1 in
  let resp2 := Str.lower response2 in
  if Str.startswith resp1 "line a" && Str.startswith resp2 "line b"
  then ret 1
  else if Str.startswith resp1 "line b" && Str.startswith resp2 "line a"
  then ret (-1)
  else ret 0.

(** [documents[i]["score"] += x] *)
Definition add_score (i : nat) (x : Qc) (documents : list Doc)
  : M St (list Doc) :=
  d <- lift (documents !! i) ;;
  s <- lift (score d) ;;
  list_set i (set_score (s + x) d) documents.

Definition allpair_pair (query : string) (i j : nat) (documents : list Doc)
  : M St (list Doc) :=
  di <- lift (documents !! i) ;;
  dj <- lift (documents !! j) ;;
  decision <- pairwise_decision query (content di) (content dj) ;;
  if decision =? 1 then add_score i 1 documents
  else if decision =? -1 then add_score j 1 documents
  else (documents <- add_score i (Q2Qc (1 # 2)) documents ;;
        add_score j (Q2Qc (1 # 2)) documents).

(** The scoring loops of the [allpair] branch. *)
Definition allpair_scores (query : string) (documents : list Doc)
  : M St (list Doc) :=
  let documents := set_score 0 <$> documents in
  let n := length documents in
  for_each (range 0 n) (fun i documents =>
    for_each (range (i + 1) n) (fun j documents =>
      allpair_pair query i j documents) documents) documents.

Definition allpair (query : string) (documents : list Doc)
  : M St (list Doc) :=
  documents <- allpair_scores query documents ;;
  sorted score_key true documents.

Definition compare_docs (query : string) (a b : Doc) : M St Z :=
  decision <- pairwise_decision query (content a) (content b) ;;
  if decision =? 1 then ret (-1)
  else if decision =? -1 then ret 1
  else ret 0.

Definition sorting (query : string) (documents : list Doc)
  : M St (list Doc) :=
  sorted (cmp_to_key (compare_docs query)) false documents.

(** One step of a pass: compare the units at [i] and [i + 1], and swap
    them when the later one wins. *)
Definition sliding_step (query : string) (i : nat) (sorted_docs : list Doc)
  : M St (list Doc) :=
  di <- lift (sorted_docs !! i) ;;
  dj <- lift (sorted_docs !! (i + 1)%nat) ;;
  decision <- pairwise_decision query (content di) (content dj) ;;
  if decision =? -1 then
    a <- lift (sorted_docs !! (i + 1)%nat) ;;
    b <- lift (sorted_docs !! i) ;;
    sorted_docs <- list_set i a sorted_docs ;;
    list_set (i + 1) b sorted_docs
  else ret sorted_docs.

(** One pass: [for i in reversed(range(n - 1))]. *)
Definition sliding_pass (query : string) (n : nat) (sorted_docs : list Doc)
  : M St (list Doc) :=
  for_each (reverse (range 0 (n - 1))) (sliding_step query) sorted_docs.

Definition sliding (query : string) (top_k : Z) (documents : list Doc)
  : M St (list Doc) :=
  let sorted_docs := documents in
  let n := length sorted_docs in
  for_each (range_to (int_or top_k (Z.of_nat n)))
    (fun _ sorted_docs => sliding_pass query n sorted_docs) sorted_docs.

End Strategies.

(** The lines of the input become the units. *)
Definition read_documents (files : list (list string)) : list Doc :=
  foldl (fun documents f =>
    foldl (fun documents line =>
      let line := Str.rstrip line (Str.chr 10) in
      if bool_decide (line = EmptyString) then documents
      else documents ++
           [mkDoc (Str.str (length documents)) line None]) documents f)
    [] files.

(** What the command writes: the ranked lines on standard output, or a
    diagnostic on standard error. *)
Inductive Outcome :=
| Stdout (lines : list string)
| Stderr (msg : string).

(** [if top_k > 0: sorted_docs = sorted_docs[:top_k]] *)
Definition truncate (top_k : Z) (sorted_docs : list Doc) : list Doc :=
  if 0 <? top_k then slice_to top_k sorted_docs else sorted_docs.

(** The branch of [sort] that [method] selects; [None] for a method that
    is none of the three. *)
Definition strategy {St} (model_obj : Model St) (prompt_template : Template)
  (query method : string) (top_k : Z) (documents : list Doc)
  : option (M St (list Doc)) :=
  if String.eqb method "allpair" then
    Some (allpair model_obj prompt_template query documents)
  else if String.eqb method "sorting" then
    Some (sorting model_obj prompt_template query documents)
  else if String.eqb method "sliding" then
    Some (sliding model_obj prompt_template query top_k documents)
  else None.

Definition sort {St} (model_obj : Model St) (query method : string)
  (top_k : Z) (prompt : option Template) (files : list (list string))
  : M St Outcome :=
  let documents := read_documents files in
  if bool_decide (documents = []) then ret (Stderr "No input lines provided.")
  else
    let prompt_template := default DEFAULT_PAIRWISE_PROMPT prompt in
    match strategy model_obj prompt_template query method top_k documents with
    | None => ret (Stderr "Invalid sorting method specified.")
    | Some run =>
        sorted_docs <- run ;;
        let sorted_docs := truncate top_k sorted_docs in
        ret (Stdout (content <$> sorted_docs))
    end.

(** [if not files: files = [sys.stdin]]: the files named on the command
    line, or standard input when none is named. *)
Definition input_files (files : list (list string)) (stdin : list string)
  : list (list string) :=
  if bool_decide (files = []) then [stdin] else files.

(** The command, from the files named and standard input. *)
Definition sort_command {St} (model_obj : Model St) (query method : string)
  (top_k : Z) (prompt : option Template) (files : list (list string))
  (stdin : list string) : M St Outcome :=
  sort model_obj query method top_k prompt (input_files files stdin).

(** [click.echo(s)]: the text written is [s] and a newline, so every line
    of [Stdout] reaches the stream followed by one. *)
Definition echo (s : string) : string := s +:+ Str.chr 10.

(** ** Text streams *)

(** ["\r"] *)
Definition carriage_return : ascii := ascii_of_nat 13.

(** [for line in f], for a text stream that holds [text]: the lines it
    yields.  A line ends after a newline.  With universal newlines a
    carriage return, alone or followed by a newline, ends a line as well,
    and the line is handed over with one newline in its place.  [line] is
    what was read of the line under way. *)
Fixpoint lines_from (universal : bool) (line text : string) : list string :=
  match text with
  | EmptyString => if bool_decide (line = EmptyString) then [] else [line]
  | String c rest =>
      if Ascii.eqb c Str.newline then
        (line +:+ Str.chr 10) :: lines_from universal EmptyString rest
      else if universal && Ascii.eqb c carriage_return then
        (line +:+ Str.chr 10)
        :: lines_from universal EmptyString
             match rest with
             | String c' rest' => if Ascii.eqb c' Str.newline then rest' else rest
             | EmptyString => rest
             end
      else lines_from universal (line +:+ String c EmptyString) rest
  end.

(** A file named on the command line: [click.File("r")] opens it in text
    mode, which reads with universal newlines. *)
Definition file_lines (text : string) : list string :=
  lines_from true EmptyString text.

(** [sys.stdin]: the interpreter opens it with newline translation on
    Windows and without on the other platforms. *)
Definition stdin_lines (translate : bool) (text : string) : list string :=
  lines_from translate EmptyString text.

(** ** The command line *)

(** [click.Choice(["allpair", "sorting", "sliding"])]: the values that
    the option [--method] takes. *)
Definition method_choice : list string := ["allpair"; "sorting"; "sliding"].

(** How a run of the command ends when nothing is raised: click refuses
    the arguments with a usage error and the body does not run, or the
    body runs and writes. *)
Inductive Exit :=
| Usage
| Ran (o : Outcome).

(** The command as [llm sort] runs it.  The option [--method] is a
    [click.Choice]: a method that is none of the three is refused before
    the body runs.  The body reads the input and, when no line is
    retained, writes its diagnostic and returns; only then is the model
    looked up, and [llm.get_model] raises for a model it does not know:
    [get_model] is the model it returns, [None] when it raises. *)
Definition llm_sort {St} (get_model : option (Model St))
  (query method : string) (top_k : Z) (prompt : option Template)
  (files : list (list string)) (stdin : list string) : M St Exit :=
  if bool_decide (method ∈ method_choice) then
    if bool_decide (read_documents (input_files files stdin) = [])
    then ret (Ran (Stderr "No input lines provided."))
    else
      model_obj <- lift get_model ;;
      written <- sort_command model_obj query method top_k prompt
                   files stdin ;;
      ret (Ran written)
  else ret Usage.

(** ** Notions the statements use *)

(** [m], run in [w], returns a value and a world that satisfy [Q] (and so
    does not raise). *)
Definition returns {St A} (m : M St A) (w : World St)
  (Q : A -> World St -> Prop) : Prop :=
  ∃ a w', m w = Some (a, w') ∧ Q a w'.

(** The capital of a small letter [a]..[z]; any other character is its
    own. *)
Definition capital (t : ascii) : ascii :=
  let n := nat_of_ascii t in
  if (97 <=? n)%nat && (n <=? 122)%nat then ascii_of_nat (n - 32) else t.

(** [lead] spells [token] letter by letter, each letter small or
    capital. *)
Fixpoint spells (token lead : string) : Prop :=
  match token, lead with
  | EmptyString, EmptyString => True
  | String t token', String c lead' =>
      (c = t ∨ c = capital t) ∧ spells token' lead'
  | _, _ => False
  end.

(** The answer [response] leads with [token], whatever the case of its
    letters: after leading whitespace come characters that spell
    [token]. *)
Definition answers_with (token response : string) : Prop :=
  ∃ ws lead rest,
    response = ws +:+ lead +:+ rest
    ∧ Str.all Str.isspace ws = true
    ∧ spells token lead.

(** The characters of the two tokens: small letters and the space. *)
Definition plain (t : ascii) : bool :=
  let n := nat_of_ascii t in
  ((97 <=? n)%nat && (n <=? 122)%nat) || (n =? 32)%nat.

(** The contents of the units that [lines] give: every line without its
    trailing newlines, the lines that are empty then left out. *)
Definition retained (lines : list string) : list string :=
  filter (λ s, s ≠ EmptyString)
         ((λ line, Str.rstrip line (Str.chr 10)) <$> lines).

(** [pass], run [P] times in a row. *)
Fixpoint repeat_pass {St A} (P : nat) (pass : A -> M St A) (a : A)
  : M St A :=
  match P with
  | O => ret a
  | S P' => a' <- pass a ;; repeat_pass P' pass a'
  end.

(** The list that [list_sort] returns when [<] is the function [lt]. *)
Fixpoint insert_pure {K} (lt : K -> K -> bool) (x : K) (s : list K)
  : list K :=
  match s with
  | [] => [x]
  | y :: s' => if lt y x then y :: insert_pure lt x s' else x :: y :: s'
  end.

Fixpoint sort_pure {K} (lt : K -> K -> bool) (l : list K) : list K :=
  match l with
  | [] => []
  | x :: l' => insert_pure lt x (sort_pure lt l')
  end.

(** [lt] is a strict total order on the elements of [l]. *)
Record strict_total_on {A} (lt : A -> A -> bool) (l : list A) : Prop := {
  sto_irrefl : ∀ a, a ∈ l → lt a a = false;
  sto_trans : ∀ a b c, a ∈ l → b ∈ l → c ∈ l →
                lt a b = true → lt b c = true → lt a c = true;
  sto_total : ∀ a b, a ∈ l → b ∈ l → a ≠ b →
                lt a b = true ∨ lt b a = true;
}.

(** [lt] is a strict weak order on the elements of [l]: no two elements
    are each smaller than the other, and an element that is not smaller
    than a second, which is not smaller than a third, is not smaller than
    the third. *)
Record strict_weak_on {A} (lt : A -> A -> bool) (l : list A) : Prop := {
  swo_asym : ∀ a b, a ∈ l → b ∈ l → lt a b = true → lt b a = false;
  swo_negtrans : ∀ a b c, a ∈ l → b ∈ l → c ∈ l →
                   lt a b = false → lt b c = false → lt a c = false;
}.

(** [<] answers as [ltp] does whenever a later element of [l] is compared
    with an earlier one, which are the comparisons the sort makes. *)
Fixpoint answers_as {St K} (lt : K -> K -> M St bool) (ltp : K -> K -> bool)
  (l : list K) : Prop :=
  match l with
  | [] => True
  | x :: l' =>
      (∀ y w, y ∈ l' → returns (lt y x) w (λ r _, r = ltp y x))
      ∧ answers_as lt ltp l'
  end.

(** The score of a unit as a number (zero before it is set), and the
    order [sorted] sees through [key=lambda d: d["score"]]. *)
Definition score_of (d : Doc) : Qc := default 0%Qc (score d).
Definition score_lt (a b : Doc) : bool :=
  bool_decide (score_of a < score_of b)%Qc.

(** The result of a run, its value changed by [f]. *)
Definition map_result {St A B} (f : A -> B) (r : option (A * World St))
  : option (B * World St) :=
  match r with
  | Some (a, w) => Some (f a, w)
  | None => None
  end.

(** What a step of a sliding pass does to the list when [swap a b] tells
    whether the later unit [b] wins over [a]. *)
Definition step_pure {A} (swap : A -> A -> bool) (i : nat) (l : list A)
  : list A :=
  match l !! i, l !! (i + 1)%nat with
  | Some a, Some b => if swap a b then <[(i + 1)%nat := a]> (<[i := b]> l) else l
  | _, _ => l
  end.

(** A whole pass, from the last pair down to the first. *)
Definition pass_pure {A} (swap : A -> A -> bool) (l : list A) : list A :=
  foldl (λ l i, step_pure swap i l) l (reverse (range 0 (length l - 1))).

(** The same pass by recursion on the list: the tail first, then the
    head against what came to the front of the tail. *)
Fixpoint bubble {A} (swap : A -> A -> bool) (l : list A) : list A :=
  match l with
  | [] => []
  | x :: l' =>
      match bubble swap l' with
      | [] => [x]
      | y :: r => if swap x y then y :: x :: r else x :: y :: r
      end
  end.

(** The pairs of positions the all-pairs loops visit, in the order they
    visit them. *)
Definition index_pairs (n : nat) : list (nat * nat) :=
  range 0 n ≫= λ i, pair i <$> range (i + 1) n.

(** The two prompts of the comparison of the units at the positions
    [ij]. *)
Definition pair_prompts (prompt_template : Template) (query : string)
  (documents : list Doc) (ij : nat * nat) : list string :=
  match documents !! ij.1, documents !! ij.2 with
  | Some a, Some b =>
      [prompt_template query (content a) (content b);
       prompt_template query (content b) (content a)]
  | _, _ => []
  end.

(** The sum of the scores of the units. *)
Definition sum_scores (documents : list Doc) : Qc :=
  foldr (λ d acc, (score_of d + acc)%Qc) 0%Qc documents.

(** The unit has a score. *)
Definition has_score (d : Doc) : Prop := is_Some (score d).

(** What holds of the units [l] and the world [w] once the all-pairs
    loops, started on [documents] in the world [w0], have compared the
    pairs [visited]: the units are the same and in the same order, each has
    a score, the scores add up to the number of pairs compared, and the
    prompts sent are those of these pairs, in order. *)
Definition scoring_inv {St} (prompt_template : Template) (query : string)
  (documents : list Doc) (w0 : World St) (visited : list (nat * nat))
  (l : list Doc) (w : World St) : Prop :=
  identity <$> l = identity <$> documents
  ∧ Forall has_score l
  ∧ sum_scores l = Qc_of_Z (Z.of_nat (length visited))
  ∧ transcript w
    = transcript w0
      ++ (visited ≫= pair_prompts prompt_template query documents).

(** How many of the pairs [visited] have [k] as one of their two
    positions. *)
Definition involving (k : nat) (visited : list (nat * nat)) : nat :=
  length (filter (λ p, p.1 = k ∨ p.2 = k) visited).

(** What holds of the units [l] once the all-pairs loops have compared
    the pairs [visited] and every comparison was a Tie: the unit at each
    position has half a point for every pair it was in. *)
Definition tie_inv {St} (documents : list Doc)
  (visited : list (nat * nat)) (l : list Doc) (w : World St) : Prop :=
  identity <$> l = identity <$> documents
  ∧ ∀ (k : nat) (d : Doc), l !! k = Some d →
      score d
      = Some (Q2Qc (1 # 2) * Qc_of_Z (Z.of_nat (involving k visited)))%Qc.

(** What holds of the scores once the all-pairs loops have compared the
    pairs [visited]: the score of the unit at each position is a whole
    number of half points, at most two for every pair the position was
    in. *)
Definition halves_inv {St} (visited : list (nat * nat)) (l : list Doc)
  (w : World St) : Prop :=
  ∀ (k : nat) (d : Doc), l !! k = Some d →
    ∃ m : nat,
      score d = Some (Q2Qc (1 # 2) * Qc_of_Z (Z.of_nat m))%Qc
      ∧ (m ≤ 2 * involving k visited)%nat.

(** The comparator answers Tie, whatever the pair and the world. *)
Definition always_tie {St} (model_obj : Model St)
  (prompt_template : Template) (query : string) : Prop :=
  ∀ (a b : string) (w : World St),
    returns (pairwise_decision model_obj prompt_template query a b) w
            (λ d _, d = Tie).

(** The judgments of the model encode the order [before] of the units
    [documents]: compared with another unit, a unit wins exactly when it
    is before the other, whichever of the two is presented first and
    whatever was asked earlier. *)
Definition encodes_order {St} (model_obj : Model St)
  (prompt_template : Template) (query : string)
  (before : Doc -> Doc -> bool) (documents : list Doc) : Prop :=
  ∀ (a b : Doc) (w : World St),
    a ∈ documents → b ∈ documents → a ≠ b →
    returns (pairwise_decision model_obj prompt_template query
               (content a) (content b)) w
            (λ d _, d = if before a b then First else Second).

(** The answer of the model depends on the prompt alone. *)
Definition deterministic {St} (model_obj : Model St) : Prop :=
  ∀ (p : string) (s s' : St), (model_obj p s).1 = (model_obj p s').1.

(** What [m] returns, or that it raises, does not depend on the world. *)
Definition pure_valued {St A} (m : M St A) : Prop :=
  ∀ w w' : World St, fst <$> m w = fst <$> m w'.

(** The three methods the command knows. *)
Definition methods : list string := ["allpair"; "sorting"; "sliding"].


(** Whether the character [c] ends a line. *)
Definition line_end (universal : bool) (c : ascii) : bool :=
  Ascii.eqb c Str.newline || (universal && Ascii.eqb c carriage_return).

(** The fields of [text]: what stands between two characters that
    satisfy [sep], before the first and after the last.  [field] is what
    was read of the field under way. *)
Fixpoint fields_from (sep : ascii → bool) (field text : string)
  : list string :=
  match text with
  | EmptyString => [field]
  | String c rest =>
      if sep c then field :: fields_from sep EmptyString rest
      else fields_from sep (field +:+ String c EmptyString) rest
  end.

(** The runs of [text]: its fields that are not empty. *)
Definition runs (sep : ascii → bool) (text : string) : list string :=
  filter (λ s, s ≠ EmptyString) (fields_from sep EmptyString text).

(** What standard output holds once the lines [written] went to it. *)
Definition written_text (written : list string) : string :=
  foldr String.append EmptyString written.

(** The half points that a comparison gives to its first and to its
    second unit, by its decision: two to the winner, one to each in a
    Tie. *)
Definition half_points (first : bool) (d : Z) : nat :=
  if d =? 1 then (if first then 2 else 0)%nat
  else if d =? -1 then (if first then 0 else 2)%nat
  else 1%nat.

(** The half points that the unit at [k] receives from the comparison of
    the pair [p] of positions, when [dec i j] is the decision for the units
    at [i] and [j]. *)
Definition pair_points (dec : nat -> nat -> Z) (k : nat) (p : nat * nat)
  : nat :=
  ((if decide (p.1 = k) then half_points true (dec p.1 p.2) else 0)
   + (if decide (p.2 = k) then half_points false (dec p.1 p.2) else 0))%nat.

(** The half points that the unit at [k] receives from its comparison
    with the unit at [j]: the loops compare the earlier of the two with the
    later. *)
Definition opponent_points (dec : nat -> nat -> Z) (k j : nat) : nat :=
  if decide (j = k) then 0%nat
  else if decide (k < j)%nat then half_points true (dec k j)
  else half_points false (dec j k).

(** What holds of the units [l] once the all-pairs loops have compared
    the pairs [visited] with the decisions [dec]: the unit at each position
    has the half points of the comparisons it was in. *)
Definition points_inv {St} (documents : list Doc) (dec : nat -> nat -> Z)
  (visited : list (nat * nat)) (l : list Doc) (w : World St) : Prop :=
  identity <$> l = identity <$> documents
  ∧ ∀ (k : nat) (d : Doc), l !! k = Some d →
      score d
      = Some (Q2Qc (1 # 2)
              * Qc_of_Z (Z.of_nat (sum_list (pair_points dec k <$> visited))))%Qc.

(** The number of the units [documents] that the unit [d] is before. *)
Definition wins (before : Doc -> Doc -> bool) (documents : list Doc)
  (d : Doc) : nat :=
  length (filter (λ y, before d y = true) documents).

(** The place of the first [x] in [l]. *)
Fixpoint index_of {A} `{EqDecision A} (x : A) (l : list A) : nat :=
  match l with
  | [] => 0%nat
  | z :: l' => if decide (z = x) then 0%nat else S (index_of x l')
  end.

(** The order [before] with its ties resolved by the places of the units
    in [documents]: of two units that tie, the earlier comes first. *)
Definition refined (before : Doc -> Doc -> bool) (documents : list Doc)
  (a b : Doc) : bool :=
  before a b
  || (negb (before b a)
      && (index_of a documents <? index_of b documents)%nat).

(** The half points of a unit against another, by the order: two when it
    is before the other, one when the two tie. *)
Definition order_points (before : Doc -> Doc -> bool) (a b : Doc) : nat :=
  if before a b then 2%nat else if before b a then 0%nat else 1%nat.

(** The decision of the comparator for the contents [a] and [b], asked in
    the world [w]. *)
Definition verdict {St} (model_obj : Model St) (prompt_template : Template)
  (query : string) (w : World St) (a b : string) : Z :=
  match pairwise_decision model_obj prompt_template query a b w with
  | Some (d, _) => d
  | None => Tie
  end.

(** The two prompts of the comparison of the contents [ab]. *)
Definition prompts_of (prompt_template : Template) (query : string)
  (ab : string * string) : list string :=
  [prompt_template query ab.1 ab.2; prompt_template query ab.2 ab.1].

(** From [w] to [w'] the transcript has grown by the prompts of
    comparisons of contents of [documents], two for each, and by nothing
    else. *)
Definition asked_only {St} (prompt_template : Template) (query : string)
  (documents : list Doc) (w w' : World St) : Prop :=
  ∃ pairs : list (string * string),
    Forall (λ ab, ab.1 ∈ content <$> documents
                  ∧ ab.2 ∈ content <$> documents) pairs
    ∧ transcript w'
      = transcript w ++ (pairs ≫= prompts_of prompt_template query).

(** The judgments of the model follow [before], an order in which units
    may tie: compared with another unit, a unit wins when it is before the
    other, loses when the other is before it and ties otherwise, whichever
    of the two is presented first and whatever was asked earlier. *)
Definition encodes_ranking {St} (model_obj : Model St)
  (prompt_template : Template) (query : string)
  (before : Doc -> Doc -> bool) (documents : list Doc) : Prop :=
  ∀ (a b : Doc) (w : World St),
    a ∈ documents → b ∈ documents → a ≠ b →
    returns (pairwise_decision model_obj prompt_template query
               (content a) (content b)) w
            (λ d _, d = if before a b then First
                        else if before b a then Second else Tie).

(** The unit [c] wins every comparison with another unit of [documents],
    on whichever side it is presented and whatever was asked earlier. *)
Definition beats_all {St} (model_obj : Model St)
  (prompt_template : Template) (query : string) (documents : list Doc)
  (c : Doc) : Prop :=
  ∀ (d : Doc) (w : World St), d ∈ documents → d ≠ c →
    returns (pairwise_decision model_obj prompt_template query
               (content c) (content d)) w (λ x _, x = First)
    ∧ returns (pairwise_decision model_obj prompt_template query
                 (content d) (content c)) w (λ x _, x = Second).

(** How many of the pairs [visited] are the pair of the positions [k] and
    [kc]. *)
Definition met (kc k : nat) (visited : list (nat * nat)) : nat :=
  length (filter (λ p, p = (k, kc) ∨ p = (kc, k)) visited).

(** What holds of the units [l] once the all-pairs loops have compared
    the pairs [visited], when the unit at [kc] wins every comparison: it
    has two half points for every pair it was in, and another unit has at
    most two for every pair it was in, the pair with [kc] apart. *)
Definition champion_inv {St} (documents : list Doc) (kc : nat)
  (visited : list (nat * nat)) (l : list Doc) (w : World St) : Prop :=
  identity <$> l = identity <$> documents
  ∧ ∀ (k : nat) (d : Doc), l !! k = Some d →
      ∃ m : nat,
        score d = Some (Q2Qc (1 # 2) * Qc_of_Z (Z.of_nat m))%Qc
        ∧ (k = kc → m = 2 * involving k visited)%nat
        ∧ (k ≠ kc → m + 2 * met kc k visited ≤ 2 * involving k visited)%nat.

(** ** Stub models *)

(** The pairs [(x, y)] with [x] before [y] in [l]. *)
Fixpoint ordered_pairs {A} (l : list A) : list (A * A) :=
  match l with
  | [] => []
  | x :: l' => (pair x <$> l') ++ ordered_pairs l'
  end.

(** A model without state that knows the ranking [best_first] of some
    contents: asked about two of them it names the line of the better
    one, and it answers "I cannot tell" to any other prompt. *)
Definition ranking_model (prompt_template : Template) (query : string)
  (best_first : list string) : Model unit :=
  λ p s,
    (if bool_decide (p ∈ (λ ab, prompt_template query ab.1 ab.2)
                           <$> ordered_pairs best_first)
     then "Line A"
     else if bool_decide (p ∈ (λ ab, prompt_template query ab.2 ab.1)
                                <$> ordered_pairs best_first)
     then "Line B"
     else "I cannot tell", s)%string.

(** A model that always names the first line, and one that never names a
    line. *)
Definition first_line_model : Model unit := λ _ s, ("Line A"%string, s).
Definition undecided_model : Model unit := λ _ s, ("I cannot tell"%string, s).

(** Three units, and the world before anything was asked. *)
Definition pets : list Doc :=
  [mkDoc "0" "cat" None; mkDoc "1" "dog" None; mkDoc "2" "monkey" None].
Definition pet_query : string := "best pet for apartment".
Definition fresh : World unit := mkWorld tt [].

(** The order in which [ranking] lists the contents of the units. *)
Definition ranked_before (ranking : list string) (a b : Doc) : bool :=
  bool_decide ((content a, content b) ∈ ordered_pairs ranking).

(** The number of passes of the sliding window as the specification
    states it: [top_k] when positive, the number of units otherwise. *)
Definition stated_passes (top_k : Z) (n : nat) : nat :=
  if 0 <? top_k then Z.to_nat top_k else n.

(** The number of passes as the loop header [range(top_k or n)] gives
    it. *)
Definition passes (top_k : Z) (n : nat) : nat :=
  if 0 <? top_k then Z.to_nat top_k else if top_k =? 0 then n else 0%nat.

(** Three units of which two hold the same line. *)
Definition strays : list Doc :=
  [mkDoc "0" "dog" None; mkDoc "1" "cat" None; mkDoc "2" "dog" None].

(** A model without state that knows which of two contents it prefers,
    for the pairs [wins] of a preferred content and the other one; the
    preferences need not fit any ranking.  It answers "I cannot tell" to
    any other prompt. *)
Definition preference_model (prompt_template : Template) (query : string)
  (wins : list (string * string)) : Model unit :=
  λ p s,
    (if bool_decide (p ∈ (λ ab, prompt_template query ab.1 ab.2) <$> wins)
     then "Line A"
     else if bool_decide (p ∈ (λ ab, prompt_template query ab.2 ab.1)
                                <$> wins)
     then "Line B"
     else "I cannot tell", s)%string.

(** Four units, and preferences that go round in a circle among three of
    them while the fourth is preferred to each. *)
Definition shades : list Doc :=
  [mkDoc "0" "red" None; mkDoc "1" "green" None; mkDoc "2" "gold" None;
   mkDoc "3" "blue" None].
Definition shade_query : string := "warmest colour".
Definition shade_wins : list (string * string) :=
  [("gold", "red"); ("gold", "green"); ("gold", "blue");
   ("red", "green"); ("green", "blue"); ("blue", "red")]%string.

(** A model with a state: it shouts its first answer and every second one
    after it. *)
Definition alternating_model : Model bool :=
  λ _ s, ((if s then "Line B." else "  LINE A, I think")%string, negb s).

(** * Proofs *)

(** ** Strings *)

Module StrFacts.
Import Str.

Local Arguments String.append !_ _ / : simpl nomatch.

Lemma append_nil_r (s : string) : s +:+ "" = s.
Proof. induction s as [|c s IH]; simpl; [done | by rewrite IH]. Qed.

Lemma append_assoc (s t u : string) : (s +:+ t) +:+ u = s +:+ (t +:+ u).
Proof. induction s as [|c s IH]; simpl; [done | by rewrite IH]. Qed.

Lemma startswith_true (s p : string) :
  startswith s p = true ↔ ∃ rest, s = p +:+ rest.
Proof.
  revert s. induction p as [|c p IH]; intros s; simpl.
  - split; [intros _; by exists s | done].
  - destruct s as [|d s]; [split; [done | by intros [? ?]]|].
    rewrite andb_true_iff, Ascii.eqb_eq, IH.
    split.
    + intros [-> [rest ->]]. by exists rest.
    + intros [rest Hr]. injection Hr as -> ->. split; [done | by exists rest].
Qed.

Lemma lower_app (s t : string) : lower (s +:+ t) = lower s +:+ lower t.
Proof. induction s as [|c s IH]; simpl; [done | by rewrite IH]. Qed.

Lemma lower_split (u x y : string) :
  lower u = x +:+ y → ∃ u1 u2, u = u1 +:+ u2 ∧ lower u1 = x ∧ lower u2 = y.
Proof.
  revert u. induction x as [|c x IH]; intros u Hu; simpl in Hu.
  - by exists ""%string, u.
  - destruct u as [|d u]; simpl in Hu; [done|].
    injection Hu as Hc Hu. destruct (IH _ Hu) as (u1 & u2 & -> & <- & <-).
    exists (String d u1), u2. simpl. by rewrite Hc.
Qed.

Lemma lstrip_with_split p (s : string) :
  ∃ ws, s = ws +:+ lstrip_with p s ∧ all p ws = true.
Proof.
  induction s as [|c s (ws & Hs & Hws)]; simpl.
  - by exists ""%string.
  - destruct (p c) eqn:Hc.
    + exists (String c ws). simpl. rewrite Hc, Hws. by rewrite <- Hs.
    + by exists ""%string.
Qed.

Lemma lstrip_with_app p (ws s : string) :
  all p ws = true → lstrip_with p (ws +:+ s) = lstrip_with p s.
Proof.
  induction ws as [|c ws IH]; simpl; [done|].
  intros [Hc Hws]%andb_prop. rewrite Hc. by apply IH.
Qed.

Lemma rstrip_with_split p (s : string) :
  ∃ ws, s = rstrip_with p s +:+ ws ∧ all p ws = true.
Proof.
  induction s as [|c s (ws & Hs & Hws)]; simpl.
  - by exists ""%string.
  - destruct (rstrip_with p s) as [|d r] eqn:Hr.
    + simpl in Hs. subst s. destruct (p c) eqn:Hc.
      * exists (String c ws). simpl. by rewrite Hc, Hws.
      * by exists ws.
    + exists ws. split; [|done]. simpl. f_equal. exact Hs.
Qed.

Lemma rstrip_with_app p (s t : string) :
  rstrip_with p (s +:+ t) =
    match rstrip_with p t with
    | EmptyString => rstrip_with p s
    | r => s +:+ r
    end.
Proof.
  induction s as [|c s IH]; simpl.
  - by destruct (rstrip_with p t).
  - rewrite IH. destruct (rstrip_with p t) as [|d r]; [done|].
    by destruct s.
Qed.

(** A string that ends in a character outside [p] loses nothing. *)
Lemma rstrip_with_keep p (s : string) (c : ascii) :
  p c = false → rstrip_with p (s +:+ String c "") = s +:+ String c "".
Proof.
  intros Hc. rewrite rstrip_with_app. simpl. by rewrite Hc.
Qed.

Lemma isspace_lower_char (c : ascii) : isspace c = true → lower_char c = c.
Proof.
  destruct c as [b0 b1 b2 b3 b4 b5 b6 b7].
  destruct b0, b1, b2, b3, b4, b5, b6, b7; vm_compute; congruence.
Qed.

(** The characters that lower to a small ASCII letter are no whitespace. *)
Lemma lower_char_letter (c d : ascii) :
  lower_char c = d → isspace d = false → isspace c = false.
Proof.
  intros Hl Hd. destruct (isspace c) eqn:Hc; [|done].
  pose proof (isspace_lower_char _ Hc). congruence.
Qed.

Lemma every_ascii (c : ascii) : c ∈ ascii_of_nat <$> seq 0 256.
Proof.
  apply list_elem_of_fmap. exists (nat_of_ascii c).
  split; [by rewrite ascii_nat_embedding|].
  apply elem_of_seq. pose proof (nat_ascii_bounded c). lia.
Qed.

Lemma lower_char_table :
  forallb (λ t,
    if plain t
    then forallb (λ c, Bool.eqb (Ascii.eqb (lower_char c) t)
                         (Ascii.eqb c t || Ascii.eqb c (capital t)))
           (ascii_of_nat <$> seq 0 256)
    else true)
    (ascii_of_nat <$> seq 0 256) = true.
Proof. vm_compute. reflexivity. Qed.

(** The characters that lower to a small letter are that letter and its
    capital; the space alone lowers to the space. *)
Lemma lower_char_plain (t c : ascii) :
  plain t = true →
  Ascii.eqb (lower_char c) t = Ascii.eqb c t || Ascii.eqb c (capital t).
Proof.
  intros Ht. pose proof lower_char_table as Hall.
  rewrite forallb_forall in Hall.
  specialize (Hall t (proj1 (list_elem_of_In _ _) (every_ascii t))).
  rewrite Ht in Hall. rewrite forallb_forall in Hall.
  specialize (Hall c (proj1 (list_elem_of_In _ _) (every_ascii c))).
  by apply Bool.eqb_prop in Hall.
Qed.

Lemma spells_lower (token lead : string) :
  all plain token = true → spells token lead ↔ lower lead = token.
Proof.
  revert lead. induction token as [|t token IH]; intros lead Ht.
  - destruct lead; simpl; [done|]. split; [done|discriminate].
  - simpl in Ht. apply andb_prop in Ht as [Ht Htoken].
    destruct lead as [|c lead]; simpl; [split; [done|discriminate]|].
    rewrite (IH lead Htoken).
    pose proof (lower_char_plain t c Ht) as Hc.
    split.
    + intros [Hct <-]. f_equal. apply Ascii.eqb_eq. rewrite Hc.
      apply orb_true_iff. destruct Hct as [->| ->]; [left|right];
        apply Ascii.eqb_refl.
    + intros [= Hl Hlead]. split; [|done].
      apply Ascii.eqb_eq in Hl. rewrite Hc in Hl.
      apply orb_true_iff in Hl as [Hl|Hl]; apply Ascii.eqb_eq in Hl; auto.
Qed.

(** What the program computes of an answer, for a token that neither
    starts nor ends in whitespace: after leading whitespace come
    characters that lower to the token. *)
Lemma startswith_lowered (c : ascii) (mid : string) (e : ascii) (r : string) :
  isspace c = false → isspace e = false →
  let token := String c (mid +:+ String e "") in
  startswith (lower (strip r)) token = true
  ↔ ∃ ws lead rest,
      r = ws +:+ lead +:+ rest ∧ all isspace ws = true ∧ lower lead = token.
Proof.
  intros Hc He token. unfold strip. rewrite startswith_true. split.
  - intros [rest Hrest].
    destruct (lstrip_with_split isspace r) as (ws & Hr & Hws).
    destruct (rstrip_with_split isspace (lstrip_with isspace r))
      as (ws' & Ht & _).
    destruct (lower_split _ _ _ Hrest) as (lead & rest0 & Hu & Hlead & _).
    exists ws, lead, (rest0 +:+ ws'). split_and!; [|done..].
    rewrite <- (append_assoc lead rest0 ws'), <- Hu, <- Ht. exact Hr.
  - intros (ws & lead & rest & -> & Hws & Hlead).
    rewrite (lstrip_with_app _ _ _ Hws).
    destruct lead as [|c0 lead]; [done|]. simpl in Hlead.
    unfold token in Hlead. injection Hlead as Hc0 Hlead.
    destruct (lower_split _ _ _ Hlead) as (m0 & l0 & -> & Hm0 & Hl0).
    destruct l0 as [|e0 [|? ?]]; simpl in Hl0; try done.
    injection Hl0 as He0.
    assert (isspace c0 = false) as Hc0' by by eapply lower_char_letter.
    assert (isspace e0 = false) as He0' by by eapply lower_char_letter.
    simpl. rewrite Hc0'.
    change (String c0 ((m0 +:+ String e0 "") +:+ rest))
      with ((String c0 (m0 +:+ String e0 "")) +:+ rest).
    rewrite rstrip_with_app.
    change (String c0 (m0 +:+ String e0 ""))
      with ((String c0 m0) +:+ String e0 "").
    rewrite (rstrip_with_keep _ _ _ He0').
    destruct (rstrip_with isspace rest) as [|d r'] eqn:Hr.
    + exists ""%string. rewrite append_nil_r. simpl.
      rewrite lower_app. simpl. by rewrite Hc0, Hm0, He0.
    + exists (lower (String d r')). rewrite !lower_app. simpl.
      by rewrite Hc0, Hm0, He0.
Qed.

(** What the program computes of an answer is what [answers_with] says,
    for a token of small letters and spaces. *)
Lemma startswith_answers (c : ascii) (mid : string) (e : ascii) (r : string) :
  isspace c = false → isspace e = false →
  let token := String c (mid +:+ String e "") in
  all plain token = true →
  startswith (lower (strip r)) token = true ↔ answers_with token r.
Proof.
  intros Hc He token Hplain. unfold token.
  rewrite (startswith_lowered c mid e r Hc He). unfold answers_with.
  split; intros (ws & lead & rest & Hr & Hws & Hlead);
    exists ws, lead, rest; (split_and!; [done..|]);
    by apply (spells_lower (String c (mid +:+ String e "")) lead).
Qed.

Lemma startswith_line_a (r : string) :
  startswith (lower (strip r)) "line a" = true ↔ answers_with "line a" r.
Proof. by apply (startswith_answers "l" "ine " "a"). Qed.

Lemma startswith_line_b (r : string) :
  startswith (lower (strip r)) "line b" = true ↔ answers_with "line b" r.
Proof. by apply (startswith_answers "l" "ine " "b"). Qed.

(** No answer leads with both tokens. *)
Lemma startswith_exclusive (s : string) :
  startswith s "line a" = true → startswith s "line b" = true → False.
Proof.
  rewrite !startswith_true. intros [r1 ->] [r2 H]. done.
Qed.

End StrFacts.

#[local] Arguments Str.startswith : simpl never.
#[local] Arguments Str.lower : simpl never.
#[local] Arguments Str.strip : simpl never.

(** ** The monad *)

Section MonadFacts.

Context {St : Type}.
Implicit Types w : World St.

Lemma returns_ret {A} (a : A) w (Q : A → World St → Prop) :
  Q a w → returns (ret a) w Q.
Proof. intros HQ. by exists a, w. Qed.

Lemma returns_bind {A B} (m : M St A) (k : A → M St B) w
    (Q : B → World St → Prop) :
  returns m w (λ a w', returns (k a) w' Q) → returns (x <- m ;; k x) w Q.
Proof.
  intros (a & w' & Hm & b & w'' & Hk & HQ).
  exists b, w''. unfold bind. by rewrite Hm.
Qed.

Lemma returns_mono {A} (m : M St A) w (Q Q' : A → World St → Prop) :
  returns m w Q → (∀ a w', Q a w' → Q' a w') → returns m w Q'.
Proof. intros (a & w' & Hm & HQ) HQQ'. exists a, w'. eauto. Qed.

Lemma returns_lift {A} (o : option A) (a : A) w (Q : A → World St → Prop) :
  o = Some a → Q a w → returns (lift o) w Q.
Proof. intros -> HQ. by exists a, w. Qed.

Lemma returns_list_set {A} (i : nat) (x : A) (l : list A) w
    (Q : list A → World St → Prop) :
  (i < length l)%nat → Q (<[i := x]> l) w → returns (list_set i x l) w Q.
Proof.
  intros Hi HQ. unfold list_set. rewrite decide_True by done.
  by apply returns_ret.
Qed.

(** A loop keeps an invariant that may mention the elements already
    visited. *)
Lemma returns_for_each {A S} (I : list A → S → World St → Prop)
    (xs : list A) (body : A → S → M St S) (s : S) w :
  I [] s w →
  (∀ visited x rest s w,
      xs = visited ++ x :: rest → I visited s w →
      returns (body x s) w (I (visited ++ [x]))) →
  returns (for_each xs body s) w (I xs).
Proof.
  intros HI Hbody.
  cut (∀ rest visited s w,
          xs = visited ++ rest → I visited s w →
          returns (for_each rest body s) w (I xs)).
  { intros H. by apply (H xs []). }
  clear s w HI. intros rest.
  induction rest as [|x rest IH]; intros visited s w Hxs HI; simpl.
  - apply returns_ret. by rewrite Hxs, app_nil_r.
  - apply returns_bind.
    eapply returns_mono; [by eapply Hbody|].
    intros s' w' HI'. apply (IH (visited ++ [x])); [|done].
    by rewrite <- app_assoc.
Qed.

(** The same, for an invariant that does not look at the elements. *)
Lemma returns_for_each_inv {A S} (I : S → World St → Prop)
    (xs : list A) (body : A → S → M St S) (s : S) w :
  I s w →
  (∀ x s w, x ∈ xs → I s w → returns (body x s) w I) →
  returns (for_each xs body s) w I.
Proof.
  intros HI Hbody.
  apply (returns_for_each (λ _, I)); [done|].
  intros visited x rest s' w' -> HI'. apply Hbody; [|done].
  rewrite elem_of_app, elem_of_cons. auto.
Qed.

End MonadFacts.

(** ** The comparator *)

Section Comparator.

Context {St : Type}.
Variable model_obj : Model St.
Variable prompt_template : Template.
Implicit Types w : World St.

(** A comparison sends its two prompts and returns one of the three
    outcomes. *)
Lemma pairwise_decision_returns (query A B : string) w :
  returns (pairwise_decision model_obj prompt_template query A B) w
    (λ d w', (d = First ∨ d = Second ∨ d = Tie)
             ∧ transcript w' =
                 transcript w ++ [prompt_template query A B;
                                  prompt_template query B A]).
Proof.
  unfold returns, pairwise_decision, bind, ask.
  destruct (model_obj _ (oracle_state w)) as [r1 s1]. simpl.
  destruct (model_obj _ s1) as [r2 s2]. simpl.
  rewrite <- app_assoc. simpl.
  destruct (_ && _); [|destruct (_ && _)]; eexists _, _;
    (split; [done|]); simpl; unfold First, Second, Tie; auto.
Qed.

End Comparator.

(** C1. The comparator asks the model about (A, B) and then about (B, A).
    It returns First exactly when the first answer leads with "line a" and
    the second with "line b", whatever the case of the letters; Second
    exactly when the first leads with "line b" and the second with
    "line a"; and Tie for every other pair of answers, among them two
    answers that favour the same position and an answer that leads with
    neither token.  It returns in every case: no answer makes it raise.
    That an answer leads with a token is said letter by letter
    ([spells]: each letter small or capital), not through the lowering
    that the program applies; and a model that answers "  LINE A, I
    think" and "Line B." by turns is judged First or Second by the turn
    it starts on. *)
Theorem pairwise_decision_reconciles {St} (model_obj : Model St)
    (prompt_template : Template) (query A B : string) (w : World St) :
  let p1 := prompt_template query A B in
  let p2 := prompt_template query B A in
  let a1 := model_obj p1 (oracle_state w) in
  let a2 := model_obj p2 a1.2 in
  let favors (token r : string) := answers_with token r in
  (∃ d,
     pairwise_decision model_obj prompt_template query A B w
       = Some (d, mkWorld a2.2 (transcript w ++ [p1; p2]))
     ∧ (d = First ↔ favors "line a" a1.1 ∧ favors "line b" a2.1)
     ∧ (d = Second ↔ favors "line b" a1.1 ∧ favors "line a" a2.1)
     ∧ (d = Tie ↔ ¬ (favors "line a" a1.1 ∧ favors "line b" a2.1)
                ∧ ¬ (favors "line b" a1.1 ∧ favors "line a" a2.1))
     ∧ (favors "line a" a1.1 ∧ favors "line a" a2.1 → d = Tie)
     ∧ (favors "line b" a1.1 ∧ favors "line b" a2.1 → d = Tie)
     ∧ (¬ favors "line a" a1.1 ∧ ¬ favors "line b" a1.1 → d = Tie)
     ∧ (¬ favors "line a" a2.1 ∧ ¬ favors "line b" a2.1 → d = Tie))
  ∧ fst <$> pairwise_decision alternating_model DEFAULT_PAIRWISE_PROMPT
              "q" "x" "y" (mkWorld false [])
    = Some First
  ∧ fst <$> pairwise_decision alternating_model DEFAULT_PAIRWISE_PROMPT
              "q" "x" "y" (mkWorld true [])
    = Some Second.
Proof.
  cbv zeta. split; [|split; by vm_compute].
  unfold pairwise_decision, bind, ask.
  destruct (model_obj (prompt_template query A B) (oracle_state w))
    as [r1 s1]. simpl.
  destruct (model_obj (prompt_template query B A) s1) as [r2 s2]. simpl.
  rewrite <- app_assoc. simpl.
  pose proof (StrFacts.startswith_line_a r1) as A1.
  pose proof (StrFacts.startswith_line_b r1) as B1.
  pose proof (StrFacts.startswith_line_a r2) as A2.
  pose proof (StrFacts.startswith_line_b r2) as B2.
  pose proof (StrFacts.startswith_exclusive (Str.lower (Str.strip r1))) as X1.
  pose proof (StrFacts.startswith_exclusive (Str.lower (Str.strip r2))) as X2.
  destruct (Str.startswith (Str.lower (Str.strip r1)) "line a"),
           (Str.startswith (Str.lower (Str.strip r1)) "line b"),
           (Str.startswith (Str.lower (Str.strip r2)) "line a"),
           (Str.startswith (Str.lower (Str.strip r2)) "line b");
    simpl; eexists; (split; [done|]); unfold First, Second, Tie;
    try (exfalso; auto; fail); intuition congruence.
Qed.

(** ** Reading the input *)

Section Reading.

Import Str StrFacts.
Local Arguments String.append !_ _ / : simpl nomatch.

Let is_nl (c : ascii) : bool := bool_decide (c ∈ list_ascii_of_string (chr 10)).

Lemma rstrip_with_id p (s : string) :
  all (λ c, negb (p c)) s = true → rstrip_with p s = s.
Proof.
  induction s as [|c s IH]; simpl; [done|].
  intros [Hc Hs]%andb_prop. rewrite (IH Hs).
  destruct s; [|done]. by apply negb_true_iff in Hc as ->.
Qed.

Lemma all_not_newline (body : string) :
  newline ∉ list_ascii_of_string body → all (λ c, negb (is_nl c)) body = true.
Proof.
  induction body as [|c body IH]; simpl; [done|].
  rewrite not_elem_of_cons. intros [Hc Hbody].
  rewrite (IH Hbody), andb_true_r. apply negb_true_iff, bool_decide_eq_false.
  change (list_ascii_of_string (chr 10)) with [newline].
  rewrite elem_of_cons, elem_of_nil. intros [->|[]]. by apply Hc.
Qed.

(** A line as a text file yields it, [body] and one newline or [body]
    alone at the end of a file, keeps exactly [body]. *)
Lemma rstrip_line (body : string) :
  newline ∉ list_ascii_of_string body →
  rstrip (body +:+ chr 10) (chr 10) = body ∧ rstrip body (chr 10) = body.
Proof.
  intros Hbody%all_not_newline. unfold rstrip. fold is_nl.
  rewrite rstrip_with_app. simpl.
  replace (is_nl (ascii_of_nat 10)) with true by done.
  by rewrite rstrip_with_id.
Qed.

(** Whatever the line, nothing but newlines at its end is removed. *)
Lemma rstrip_only_newlines (line : string) :
  ∃ nls, line = rstrip line (chr 10) +:+ nls
         ∧ all (λ c, bool_decide (c = newline)) nls = true.
Proof.
  destruct (rstrip_with_split is_nl line) as (ws & Hline & Hws).
  exists ws. split; [done|]. clear Hline.
  induction ws as [|c ws IH]; simpl in *; [done|].
  apply andb_prop in Hws as [Hc Hws]. rewrite (IH Hws), andb_true_r.
  apply bool_decide_eq_true in Hc. apply bool_decide_eq_true.
  change (list_ascii_of_string (chr 10)) with [newline] in Hc.
  by apply elem_of_cons in Hc as [->|[]%elem_of_nil].
Qed.

Let add_line (documents : list Doc) (line : string) : list Doc :=
  let line := rstrip line (chr 10) in
  if bool_decide (line = EmptyString) then documents
  else documents ++ [mkDoc (str (length documents)) line None].

Let number (k : nat) (contents : list string) : list Doc :=
  imap (λ i c, mkDoc (str (k + i)) c None) contents.

Lemma add_lines (lines : list string) (documents : list Doc) :
  foldl add_line documents lines =
    documents ++ number (length documents) (retained lines).
Proof.
  revert documents. induction lines as [|line lines IH]; intros documents.
  - simpl. by rewrite app_nil_r.
  - simpl. rewrite IH. unfold retained. rewrite fmap_cons, filter_cons.
    fold (retained lines). unfold add_line.
    destruct (bool_decide_reflect (rstrip line (chr 10) = EmptyString))
      as [Hl|Hl].
    + by rewrite decide_False by tauto.
    + rewrite decide_True by done. rewrite <- app_assoc. f_equal.
      unfold number. rewrite imap_cons. simpl. rewrite Nat.add_0_r. f_equal.
      rewrite length_app. simpl. apply imap_ext. intros i c _. simpl.
      do 2 f_equal. lia.
Qed.

Lemma read_documents_number (files : list (list string)) :
  read_documents files = number 0 (retained (concat files)).
Proof.
  transitivity (foldl add_line [] (concat files)); [|apply add_lines].
  unfold read_documents. fold add_line.
  generalize (@nil Doc). induction files as [|f files IH]; intros acc.
  - done.
  - simpl. by rewrite IH, foldl_app.
Qed.

Lemma number_content (k : nat) (cs : list string) :
  content <$> number k cs = cs.
Proof.
  unfold number. rewrite fmap_imap.
  rewrite (imap_ext _ (const Datatypes.id)) by done.
  by rewrite imap_const, list_fmap_id.
Qed.

Lemma number_id (cs : list string) :
  id <$> number 0 cs = str <$> seq 0 (length cs).
Proof.
  unfold number. rewrite fmap_imap.
  rewrite (imap_ext _ (λ i _, str i)) by done. by rewrite imap_seq_0.
Qed.

Lemma number_length (k : nat) (cs : list string) :
  length (number k cs) = length cs.
Proof. apply length_imap. Qed.

Lemma number_score (k : nat) (cs : list string) (d : Doc) :
  d ∈ number k cs → score d = None.
Proof.
  unfold number. intros (i & Hi)%list_elem_of_lookup.
  rewrite list_lookup_imap in Hi. destruct (cs !! i); simpl in Hi; [|done].
  by injection Hi as <-.
Qed.

End Reading.

(** [str(n)] reads back as [n]: it is the decimal numeral of [n]. *)
Lemma str_reads_back (n : nat) :
  Nat.of_uint <$> NilZero.uint_of_string (Str.str n) = Some n.
Proof.
  unfold Str.str. pose proof (DecimalNat.Unsigned.of_to n) as Hn.
  destruct (Nat.to_uint n) as [| | | | | | | | | |] eqn:E;
    try (rewrite NilZero.usu by done; simpl; by rewrite Hn).
  simpl in Hn. by subst n.
Qed.

Lemma str_inj (m n : nat) : Str.str m = Str.str n → m = n.
Proof.
  intros H. pose proof (str_reads_back m) as Hm. rewrite H in Hm.
  rewrite str_reads_back in Hm. by injection Hm.
Qed.

(** ** The lines of a stream *)

Example lines_from_examples :
  file_lines (" " +:+ Str.chr 10 +:+ Str.chr 10 +:+ Str.chr 13 +:+ Str.chr 10)
  = [" " +:+ Str.chr 10; Str.chr 10; Str.chr 10]
  ∧ file_lines ("a" +:+ Str.chr 13 +:+ "b" +:+ Str.chr 10)
    = ["a" +:+ Str.chr 10; "b" +:+ Str.chr 10]
  ∧ file_lines ("x" +:+ Str.chr 13) = ["x" +:+ Str.chr 10]
  ∧ file_lines ("a" +:+ Str.chr 13 +:+ Str.chr 10 +:+ Str.chr 13 +:+ Str.chr 10 +:+ "b")
    = ["a" +:+ Str.chr 10; Str.chr 10; "b"]
  ∧ file_lines (Str.chr 13 +:+ Str.chr 13) = [Str.chr 10; Str.chr 10]
  ∧ file_lines ("a" +:+ Str.chr 10 +:+ Str.chr 13 +:+ "b")
    = ["a" +:+ Str.chr 10; Str.chr 10; "b"]
  ∧ stdin_lines false (" " +:+ Str.chr 10 +:+ Str.chr 10 +:+ Str.chr 13 +:+ Str.chr 10)
    = [" " +:+ Str.chr 10; Str.chr 10; Str.chr 13 +:+ Str.chr 10]
  ∧ stdin_lines false ("a" +:+ Str.chr 13 +:+ "b" +:+ Str.chr 10)
    = ["a" +:+ Str.chr 13 +:+ "b" +:+ Str.chr 10]
  ∧ stdin_lines false ("x" +:+ Str.chr 13) = ["x" +:+ Str.chr 13]
  ∧ stdin_lines false (Str.chr 13 +:+ Str.chr 13) = [Str.chr 13 +:+ Str.chr 13]
  ∧ stdin_lines false ("a" +:+ Str.chr 10 +:+ Str.chr 13 +:+ "b")
    = ["a" +:+ Str.chr 10; Str.chr 13 +:+ "b"]
  ∧ file_lines "" = [] ∧ stdin_lines false "" = [].
Proof. by vm_compute. Qed.

Section Streams.

Import Str StrFacts.
Local Arguments String.append !_ _ / : simpl nomatch.

Lemma all_app p (s t : string) : all p (s +:+ t) = all p s && all p t.
Proof.
  induction s as [|c s IH]; simpl; [done|]. by rewrite IH, andb_assoc.
Qed.

Lemma all_newline_free (s : string) :
  all (λ c, negb (Ascii.eqb c newline)) s = true →
  newline ∉ list_ascii_of_string s.
Proof.
  induction s as [|c s IH]; simpl; [intros _; apply not_elem_of_nil|].
  intros [Hc Hs]%andb_prop. apply not_elem_of_cons. split; [|by apply IH].
  intros <-. by rewrite Ascii.eqb_refl in Hc.
Qed.

Lemma retained_cons (line : string) (lines : list string) :
  retained (line :: lines)
  = (if decide (rstrip line (chr 10) = EmptyString) then []
     else [rstrip line (chr 10)]) ++ retained lines.
Proof.
  unfold retained. rewrite fmap_cons, filter_cons.
  destruct (decide (rstrip line (chr 10) = "")) as [H|H];
    [by rewrite decide_False by tauto|by rewrite decide_True].
Qed.

Lemma retained_app (l1 l2 : list string) :
  retained (l1 ++ l2) = retained l1 ++ retained l2.
Proof. unfold retained. by rewrite fmap_app, filter_app. Qed.

(** The units of a stream are the runs of its text between line ends. *)
Lemma retained_lines_from (universal : bool) (n : nat) :
  ∀ (text line : string),
    (String.length text ≤ n)%nat →
    all (λ c, negb (Ascii.eqb c newline)) line = true →
    retained (lines_from universal line text)
    = filter (λ s, s ≠ EmptyString)
        (fields_from (line_end universal) line text).
Proof.
  assert (∀ line, all (λ c, negb (Ascii.eqb c newline)) line = true →
            retained [line +:+ chr 10]
            = filter (λ s, s ≠ EmptyString) [line]) as Hend.
  { intros line Hl%all_newline_free. rewrite retained_cons.
    rewrite (proj1 (rstrip_line line Hl)), filter_cons, filter_nil.
    destruct (decide (line = "")) as [H|H];
      [by rewrite decide_False by tauto|by rewrite decide_True]. }
  induction n as [|n IH]; intros text line Hn Hline.
  - destruct text as [|c rest]; [|simpl in Hn; lia]. simpl.
    rewrite filter_cons, filter_nil. case_bool_decide as Hl.
    + by rewrite decide_False by tauto.
    + rewrite decide_True, retained_cons by done.
      rewrite (proj2 (rstrip_line line (all_newline_free _ Hline))).
      by rewrite decide_False.
  - destruct text as [|c rest].
    { apply (IH "" line); [simpl; lia|done]. }
    simpl in Hn. simpl. unfold line_end.
    destruct (Ascii.eqb c newline) eqn:Hc; simpl.
    { change (?x :: ?l) with ([x] ++ l). rewrite retained_app, filter_app.
      rewrite (Hend line Hline). f_equal. apply IH; [lia|done]. }
    destruct universal; simpl.
    2:{ apply IH; [lia|]. by rewrite all_app, Hline; simpl; rewrite Hc. }
    destruct (Ascii.eqb c carriage_return) eqn:Hr.
    2:{ apply IH; [lia|]. by rewrite all_app, Hline; simpl; rewrite Hc. }
    change (?x :: ?l) with ([x] ++ l). rewrite retained_app, filter_app.
    rewrite (Hend line Hline). f_equal.
    destruct rest as [|c' rest']; [apply IH; [simpl; lia|done]|].
    destruct (Ascii.eqb c' newline) eqn:Hc'.
    + simpl. unfold line_end. rewrite Hc'. simpl.
      rewrite filter_cons, decide_False by tauto.
      apply IH; [simpl in Hn; lia|done].
    + apply IH; [simpl in *; lia|done].
Qed.

Lemma read_lines_from (universal : bool) (texts : list string) :
  content <$> read_documents (lines_from universal EmptyString <$> texts)
  = texts ≫= runs (line_end universal).
Proof.
  rewrite read_documents_number, number_content.
  induction texts as [|text texts IH]; [done|].
  rewrite fmap_cons, concat_cons, retained_app, IH, bind_cons. f_equal.
  by apply (retained_lines_from universal (String.length text)).
Qed.

(** No field holds a separator. *)
Lemma fields_from_free (sep : ascii → bool) (text field f : string) :
  all (λ c, negb (sep c)) field = true →
  f ∈ fields_from sep field text → all (λ c, negb (sep c)) f = true.
Proof.
  revert field. induction text as [|c rest IH]; intros field Hfield; simpl.
  - by intros ->%list_elem_of_singleton.
  - destruct (sep c) eqn:Hc.
    + intros [->|Hf]%elem_of_cons; [done|]. by apply (IH "").
    + apply IH. by rewrite all_app, Hfield; simpl; rewrite Hc.
Qed.



End Streams.

Section StreamUnits.

Import Str StrFacts.
Local Arguments String.append !_ _ / : simpl nomatch.

Lemma all_forall p (s : string) :
  all p s = true ↔ ∀ c, c ∈ list_ascii_of_string s → p c = true.
Proof.
  induction s as [|c s IH]; simpl.
  - split; [by intros _ c ?%elem_of_nil|done].
  - rewrite andb_true_iff, IH. split.
    + intros [Hc Hs] x [->|Hx]%elem_of_cons; auto.
    + intros H. split; [apply H; by left|]. intros x Hx. apply H. by right.
Qed.

(** The contents read from a stream are not empty and hold no line
    end. *)
Lemma read_lines_from_free (universal : bool) (texts : list string)
    (d : Doc) :
  d ∈ read_documents (lines_from universal EmptyString <$> texts) →
  content d ≠ EmptyString
  ∧ all (λ c, negb (line_end universal c)) (content d) = true.
Proof.
  intros Hd. apply (list_elem_of_fmap_2 content) in Hd.
  rewrite read_lines_from in Hd.
  apply list_elem_of_bind in Hd as (text & Hc & _).
  unfold runs in Hc. apply list_elem_of_filter in Hc as [Hne Hc].
  split; [done|]. by apply (fields_from_free _ text EmptyString).
Qed.

Lemma file_lines_no_carriage_return (texts : list string) (d : Doc) :
  d ∈ read_documents (file_lines <$> texts) →
  carriage_return ∉ list_ascii_of_string (content d).
Proof.
  intros [_ Hd]%(read_lines_from_free true). intros Hr.
  rewrite all_forall in Hd. specialize (Hd _ Hr). done.
Qed.

End StreamUnits.

(** C10, as the claim states it, fails for a file named on the command
    line.  Of the text of three lines with Windows line ends, the second
    of them blank, the claim keeps three units, each with its carriage
    return; the file is read with universal newlines, the lines arrive
    with a newline for their end, and two units are built, the blank line
    dropped. *)
Lemma windows_blank_line_is_dropped :
  ¬ (∀ texts : list string,
       content <$> read_documents (file_lines <$> texts)
       = retained (texts ≫= lines_from false EmptyString)).
Proof.
  intros H.
  specialize (H ["a" +:+ Str.chr 13 +:+ Str.chr 10 +:+ Str.chr 13
                 +:+ Str.chr 10 +:+ "b" +:+ Str.chr 13 +:+ Str.chr 10]).
  vm_compute in H. discriminate H.
Qed.

Example windows_blank_line_units :
  let text := "a" +:+ Str.chr 13 +:+ Str.chr 10 +:+ Str.chr 13
              +:+ Str.chr 10 +:+ "b" +:+ Str.chr 13 +:+ Str.chr 10 in
  content <$> read_documents [file_lines text] = ["a"; "b"]
  ∧ retained (lines_from false EmptyString text)
    = ["a" +:+ Str.chr 13; Str.chr 13; "b" +:+ Str.chr 13].
Proof. by vm_compute. Qed.

(** C10, amended.  Unit construction, from the lines that the streams
    yield: the contents of the units are those lines, files in the order
    given, each without the newlines at its end and otherwise character
    for character, a line left out exactly when nothing remains of it; the
    ids are the decimal numerals of 0, 1, 2, ... in that order.  So a line
    of a single space is kept as a unit.  From the texts that the streams
    hold, the contents are the runs between line ends.  A carriage return
    is a line end for a file named on the command line (universal
    newlines): no unit read from one holds a carriage return, and a blank
    line with a Windows line end is dropped.  It is kept, and a line of
    a carriage return is a unit, on a standard input that is read without
    newline translation. *)
Theorem read_documents_units (files : list (list string)) :
  let documents := read_documents files in
  let nl := Str.chr 10 in
  let cr := Str.chr 13 in
  content <$> documents = retained (concat files)
  ∧ id <$> documents = Str.str <$> seq 0 (length documents)
  ∧ (∀ n, Nat.of_uint <$> NilZero.uint_of_string (Str.str n) = Some n)
  ∧ (∀ line, ∃ nls,
        line = Str.rstrip line nl +:+ nls
        ∧ Str.all (λ c, bool_decide (c = Str.newline)) nls = true)
  ∧ (∀ body, Str.newline ∉ list_ascii_of_string body →
        Str.rstrip (body +:+ nl) nl = body ∧ Str.rstrip body nl = body)
  ∧ (∀ (universal : bool) (texts : list string),
        content <$> read_documents
                      (lines_from universal EmptyString <$> texts)
        = texts ≫= runs (line_end universal))
  ∧ (∀ (texts : list string) (d : Doc),
        d ∈ read_documents (file_lines <$> texts) →
        carriage_return ∉ list_ascii_of_string (content d))
  ∧ read_documents
      [stdin_lines false (" " +:+ nl +:+ nl +:+ cr +:+ nl +:+ "b")]
    = [mkDoc "0" " " None; mkDoc "1" cr None; mkDoc "2" "b" None]
  ∧ read_documents [file_lines (" " +:+ nl +:+ nl +:+ cr +:+ nl +:+ "b")]
    = [mkDoc "0" " " None; mkDoc "1" "b" None].
Proof.
  cbv zeta. rewrite read_documents_number.
  rewrite number_content, number_id, number_length.
  split_and!; try done.
  - apply str_reads_back.
  - apply rstrip_only_newlines.
  - apply rstrip_line.
  - apply read_lines_from.
  - apply file_lines_no_carriage_return.
Qed.

(** ** The result selector *)

Lemma slice_to_take {A} (k : Z) (l : list A) :
  0 <= k → slice_to k l = take (Z.to_nat k) l.
Proof. intros Hk. unfold slice_to. by rewrite (proj2 (Z.leb_le 0 k)). Qed.

(** C7. The result selector: for [top_k > 0] it keeps the first
    [min(top_k, n)] elements of the ranking, and for [top_k <= 0] the whole
    ranking; what it keeps is a prefix, so only trailing elements go. *)
Theorem truncate_keeps_prefix (top_k : Z) (ranking : list Doc) :
  let n := Z.of_nat (length ranking) in
  let kept := truncate top_k ranking in
  (0 < top_k →
     kept = take (Z.to_nat (Z.min top_k n)) ranking
     ∧ Z.of_nat (length kept) = Z.min top_k n)
  ∧ (top_k <= 0 → kept = ranking ∧ Z.of_nat (length kept) = n)
  ∧ ∃ dropped, ranking = kept ++ dropped.
Proof.
  cbv zeta. unfold truncate. split_and!.
  - intros Hk. rewrite (proj2 (Z.ltb_lt 0 top_k)) by done.
    rewrite slice_to_take by lia.
    destruct (Z.le_ge_cases top_k (Z.of_nat (length ranking))).
    + rewrite Z.min_l by done. split; [done|]. rewrite length_take. lia.
    + rewrite Z.min_r by done. rewrite Nat2Z.id.
      rewrite !take_ge by lia. done.
  - intros Hk. by rewrite (proj2 (Z.ltb_ge 0 top_k)) by done.
  - destruct (0 <? top_k) eqn:Hk.
    + apply Z.ltb_lt in Hk. rewrite slice_to_take by lia.
      eexists. symmetry. apply take_drop.
    + exists []. by rewrite app_nil_r.
Qed.

(** The command as a whole: a diagnostic when no line is retained or the
    method is none of the three, and otherwise the contents of the ranking
    that the strategy returns, truncated. *)
Lemma sort_runs {St} (model_obj : Model St) (query method : string)
    (top_k : Z) (prompt : option Template) (files : list (list string))
    (w : World St) :
  let documents := read_documents files in
  let prompt_template := default DEFAULT_PAIRWISE_PROMPT prompt in
  let chosen :=
    strategy model_obj prompt_template query method top_k documents in
  let result := sort model_obj query method top_k prompt files w in
  (documents = [] → result = Some (Stderr "No input lines provided.", w))
  ∧ (documents ≠ [] → chosen = None →
     result = Some (Stderr "Invalid sorting method specified.", w))
  ∧ (documents ≠ [] → ∀ run, chosen = Some run →
     result = map_result
                (λ ranking, Stdout (content <$> truncate top_k ranking))
                (run w)).
Proof.
  cbv zeta. unfold sort. split_and!.
  - intros ->. by rewrite bool_decide_eq_true_2.
  - intros Hne ->. by rewrite bool_decide_eq_false_2.
  - intros Hne run ->. rewrite bool_decide_eq_false_2 by done.
    unfold bind. by destruct (run w) as [[ranking w']|].
Qed.

(** ** The sort, as a function *)

Section SortPure.

Context {A : Type}.
Implicit Types (lt : A → A → bool) (l s : list A).

Lemma insert_pure_perm lt x s : insert_pure lt x s ≡ₚ x :: s.
Proof.
  induction s as [|y s IH]; simpl; [done|].
  destruct (lt y x); [|done]. rewrite IH. apply Permutation_swap.
Qed.

Lemma sort_pure_perm lt l : sort_pure lt l ≡ₚ l.
Proof.
  induction l as [|x l IH]; simpl; [done|].
  by rewrite insert_pure_perm, IH.
Qed.

Lemma strict_total_weak lt l :
  strict_total_on lt l → strict_weak_on lt l.
Proof.
  intros [Hirr Htr Htot]. split.
  - intros a b Ha Hb Hab. destruct (lt b a) eqn:Hba; [|done].
    rewrite <- (Hirr a Ha). symmetry. by apply (Htr a b a).
  - intros a b c Ha Hb Hc Hab Hbc. apply not_true_is_false. intros Hac.
    assert (¬ ¬ (a = b ∨ a ≠ b)) as Hab' by tauto. apply Hab'.
    intros [->|Hne]; [congruence|].
    assert (¬ ¬ (b = c ∨ b ≠ c)) as Hbc' by tauto. apply Hbc'.
    intros [->|Hne']; [congruence|].
    destruct (Htot a b) as [?|Hba]; [done..|congruence|].
    destruct (Htot b c) as [?|Hcb]; [done..|congruence|].
    pose proof (Htr c b a Hc Hb Ha Hcb Hba) as Hca.
    pose proof (Htr a c a Ha Hc Ha Hac Hca). rewrite Hirr in *; done.
Qed.

Lemma strict_weak_on_subseteq lt l l' :
  l' ⊆ l → strict_weak_on lt l → strict_weak_on lt l'.
Proof.
  intros Hl [Has Hnt]. split.
  - intros a b Ha Hb. apply Has; by apply Hl.
  - intros a b c Ha Hb Hc. apply Hnt; by apply Hl.
Qed.

Lemma strict_total_on_subseteq lt l l' :
  l' ⊆ l → strict_total_on lt l → strict_total_on lt l'.
Proof.
  intros Hl [Hirr Htr Htot]. split.
  - intros a Ha. apply Hirr; by apply Hl.
  - intros a b c Ha Hb Hc. apply Htr; by apply Hl.
  - intros a b Ha Hb. apply Htot; by apply Hl.
Qed.

(** Where [insert] puts the new element. *)
Lemma insert_pure_split lt x s :
  ∃ s1 s2, s = s1 ++ s2 ∧ insert_pure lt x s = s1 ++ x :: s2
           ∧ Forall (λ y, lt y x = true) s1
           ∧ (∀ y, head s2 = Some y → lt y x = false).
Proof.
  induction s as [|y s (s1 & s2 & -> & Hins & Hs1 & Hs2)]; simpl.
  - exists [], []. split_and!; by try constructor.
  - destruct (lt y x) eqn:Hyx.
    + exists (y :: s1), s2. rewrite Hins. split_and!; by try constructor.
    + exists [], (y :: s1 ++ s2). split_and!; try done.
      intros y' [= <-]. done.
Qed.

(** No element of the sorted list is smaller than one before it. *)
Lemma insert_pure_sorted lt x s :
  strict_weak_on lt (x :: s) →
  StronglySorted (λ a b, lt b a = false) s →
  StronglySorted (λ a b, lt b a = false) (insert_pure lt x s).
Proof.
  intros Hswo Hs.
  destruct (insert_pure_split lt x s) as (s1 & s2 & -> & -> & Hs1 & Hs2).
  apply StronglySorted_app in Hs as (H12 & Hss1 & Hss2).
  destruct Hswo as [Has Hnt].
  apply StronglySorted_app_2; [|done|].
  - intros y z Hy [->|Hz]%elem_of_cons; [|by apply H12].
    rewrite Forall_forall in Hs1. apply Has; [set_solver..|by apply Hs1].
  - constructor; [done|]. destruct s2 as [|y0 s2]; [done|].
    apply StronglySorted_cons in Hss2 as [Hy0 _].
    pose proof (Hs2 y0 eq_refl) as Hy0x.
    constructor; [done|]. rewrite Forall_forall in Hy0 |- *.
    intros z Hz. apply (Hnt z y0 x); [set_solver..|by apply Hy0|done].
Qed.

Lemma sort_pure_sorted lt l :
  strict_weak_on lt l →
  StronglySorted (λ a b, lt b a = false) (sort_pure lt l).
Proof.
  induction l as [|x l IH]; intros Hswo; simpl; [constructor|].
  apply insert_pure_sorted.
  - eapply strict_weak_on_subseteq; [|done].
    by rewrite sort_pure_perm.
  - apply IH. eapply strict_weak_on_subseteq; [|done]. set_solver.
Qed.

(** The sort is stable: the elements of a class [P] no two of which are
    ordered by [lt] keep their order. *)
Lemma insert_pure_filter lt (P : A → Prop) `{!∀ a, Decision (P a)} x s :
  (∀ y, y ∈ s → P x → P y → lt y x = false) →
  filter P (insert_pure lt x s) = filter P (x :: s).
Proof.
  induction s as [|y s IH]; intros Htie; simpl; [done|].
  destruct (lt y x) eqn:Hyx; [|done].
  rewrite (filter_cons _ y), IH by (intros; apply Htie; set_solver).
  rewrite !filter_cons.
  destruct (decide (P x)) as [Hx|Hx], (decide (P y)) as [Hy|Hy]; try done.
  rewrite Htie in Hyx; [done|set_solver|done..].
Qed.

Lemma sort_pure_filter lt (P : A → Prop) `{!∀ a, Decision (P a)} l :
  (∀ x y, x ∈ l → y ∈ l → P x → P y → lt y x = false) →
  filter P (sort_pure lt l) = filter P l.
Proof.
  induction l as [|x l IH]; intros Htie; simpl; [done|].
  rewrite insert_pure_filter.
  - rewrite !filter_cons, IH; [done|]. intros; apply Htie; set_solver.
  - intros y Hy. rewrite sort_pure_perm in Hy. apply Htie; set_solver.
Qed.

(** When nothing is smaller than anything, nothing moves. *)
Lemma sort_pure_id lt l :
  (∀ x y, x ∈ l → y ∈ l → lt y x = false) → sort_pure lt l = l.
Proof.
  induction l as [|x l IH]; intros Hlt; simpl; [done|].
  rewrite IH by (intros; apply Hlt; set_solver).
  destruct l as [|y l]; simpl; [done|]. rewrite Hlt; [done|set_solver..].
Qed.

(** A strict total order leaves one way to sort. *)
Lemma sort_pure_total lt l :
  NoDup l → strict_total_on lt l →
  StronglySorted (λ a b, lt a b = true) (sort_pure lt l).
Proof.
  intros Hnd Hsto.
  pose proof (sort_pure_sorted lt l (strict_total_weak _ _ Hsto)) as Hs.
  assert (NoDup (sort_pure lt l)) as Hnd' by by rewrite sort_pure_perm.
  assert (sort_pure lt l ⊆ l) as Hsub by by rewrite sort_pure_perm.
  induction Hs as [|a s Hs IH Ha]; [constructor|].
  apply NoDup_cons in Hnd' as [Has Hnd'].
  constructor; [apply IH; [done|set_solver]|].
  rewrite Forall_forall in Ha |- *. intros b Hb.
  destruct (sto_total _ _ Hsto a b) as [?|Hba]; [set_solver..| |done|].
  - intros ->. done.
  - rewrite Ha in Hba; done.
Qed.

Lemma sorted_total_unique lt l l1 l2 :
  strict_total_on lt l → l1 ≡ₚ l → l2 ≡ₚ l →
  StronglySorted (λ a b, lt a b = true) l1 →
  StronglySorted (λ a b, lt a b = true) l2 → l1 = l2.
Proof.
  intros Hsto H1 H2 Hs1 Hs2.
  eapply StronglySorted_unique_strong; [|exact Hs1|exact Hs2|].
  - intros a b Ha Hb Hab Hba. exfalso. simpl in Hab, Hba.
    destruct (strict_total_weak _ _ Hsto) as [Has _].
    rewrite (Has a b) in Hba; [done| | |done].
    + by rewrite <- H1.
    + by rewrite <- H2.
  - by rewrite H1, H2.
Qed.

Lemma sort_pure_fmap {B} (g : A → B) lt (lt' : B → B → bool) l :
  (∀ a b, lt' (g a) (g b) = lt a b) →
  sort_pure lt' (g <$> l) = g <$> sort_pure lt l.
Proof.
  intros Hg. induction l as [|x l IH]; [done|].
  rewrite fmap_cons. simpl. rewrite IH. generalize (sort_pure lt l).
  intros s. induction s as [|y s IHs]; [done|].
  rewrite fmap_cons. simpl. rewrite Hg.
  destruct (lt y x); [by rewrite IHs|done].
Qed.

End SortPure.

(** ** The sort, as the program runs it *)

Section SortRun.

Context {St K : Type}.
Implicit Types (lt : K → K → M St bool) (ltp : K → K → bool).
Implicit Types (l s : list K) (w : World St).

(** Whatever [<] answers, as long as it answers, the sort returns a
    rearrangement of its input. *)
Lemma insert_perm lt x s w :
  (∀ a b w, returns (lt a b) w (λ _ _, True)) →
  returns (insert lt x s) w (λ r _, r ≡ₚ x :: s).
Proof.
  intros Hlt. revert w. induction s as [|y s IH]; intros w; simpl.
  - by apply returns_ret.
  - apply returns_bind. eapply returns_mono; [apply Hlt|].
    intros [] w' _.
    + apply returns_bind. eapply returns_mono; [apply IH|].
      intros r w'' Hr. apply returns_ret. rewrite Hr. apply Permutation_swap.
    + by apply returns_ret.
Qed.

Lemma list_sort_perm lt l w :
  (∀ a b w, returns (lt a b) w (λ _ _, True)) →
  returns (list_sort lt l) w (λ r _, r ≡ₚ l).
Proof.
  intros Hlt. revert w. induction l as [|x l IH]; intros w; simpl.
  - by apply returns_ret.
  - apply returns_bind. eapply returns_mono; [apply IH|].
    intros s w' Hs. eapply returns_mono; [by apply insert_perm|].
    intros r w'' Hr. simpl in Hr. by rewrite Hr, Hs.
Qed.

Lemma insert_run lt ltp x s w :
  (∀ y w, y ∈ s → returns (lt y x) w (λ r _, r = ltp y x)) →
  returns (insert lt x s) w (λ r _, r = insert_pure ltp x s).
Proof.
  revert w. induction s as [|y s IH]; intros w Hlt; simpl.
  - by apply returns_ret.
  - apply returns_bind. eapply returns_mono; [apply Hlt; by left|].
    intros b w' ->. simpl. destruct (ltp y x).
    + apply returns_bind. eapply returns_mono.
      { apply IH. intros; apply Hlt. by right. }
      intros r w'' ->. by apply returns_ret.
    + by apply returns_ret.
Qed.

Lemma list_sort_run lt ltp l w :
  answers_as lt ltp l →
  returns (list_sort lt l) w (λ r _, r = sort_pure ltp l).
Proof.
  revert w. induction l as [|x l IH]; intros w Hlt; simpl.
  - by apply returns_ret.
  - destruct Hlt as [Hx Hl]. apply returns_bind.
    eapply returns_mono; [by apply IH|]. intros s w' ->.
    apply insert_run. intros y w'' Hy. apply Hx.
    by rewrite sort_pure_perm in Hy.
Qed.

(** A [<] that is a function leaves the world alone. *)
Lemma insert_ret ltp x s w :
  insert (λ a b, ret (ltp a b)) x s w = Some (insert_pure ltp x s, w).
Proof.
  induction s as [|y s IH]; simpl; [done|].
  unfold bind at 1. simpl. destruct (ltp y x); [|done].
  unfold bind. by rewrite IH.
Qed.

Lemma list_sort_ret ltp l w :
  list_sort (λ a b, ret (ltp a b)) l w = Some (sort_pure ltp l, w).
Proof.
  induction l as [|x l IH]; simpl; [done|].
  unfold bind. rewrite IH. apply insert_ret.
Qed.

End SortRun.

Section Sorted.

Context {St : Type}.
Implicit Types w : World St.

Lemma insert_fmap {A B} (g : A → B) (lt : A → A → M St bool)
    (lt' : B → B → M St bool) (x : A) (s : list A) w :
  (∀ a b w, lt' (g a) (g b) w = lt a b w) →
  insert lt' (g x) (g <$> s) w = map_result (fmap g) (insert lt x s w).
Proof.
  intros Hg. revert w. induction s as [|y s IH]; intros w; [done|].
  rewrite fmap_cons. simpl. unfold bind at 1 3. rewrite Hg.
  destruct (lt y x w) as [[[] w']|]; simpl; [|done..].
  unfold bind. rewrite IH. by destruct (insert lt x s w') as [[r w'']|].
Qed.

Lemma list_sort_fmap {A B} (g : A → B) (lt : A → A → M St bool)
    (lt' : B → B → M St bool) (l : list A) w :
  (∀ a b w, lt' (g a) (g b) w = lt a b w) →
  list_sort lt' (g <$> l) w = map_result (fmap g) (list_sort lt l w).
Proof.
  intros Hg. revert w. induction l as [|x l IH]; intros w; [done|].
  rewrite fmap_cons. simpl. unfold bind. rewrite IH.
  destruct (list_sort lt l w) as [[s w']|]; simpl; [|done].
  by apply insert_fmap.
Qed.

Lemma map_each_fun {A B} (f : A → M St B) (g : A → B) (l : list A) w :
  (∀ x w, x ∈ l → f x w = Some (g x, w)) →
  map_each f l w = Some (g <$> l, w).
Proof.
  induction l as [|x l IH]; intros Hf; simpl; [done|].
  unfold bind. rewrite Hf by by left.
  rewrite IH; [done|]. intros; apply Hf. by right.
Qed.

Lemma zip_fmap_self {A B} (g : A → B) (l : list A) :
  zip (g <$> l) l = (λ x, (g x, x)) <$> l.
Proof. induction l as [|x l IH]; csimpl; [done|]. by rewrite IH. Qed.

(** [sorted(l, key=cmp_to_key(c))] is the sort of [l] by the [<] that [c]
    gives. *)
Lemma sorted_cmp_to_key {A} (c : A → A → M St Z) (l : list A) w :
  sorted (cmp_to_key c) false l w
  = list_sort (key_lt (cmp_to_key c)) l w.
Proof.
  unfold sorted, bind at 1.
  rewrite (map_each_fun _ Datatypes.id) by done.
  rewrite list_fmap_id, <- (list_fmap_id l) at 1. rewrite zip_fmap_self.
  unfold bind.
  rewrite (list_sort_fmap _ (key_lt (cmp_to_key c))) by done.
  destruct (list_sort _ l w) as [[r w']|]; simpl; [|done].
  unfold ret. do 2 f_equal. rewrite <- list_fmap_compose.
  apply list_fmap_id.
Qed.

(** [sorted(l, key=lambda d: d["score"], reverse=True)], once every unit
    has a score. *)
Lemma sorted_score (l : list Doc) w :
  (∀ d, d ∈ l → is_Some (score d)) →
  sorted score_key true l w
  = Some (reverse (sort_pure score_lt (reverse l)), w).
Proof.
  intros Hl. unfold sorted, bind at 1.
  rewrite (map_each_fun _ score_of).
  2:{ intros d w' Hd. simpl. unfold score_of.
      by destruct (Hl d Hd) as [x ->]. }
  rewrite zip_fmap_self, <- fmap_reverse. simpl.
  change (λ p q : Qc * Doc, ret (bool_decide (p.1 < q.1)%Qc))
    with (λ p q : Qc * Doc,
            @ret St _ ((λ p q : Qc * Doc, bool_decide (p.1 < q.1)%Qc) p q)).
  unfold bind. rewrite list_sort_ret.
  rewrite (sort_pure_fmap _ score_lt) by done.
  unfold ret. do 2 f_equal. rewrite <- fmap_reverse, <- list_fmap_compose.
  apply list_fmap_id.
Qed.

End Sorted.

(** ** The sliding pass, as a function *)

Section Bubble.

Context {A : Type}.
Implicit Types (swap lt : A → A → bool) (l : list A).

Lemma bubble_perm swap l : bubble swap l ≡ₚ l.
Proof.
  induction l as [|x l IH]; simpl; [done|].
  destruct (bubble swap l) as [|y r]; [by rewrite <- IH|].
  destruct (swap x y); rewrite <- IH; [apply Permutation_swap|done].
Qed.

Lemma bubble_length swap l : length (bubble swap l) = length l.
Proof. by rewrite bubble_perm. Qed.

Lemma step_pure_cons swap i x l :
  step_pure swap (S i) (x :: l) = x :: step_pure swap i l.
Proof.
  unfold step_pure. simpl.
  destruct (l !! i) as [a|]; [|done].
  destruct (l !! (i + 1)%nat) as [b|]; [|done].
  by destruct (swap a b).
Qed.

Lemma step_pure_length swap i l : length (step_pure swap i l) = length l.
Proof.
  unfold step_pure. repeat case_match; try done.
  by rewrite !length_insert.
Qed.

Lemma step_pure_perm swap i l : step_pure swap i l ≡ₚ l.
Proof.
  revert i. induction l as [|x l IH]; intros i; [by destruct i|].
  destruct i as [|i]; [|by rewrite step_pure_cons, IH].
  unfold step_pure. simpl. destruct l as [|y l]; [done|]. simpl.
  destruct (swap x y); [apply Permutation_swap|done].
Qed.

Lemma foldl_step_cons swap (idx : list nat) x l :
  foldl (λ l i, step_pure swap i l) (x :: l) (S <$> idx)
  = x :: foldl (λ l i, step_pure swap i l) l idx.
Proof.
  revert l. induction idx as [|i idx IH]; intros l; csimpl; [done|].
  by rewrite step_pure_cons, IH.
Qed.

Lemma pass_pure_bubble swap l : pass_pure swap l = bubble swap l.
Proof.
  induction l as [|x l IH]; [done|].
  destruct l as [|y l]; [done|].
  unfold pass_pure, range in *. simpl length in *.
  replace (S (S (length l)) - 1 - 0)%nat with (S (length l)) by lia.
  replace (S (length l) - 1 - 0)%nat with (length l) in IH by lia.
  cbn [seq]. rewrite <- fmap_S_seq, reverse_cons.
  rewrite <- fmap_reverse, foldl_app, foldl_step_cons. rewrite IH. simpl.
  pose proof (bubble_length swap (y :: l)) as Hlen. simpl in Hlen.
  destruct (match bubble swap l with
            | [] => [y]
            | y0 :: r => if swap y y0 then y0 :: y :: r else y :: y0 :: r
            end) as [|z r]; [done|].
  unfold step_pure. simpl. by destruct (swap x z).
Qed.

(** From here on the later unit wins when it is before the earlier one
    in the order [lt]. *)

Lemma bubble_min lt l :
  NoDup l → strict_total_on lt l → l ≠ [] →
  ∃ m r, bubble (λ a b, lt b a) l = m :: r ∧ Forall (λ y, lt m y = true) r.
Proof.
  induction l as [|x l IH]; intros Hnd Hsto Hne; [done|]. clear Hne.
  apply NoDup_cons in Hnd as [Hx Hnd].
  destruct l as [|y l'] eqn:El; [by eexists _, _|]. rewrite <- El in *.
  assert (l ≠ []) as Hl by by rewrite El.
  destruct IH as (m & r & Hb & Hm); [done| |done|].
  { eapply strict_total_on_subseteq; [|done]. intros z Hz. by right. }
  pose proof (bubble_perm (λ a b, lt b a) l) as Hperm. rewrite Hb in Hperm.
  assert (m ∈ l) as Hml by (rewrite <- Hperm; by left).
  simpl. rewrite Hb. destruct (lt m x) eqn:Hmx.
  - eexists _, _. split; [done|]. by constructor.
  - eexists _, _. split; [done|].
    assert (x ∈ x :: l) as Hxl by by left.
    assert (m ∈ x :: l) as Hml' by by right.
    assert (lt x m = true) as Hxm.
    { destruct (sto_total _ _ Hsto x m) as [?|?];
        [done..|by intros ->|done|congruence]. }
    constructor; [done|]. rewrite Forall_forall in Hm |- *. intros z Hz.
    apply (sto_trans _ _ Hsto x m z); [done..| |done|by apply Hm].
    right. rewrite <- Hperm. by right.
Qed.

Lemma bubble_cons_min lt x l :
  strict_total_on lt (x :: l) → Forall (λ y, lt x y = true) l →
  bubble (λ a b, lt b a) (x :: l) = x :: bubble (λ a b, lt b a) l.
Proof.
  intros Hsto Hx. simpl.
  pose proof (bubble_perm (λ a b, lt b a) l) as Hperm.
  destruct (bubble (λ a b, lt b a) l) as [|y r]; [done|].
  assert (y ∈ l) as Hy by (rewrite <- Hperm; by left).
  rewrite Forall_forall in Hx.
  destruct (strict_total_weak _ _ Hsto) as [Has _].
  rewrite (Has x y); [done|set_solver..|by apply Hx].
Qed.

Lemma iter_bubble_perm swap k l : Nat.iter k (bubble swap) l ≡ₚ l.
Proof.
  induction k as [|k IH]; simpl; [done|]. by rewrite bubble_perm.
Qed.

Lemma iter_bubble_cons_min lt k x l :
  strict_total_on lt (x :: l) → Forall (λ y, lt x y = true) l →
  Nat.iter k (bubble (λ a b, lt b a)) (x :: l)
  = x :: Nat.iter k (bubble (λ a b, lt b a)) l.
Proof.
  intros Hsto Hx. induction k as [|k IH]; simpl; [done|].
  rewrite IH. apply bubble_cons_min.
  - eapply strict_total_on_subseteq; [|done].
    intros z. rewrite !elem_of_cons, iter_bubble_perm. tauto.
  - by rewrite iter_bubble_perm.
Qed.

(** As many passes as there are units but one put them in order. *)
Lemma iter_bubble_sorted lt k l :
  NoDup l → strict_total_on lt l → (length l ≤ S k)%nat →
  StronglySorted (λ a b, lt a b = true) (Nat.iter k (bubble (λ a b, lt b a)) l).
Proof.
  revert l. induction k as [|k IH]; intros l Hnd Hsto Hlen.
  - simpl. destruct l as [|x [|y l]]; simpl in Hlen; [| |lia];
      repeat constructor.
  - rewrite Nat.iter_succ_r.
    destruct l as [|x l'] eqn:El.
    { simpl.
      rewrite (proj1 (Permutation_nil_r _) (iter_bubble_perm _ k [])).
      constructor. }
    rewrite <- El in *. assert (l ≠ []) as Hl by by rewrite El.
    destruct (bubble_min lt l Hnd Hsto Hl) as (m & r & Hb & Hm).
    pose proof (bubble_perm (λ a b, lt b a) l) as Hperm. rewrite Hb in *.
    assert (strict_total_on lt (m :: r)) as Hsto'.
    { eapply strict_total_on_subseteq; [|done]. by rewrite Hperm. }
    assert (NoDup (m :: r)) as Hnd' by by rewrite Hperm.
    rewrite iter_bubble_cons_min by done.
    apply NoDup_cons in Hnd' as [_ Hnd'].
    constructor.
    + apply IH; [done| |].
      * eapply strict_total_on_subseteq; [|done]. set_solver.
      * apply (f_equal length) in El. rewrite <- Hperm in Hlen.
        simpl in Hlen. lia.
    + by rewrite iter_bubble_perm.
Qed.

(** When no later unit wins, a pass changes nothing. *)
Lemma bubble_id swap l :
  (∀ a b, a ∈ l → b ∈ l → swap a b = false) → bubble swap l = l.
Proof.
  induction l as [|x l IH]; intros Hs; simpl; [done|].
  rewrite IH by (intros; apply Hs; set_solver).
  destruct l as [|y l]; [done|]. rewrite Hs; [done|set_solver..].
Qed.

Lemma iter_bubble_id swap k l :
  (∀ a b, a ∈ l → b ∈ l → swap a b = false) →
  Nat.iter k (bubble swap) l = l.
Proof.
  intros Hs. induction k as [|k IH]; simpl; [done|].
  rewrite IH. by apply bubble_id.
Qed.

End Bubble.

(** ** Loops *)

Section Loops.

Context {St : Type}.
Implicit Types w : World St.

(** A loop that ignores its variable runs its body once per element. *)
Lemma for_each_const {A T} (xs : list A) (pass : T → M St T) (s : T) w :
  for_each xs (λ _, pass) s w = repeat_pass (length xs) pass s w.
Proof.
  revert s w. induction xs as [|x xs IH]; intros s w; simpl; [done|].
  unfold bind. destruct (pass s w) as [[s' w']|]; [apply IH|done].
Qed.

Lemma repeat_pass_returns {T} (I : nat → T → World St → Prop) (P : nat)
    (pass : T → M St T) (s : T) w :
  I 0%nat s w →
  (∀ k s w, I k s w → returns (pass s) w (I (S k))) →
  returns (repeat_pass P pass s) w (I P).
Proof.
  intros HI Hpass.
  assert (∀ k s w, I k s w →
            returns (repeat_pass P pass s) w (I (k + P)%nat)) as H.
  { clear s w HI. induction P as [|P IH]; intros k s w HI; simpl.
    - apply returns_ret. by rewrite Nat.add_0_r.
    - apply returns_bind. eapply returns_mono; [by apply Hpass|].
      intros s' w' HI'. replace (k + S P)%nat with (S k + P)%nat by lia.
      by apply IH. }
  by apply (H 0%nat).
Qed.

End Loops.

(** ** The sliding window *)

Section Sliding.

Context {St : Type}.
Variable model_obj : Model St.
Variable prompt_template : Template.
Implicit Types (w : World St) (l : list Doc).

Local Abbreviation pd := (pairwise_decision model_obj prompt_template).
Local Abbreviation step := (sliding_step model_obj prompt_template).
Local Abbreviation pass := (sliding_pass model_obj prompt_template).

(** A step compares the units at [i] and [i + 1] once and swaps them
    exactly when the comparison says Second. *)
Lemma sliding_step_spec (query : string) (i : nat) l (a b : Doc) w :
  l !! i = Some a → l !! (i + 1)%nat = Some b →
  ∃ d w',
    pd query (content a) (content b) w = Some (d, w')
    ∧ step query i l w
      = Some (if d =? -1 then <[(i + 1)%nat := a]> (<[i := b]> l) else l, w').
Proof.
  intros Ha Hb.
  destruct (pairwise_decision_returns model_obj prompt_template query
              (content a) (content b) w) as (d & w' & Hd & _).
  exists d, w'. split; [done|].
  unfold sliding_step, bind, lift. rewrite ?Ha, ?Hb, ?Hd.
  destruct (d =? -1); [|done].
  apply lookup_lt_Some in Ha, Hb.
  unfold list_set. rewrite decide_True by done. unfold ret.
  rewrite decide_True by (rewrite length_insert; lia). done.
Qed.

Lemma swap_perm (i : nat) l (a b : Doc) :
  l !! i = Some a → l !! (i + 1)%nat = Some b →
  <[(i + 1)%nat := a]> (<[i := b]> l) ≡ₚ l.
Proof.
  intros Ha Hb.
  pose proof (step_pure_perm (λ _ _, true) i l) as H.
  unfold step_pure in H. by rewrite Ha, Hb in H.
Qed.

(** Whatever the model answers, a step returns a rearrangement of the
    list and has sent two prompts. *)
Lemma sliding_step_returns (query : string) (i : nat) l w :
  (i + 1 < length l)%nat →
  returns (step query i l) w (λ l' w',
    l' ≡ₚ l
    ∧ length (transcript w') = (length (transcript w) + 2)%nat).
Proof.
  intros Hi.
  destruct (lookup_lt_is_Some_2 l i) as [a Ha]; [lia|].
  destruct (lookup_lt_is_Some_2 l (i + 1)) as [b Hb]; [lia|].
  destruct (sliding_step_spec query i l a b w Ha Hb) as (d & w' & Hd & Hs).
  destruct (pairwise_decision_returns model_obj prompt_template query
              (content a) (content b) w) as (d' & w'' & Hd' & _ & Ht).
  rewrite Hd in Hd'. injection Hd' as <- <-.
  eexists _, w'. split; [exact Hs|]. split.
  - destruct (d =? -1); [by apply swap_perm|done].
  - rewrite Ht, length_app. done.
Qed.

Lemma range_elem (a b i : nat) : i ∈ range a b ↔ (a ≤ i < b)%nat.
Proof. unfold range. rewrite elem_of_seq. lia. Qed.

Lemma sliding_pass_returns (query : string) l w :
  returns (pass query (length l) l) w (λ l' w',
    l' ≡ₚ l
    ∧ length (transcript w')
      = (length (transcript w) + 2 * (length l - 1))%nat).
Proof.
  unfold sliding_pass.
  eapply returns_mono.
  - apply (returns_for_each (λ visited l' w',
      l' ≡ₚ l ∧ length (transcript w')
                = (length (transcript w) + 2 * length visited)%nat)).
    + split; [done|]. simpl. lia.
    + intros visited i rest l' w' Hxs [Hl' Ht].
      assert (i ∈ reverse (range 0 (length l - 1))) as Hi.
      { rewrite Hxs, elem_of_app, elem_of_cons. auto. }
      rewrite elem_of_reverse, range_elem in Hi.
      eapply returns_mono.
      { apply sliding_step_returns. rewrite Hl'. lia. }
      intros l'' w'' [Hl'' Ht']. split; [by rewrite Hl''|].
      rewrite Ht', Ht, length_app. simpl. lia.
  - intros l' w' [Hl' Ht]. split; [done|].
    rewrite Ht, length_reverse. unfold range. rewrite length_seq. lia.
Qed.

(** When [swap] tells every comparison a pass over a list of [Inv] makes,
    the pass is [pass_pure swap]. *)
Lemma sliding_pass_run (query : string) (swap : Doc → Doc → bool)
    (Inv : list Doc → Prop) l w :
  (∀ l' i a b w, Inv l' → l' !! i = Some a → l' !! (i + 1)%nat = Some b →
     returns (pd query (content a) (content b)) w
       (λ d _, (d =? -1) = swap a b)) →
  (∀ l' i, Inv l' → Inv (step_pure swap i l')) →
  Inv l →
  returns (pass query (length l) l) w (λ l' _,
    l' = pass_pure swap l ∧ Inv l').
Proof.
  intros Hswap Hinv HI. unfold sliding_pass, pass_pure.
  eapply returns_mono.
  - apply (returns_for_each (λ visited l' _,
      l' = foldl (λ l i, step_pure swap i l) l visited ∧ Inv l'
      ∧ length l' = length l)); [done|].
    intros visited i rest l' w' Hxs (Hl' & HI' & Hlen).
    assert (i ∈ reverse (range 0 (length l - 1))) as Hi.
    { rewrite Hxs, elem_of_app, elem_of_cons. auto. }
    rewrite elem_of_reverse, range_elem in Hi.
    destruct (lookup_lt_is_Some_2 l' i) as [a Ha]; [lia|].
    destruct (lookup_lt_is_Some_2 l' (i + 1)) as [b Hb]; [lia|].
    destruct (sliding_step_spec query i l' a b w' Ha Hb)
      as (d & w'' & Hd & Hs).
    destruct (Hswap l' i a b w' HI' Ha Hb) as (d' & w3 & Hd' & Hdd).
    rewrite Hd in Hd'. injection Hd' as <- <-.
    eexists _, w''. split; [exact Hs|].
    assert (step_pure swap i l'
            = if d =? -1 then <[(i + 1)%nat:=a]> (<[i:=b]> l') else l') as Hsp.
    { unfold step_pure. by rewrite Ha, Hb, Hdd. }
    rewrite <- Hsp, foldl_app. simpl. rewrite <- Hl'. split_and!; [done| |].
    + by apply Hinv.
    + by rewrite step_pure_length.
  - intros l' w' (Hl' & HI' & _). done.
Qed.

(** The loop of the strategy runs one pass per element of
    [range(top_k or n)]. *)
Lemma sliding_repeat (query : string) (top_k : Z) l w :
  sliding model_obj prompt_template query top_k l w
  = repeat_pass (length (range_to (int_or top_k (Z.of_nat (length l)))))
      (pass query (length l)) l w.
Proof. unfold sliding. apply for_each_const. Qed.

Lemma range_to_length (k : Z) : length (range_to k) = Z.to_nat k.
Proof. unfold range_to. apply length_seqZ. Qed.

Lemma sliding_returns (query : string) (top_k : Z) l w :
  returns (sliding model_obj prompt_template query top_k l) w (λ l' w',
    l' ≡ₚ l
    ∧ length (transcript w')
      = (length (transcript w)
         + length (range_to (int_or top_k (Z.of_nat (length l))))
           * (2 * (length l - 1)))%nat).
Proof.
  unfold returns. setoid_rewrite sliding_repeat.
  apply (repeat_pass_returns (λ k l' w',
    l' ≡ₚ l ∧ length (transcript w')
              = (length (transcript w) + k * (2 * (length l - 1)))%nat)).
  - split; [done|]. lia.
  - intros k l' w' [Hl' Ht].
    assert (length l = length l') as Hlen by by rewrite Hl'.
    rewrite Hlen at 1.
    eapply returns_mono; [apply sliding_pass_returns|].
    intros l'' w'' [Hl'' Ht']. split; [by rewrite Hl''|].
    rewrite Ht', Ht. lia.
Qed.

Lemma sliding_run (query : string) (top_k : Z) (swap : Doc → Doc → bool)
    (Inv : list Doc → Prop) l w :
  (∀ l' i a b w, Inv l' → l' !! i = Some a → l' !! (i + 1)%nat = Some b →
     returns (pd query (content a) (content b)) w
       (λ d _, (d =? -1) = swap a b)) →
  (∀ l' i, Inv l' → Inv (step_pure swap i l')) →
  Inv l →
  returns (sliding model_obj prompt_template query top_k l) w (λ l' _,
    l' = Nat.iter (length (range_to (int_or top_k (Z.of_nat (length l)))))
           (bubble swap) l).
Proof.
  intros Hswap Hinv HI. unfold returns. setoid_rewrite sliding_repeat.
  eapply returns_mono.
  - apply (repeat_pass_returns (λ k l' _,
      l' = Nat.iter k (bubble swap) l ∧ Inv l')); [done|].
    intros k l' w' [Hl' HI'].
    assert (length l' = length l) as Hlen
      by by rewrite Hl', iter_bubble_perm.
    rewrite <- Hlen.
    eapply returns_mono; [by apply sliding_pass_run|].
    intros l'' w'' [Hl'' HI'']. split; [|done].
    rewrite Hl'', pass_pure_bubble, Hl'. done.
  - by intros l' w' [Hl' _].
Qed.

End Sliding.

(** ** All pairs *)

Section IndexPairs.

Lemma elem_of_index_pairs (n i j : nat) :
  (i, j) ∈ index_pairs n ↔ (i < j < n)%nat.
Proof.
  unfold index_pairs. rewrite list_elem_of_bind. split.
  - intros (i' & Hj & Hi).
    apply list_elem_of_fmap in Hj as (j' & [= -> ->] & Hj).
    apply range_elem in Hi, Hj. lia.
  - intros Hij. exists i. rewrite list_elem_of_fmap, range_elem.
    split; [|lia]. exists j. rewrite range_elem. split; [done|lia].
Qed.

Lemma NoDup_index_pairs (n : nat) : NoDup (index_pairs n).
Proof.
  unfold index_pairs, range. apply NoDup_bind.
  - intros i1 i2 [i j] _ _ (? & [= -> ->] & _)%list_elem_of_fmap
      (? & [= -> ->] & _)%list_elem_of_fmap. done.
  - intros i _. apply NoDup_fmap_2; [|apply NoDup_seq]. by intros ?? [=].
  - apply NoDup_seq.
Qed.

Lemma length_pairs_from (N a m : nat) :
  N = (a + m)%nat →
  (2 * length (seq a m ≫= λ i, pair i <$> range (i + 1) N)
   = m * (m - 1))%nat.
Proof.
  revert a. induction m as [|m IH]; intros a HN; [done|].
  cbn [seq]. rewrite bind_cons, length_app, length_fmap.
  unfold range at 1. rewrite length_seq.
  specialize (IH (S a)). destruct m as [|m]; [simpl in *; lia|].
  rewrite Nat.mul_add_distr_l, IH by lia. nia.
Qed.

Lemma length_index_pairs (n : nat) :
  length (index_pairs n) = (n * (n - 1) / 2)%nat.
Proof.
  pose proof (length_pairs_from n 0 n eq_refl) as H.
  unfold index_pairs.
  replace (range 0 n) with (seq 0 n) by (unfold range; f_equal; lia).
  rewrite <- H, Nat.mul_comm. symmetry. by apply Nat.div_mul.
Qed.

End IndexPairs.

Lemma list_bind_singleton {A B} (f : A → list B) (x : A) : [x] ≫= f = f x.
Proof. csimpl. apply app_nil_r. Qed.

Section Allpair.

Context {St : Type}.
Variable model_obj : Model St.
Variable prompt_template : Template.
Implicit Types (w : World St) (l : list Doc).

Lemma sum_scores_insert l (i : nat) (d d' : Doc) :
  l !! i = Some d →
  sum_scores (<[i := d']> l) = (sum_scores l - score_of d + score_of d')%Qc.
Proof.
  revert i. induction l as [|x l IH]; intros [|i] Hd; simplify_eq/=.
  - ring.
  - rewrite (IH i) by done. ring.
Qed.

Lemma sum_scores_perm l1 l2 : l1 ≡ₚ l2 → sum_scores l1 = sum_scores l2.
Proof.
  induction 1 as [|x l1 l2 _ IH|x y l|l1 l2 l3 _ IH1 _ IH2]; simpl;
    [done|by rewrite IH|ring|congruence].
Qed.

Lemma identity_lookup l1 l2 (i : nat) (d : Doc) :
  identity <$> l1 = identity <$> l2 → l1 !! i = Some d →
  ∃ d', l2 !! i = Some d' ∧ identity d' = identity d.
Proof.
  intros Hid Hd. apply (f_equal (.!! i)) in Hid.
  rewrite !list_lookup_fmap, Hd in Hid. simpl in Hid.
  destruct (l2 !! i) as [d'|]; [|done]. exists d'. split; [done|].
  simpl in Hid. congruence.
Qed.

Lemma add_score_returns (i : nat) (x : Qc) l w :
  (i < length l)%nat → Forall has_score l →
  returns (add_score i x l) w (λ l' w',
    w' = w ∧ identity <$> l' = identity <$> l ∧ Forall has_score l'
    ∧ sum_scores l' = (sum_scores l + x)%Qc).
Proof.
  intros Hi Hl. destruct (lookup_lt_is_Some_2 l i Hi) as [d Hd].
  destruct (Forall_lookup_1 _ _ _ _ Hl Hd) as [s Hs].
  unfold add_score.
  apply returns_bind, (returns_lift _ d); [done|].
  apply returns_bind, (returns_lift _ s); [done|].
  apply returns_list_set; [done|]. split_and!.
  - done.
  - rewrite list_fmap_insert. apply list_insert_id.
    by rewrite list_lookup_fmap, Hd.
  - apply Forall_insert; [done|]. by eexists.
  - rewrite (sum_scores_insert _ _ d) by done.
    unfold score_of. rewrite Hs. simpl. ring.
Qed.

Lemma sum_scores_zero l : sum_scores (set_score 0 <$> l) = 0%Qc.
Proof.
  induction l as [|d l IH]; [done|].
  rewrite fmap_cons. simpl. rewrite IH. by apply Qc_is_canon.
Qed.

Lemma half_half : (Q2Qc (1 # 2) + Q2Qc (1 # 2) = 1)%Qc.
Proof. by apply Qc_is_canon. Qed.

(** One comparison keeps the invariant of the scoring loops. *)
Lemma allpair_pair_returns (query : string) (documents : list Doc)
    (w0 : World St) (visited : list (nat * nat)) (i j : nat) l w :
  (i < length documents)%nat → (j < length documents)%nat →
  scoring_inv prompt_template query documents w0 visited l w →
  returns (allpair_pair model_obj prompt_template query i j l) w
    (scoring_inv prompt_template query documents w0 (visited ++ [(i, j)])).
Proof.
  intros Hi Hj (Hid & Hsc & Hsum & Ht).
  assert (length l = length documents) as Hlen.
  { by rewrite <- (length_fmap identity l), Hid, length_fmap. }
  destruct (lookup_lt_is_Some_2 l i) as [di Hdi]; [lia|].
  destruct (lookup_lt_is_Some_2 l j) as [dj Hdj]; [lia|].
  destruct (identity_lookup _ _ _ _ Hid Hdi) as (a & Ha & [= _ Hca]).
  destruct (identity_lookup _ _ _ _ Hid Hdj) as (b & Hb & [= _ Hcb]).
  assert (∀ l' w', w' = w' → identity <$> l' = identity <$> l →
            Forall has_score l' → sum_scores l' = (sum_scores l + 1)%Qc →
            transcript w' = transcript w
              ++ [prompt_template query (content di) (content dj);
                  prompt_template query (content dj) (content di)] →
            scoring_inv prompt_template query documents w0
              (visited ++ [(i, j)]) l' w') as Hdone.
  { intros l' w' _ Hid' Hsc' Hsum' Ht'. split_and!.
    - by rewrite Hid'.
    - done.
    - rewrite Hsum', Hsum, length_app, Nat2Z.inj_add, Z2Qc_inj_add. done.
    - rewrite Ht', Ht, bind_app, <- app_assoc. f_equal.
      rewrite list_bind_singleton.
      unfold pair_prompts. simpl. by rewrite Ha, Hb, Hca, Hcb. }
  unfold allpair_pair.
  apply returns_bind, (returns_lift _ di); [done|].
  apply returns_bind, (returns_lift _ dj); [done|].
  apply returns_bind. eapply returns_mono.
  { apply pairwise_decision_returns. }
  intros d w' [_ Ht']. simpl in Ht'.
  destruct (d =? 1); [|destruct (d =? -1)].
  - eapply returns_mono; [apply add_score_returns; [lia|done]|].
    intros l' w'' (-> & Hid' & Hsc' & Hsum'). by apply Hdone.
  - eapply returns_mono; [apply add_score_returns; [lia|done]|].
    intros l' w'' (-> & Hid' & Hsc' & Hsum'). by apply Hdone.
  - apply returns_bind.
    eapply returns_mono; [apply add_score_returns; [lia|done]|].
    intros l' w'' (-> & Hid' & Hsc' & Hsum').
    eapply returns_mono.
    { apply add_score_returns; [|done].
      rewrite <- (length_fmap identity l'), Hid', length_fmap. lia. }
    intros l'' w'' (-> & Hid'' & Hsc'' & Hsum''). apply Hdone; [done| |done| |done].
    + by rewrite Hid''.
    + rewrite Hsum'', Hsum', <- Qcplus_assoc, half_half. done.
Qed.

(** The scoring loops visit the pairs of [index_pairs] in order: what
    holds at the start and is kept by the comparison of each pair [i < j]
    holds at the end. *)
Lemma allpair_scores_loop (query : string) (documents : list Doc) w
    (I : list (nat * nat) → list Doc → World St → Prop) :
  let n := length documents in
  I [] (set_score 0 <$> documents) w →
  (∀ visited i j l w', (i < j < n)%nat → I visited l w' →
     returns (allpair_pair model_obj prompt_template query i j l) w'
       (I (visited ++ [(i, j)]))) →
  returns (allpair_scores model_obj prompt_template query documents) w
    (I (index_pairs n)).
Proof.
  intros n HI Hstep. unfold allpair_scores. rewrite length_fmap. fold n.
  set (inner := λ i : nat, pair i <$> range (i + 1) n).
  apply (returns_for_each (λ visited, I (visited ≫= inner))); [done|].
  intros visited i rest l w' Hxs HI'.
  rewrite bind_app, list_bind_singleton.
  apply (returns_for_each (λ visited_j,
    I ((visited ≫= inner) ++ (pair i <$> visited_j)))).
  - simpl. by rewrite app_nil_r.
  - intros visited_j j rest_j l' w'' Hxs_j HI''.
    assert (i + 1 ≤ j < n)%nat as Hj.
    { apply range_elem. rewrite Hxs_j, elem_of_app, elem_of_cons. auto. }
    rewrite fmap_app, app_assoc. simpl. apply Hstep; [lia|done].
Qed.

(** Whatever the model answers, the scoring loops compare every pair of
    positions once, in the order of [index_pairs]. *)
Lemma allpair_scores_returns (query : string) (documents : list Doc) w :
  returns (allpair_scores model_obj prompt_template query documents) w
    (scoring_inv prompt_template query documents w
       (index_pairs (length documents))).
Proof.
  apply (allpair_scores_loop query documents w
    (scoring_inv prompt_template query documents w)).
  - split_and!.
    + rewrite <- list_fmap_compose. by apply list_fmap_ext.
    + apply Forall_fmap, Forall_true. intros d. by eexists.
    + rewrite sum_scores_zero. symmetry. apply Z2Qc_inj_0.
    + simpl. by rewrite app_nil_r.
  - intros visited i j l w' Hij HI. apply allpair_pair_returns; [lia..|done].
Qed.

(** The whole branch: the scoring loops, then the sort by score. *)
Lemma allpair_returns (query : string) (documents : list Doc) w :
  ∃ scored w',
    allpair_scores model_obj prompt_template query documents w
      = Some (scored, w')
    ∧ scoring_inv prompt_template query documents w
        (index_pairs (length documents)) scored w'
    ∧ allpair model_obj prompt_template query documents w
      = Some (reverse (sort_pure score_lt (reverse scored)), w').
Proof.
  destruct (allpair_scores_returns query documents w)
    as (scored & w' & Hs & HI).
  exists scored, w'. split_and!; [done..|].
  unfold allpair, bind. rewrite Hs. apply sorted_score.
  destruct HI as (_ & Hsc & _). by apply Forall_forall.
Qed.

End Allpair.

(** ** All pairs: the score of each unit *)

Section Involving.

Lemma involving_snoc (k i j : nat) (visited : list (nat * nat)) :
  involving k (visited ++ [(i, j)])
  = (involving k visited + if decide (i = k ∨ j = k) then 1 else 0)%nat.
Proof.
  unfold involving. rewrite filter_app, length_app. f_equal.
  rewrite filter_cons, filter_nil. simpl. by destruct (decide _).
Qed.

(** Among the pairs [(a, b), (a, b + 1), ...] with [a < b]. *)
Lemma involving_row (k a b len : nat) :
  (a < b)%nat →
  involving k (pair a <$> seq b len)
  = if decide (a = k) then len
    else if decide (b ≤ k < b + len)%nat then 1%nat else 0%nat.
Proof.
  intros Hab. unfold involving. revert b Hab.
  induction len as [|len IH]; intros b Hab.
  - simpl. repeat case_decide; try done; lia.
  - cbn [seq]. rewrite fmap_cons, filter_cons. simpl.
    destruct (decide (a = k ∨ b = k)) as [H|H]; simpl;
      rewrite (IH (S b)) by lia; repeat case_decide; lia.
Qed.

Lemma involving_from (k N a m : nat) :
  N = (a + m)%nat → (k < N)%nat →
  involving k (seq a m ≫= λ i, pair i <$> range (i + 1) N)
  = if decide (k < a)%nat then 0%nat else (N - 1 - a)%nat.
Proof.
  revert a. induction m as [|m IH]; intros a HN Hk.
  - simpl. case_decide; [done|lia].
  - cbn [seq]. rewrite bind_cons. unfold involving in *.
    rewrite filter_app, length_app, (IH (S a)) by lia.
    pose proof (involving_row k a (a + 1) (N - (a + 1))) as Hrow.
    unfold involving, range in *. rewrite Hrow by lia.
    repeat case_decide; lia.
Qed.

(** Each of [n] positions is in [n - 1] of the pairs. *)
Lemma involving_index_pairs (k n : nat) :
  (k < n)%nat → involving k (index_pairs n) = (n - 1)%nat.
Proof.
  intros Hk. unfold index_pairs.
  replace (range 0 n) with (seq 0 n) by (unfold range; f_equal; lia).
  rewrite (involving_from k n 0 n) by done. case_decide; lia.
Qed.

End Involving.

Section AllpairTie.

Context {St : Type}.
Variable model_obj : Model St.
Variable prompt_template : Template.
Implicit Types (w : World St) (l : list Doc).

Lemma add_score_exact (i : nat) (x s : Qc) l (d : Doc) w :
  l !! i = Some d → score d = Some s →
  add_score i x l w = Some (<[i := set_score (s + x) d]> l, w).
Proof.
  intros Hd Hs. unfold add_score, bind, lift, list_set. rewrite Hd, Hs.
  by rewrite decide_True by by eapply lookup_lt_Some.
Qed.

Lemma half_succ (m : nat) :
  (Q2Qc (1 # 2) * Qc_of_Z (Z.of_nat m) + Q2Qc (1 # 2)
   = Q2Qc (1 # 2) * Qc_of_Z (Z.of_nat (m + 1)))%Qc.
Proof.
  rewrite Nat2Z.inj_add, Z2Qc_inj_add. change (Z.of_nat 1) with 1%Z.
  rewrite Z2Qc_inj_1. ring.
Qed.

Lemma allpair_pair_tie (query : string) (documents : list Doc)
    (visited : list (nat * nat)) (i j : nat) l w :
  always_tie model_obj prompt_template query →
  (i < j < length documents)%nat →
  tie_inv documents visited l w →
  returns (allpair_pair model_obj prompt_template query i j l) w
    (tie_inv documents (visited ++ [(i, j)])).
Proof.
  intros Htie Hij [Hid Hsc].
  assert (length l = length documents) as Hlen.
  { by rewrite <- (length_fmap identity l), Hid, length_fmap. }
  destruct (lookup_lt_is_Some_2 l i) as [di Hdi]; [lia|].
  destruct (lookup_lt_is_Some_2 l j) as [dj Hdj]; [lia|].
  unfold allpair_pair.
  apply returns_bind, (returns_lift _ di); [done|].
  apply returns_bind, (returns_lift _ dj); [done|].
  apply returns_bind. eapply returns_mono; [apply Htie|].
  intros d w' ->. simpl.
  apply returns_bind. unfold returns at 1.
  rewrite (add_score_exact i _ _ l di w' Hdi (Hsc _ _ Hdi)).
  eexists _, _. split; [done|]. unfold returns.
  erewrite add_score_exact;
    [|rewrite list_lookup_insert_ne by lia; exact Hdj|exact (Hsc _ _ Hdj)].
  eexists _, _. split; [done|]. split.
  - rewrite !list_fmap_insert, <- Hid.
    rewrite (list_insert_id (identity <$> l) i)
      by by rewrite list_lookup_fmap, Hdi.
    apply list_insert_id. by rewrite list_lookup_fmap, Hdj.
  - intros k d Hd. rewrite involving_snoc.
    destruct (decide (k = j)) as [->|Hkj].
    + rewrite list_lookup_insert_eq in Hd
        by (rewrite length_insert; lia).
      injection Hd as <-. simpl. rewrite decide_True by auto.
      by rewrite half_succ.
    + rewrite list_lookup_insert_ne in Hd by done.
      destruct (decide (k = i)) as [->|Hki].
      * rewrite list_lookup_insert_eq in Hd by lia.
        injection Hd as <-. simpl. rewrite decide_True by auto.
        by rewrite half_succ.
      * rewrite list_lookup_insert_ne in Hd by done.
        rewrite decide_False by lia. rewrite Nat.add_0_r. by apply Hsc.
Qed.

(** When every comparison is a Tie, the units leave the scoring loops in
    their order, each with [n - 1] half points. *)
Lemma allpair_scores_tie (query : string) (documents : list Doc) w :
  always_tie model_obj prompt_template query →
  returns (allpair_scores model_obj prompt_template query documents) w
    (λ scored _,
       identity <$> scored = identity <$> documents
       ∧ Forall (λ d, score d
                      = Some (Q2Qc (1 # 2)
                              * Qc_of_Z (Z.of_nat (length documents - 1)))%Qc)
                scored).
Proof.
  intros Htie. eapply returns_mono.
  - apply (allpair_scores_loop model_obj prompt_template query documents w
             (tie_inv documents)).
    + split.
      * rewrite <- list_fmap_compose. by apply list_fmap_ext.
      * intros k d Hd. rewrite list_lookup_fmap in Hd.
        destruct (documents !! k); [|done]. injection Hd as <-. simpl.
        f_equal. by apply Qc_is_canon.
    + intros visited i j l w' Hij HI. by apply allpair_pair_tie.
  - intros scored w' [Hid Hsc]. split; [done|].
    apply Forall_lookup. intros k d Hd.
    rewrite (Hsc k d Hd), involving_index_pairs; [done|].
    apply lookup_lt_Some in Hd.
    by rewrite <- (length_fmap identity scored), Hid, length_fmap in Hd.
Qed.

(** What a comparison does to the list, by its outcome. *)
Lemma allpair_pair_exact (query : string) (i j : nat) l (di dj : Doc)
    (si sj : Qc) w :
  i ≠ j → l !! i = Some di → l !! j = Some dj →
  score di = Some si → score dj = Some sj →
  ∃ d w',
    pairwise_decision model_obj prompt_template query
      (content di) (content dj) w = Some (d, w')
    ∧ allpair_pair model_obj prompt_template query i j l w
      = Some (if d =? 1 then <[i := set_score (si + 1) di]> l
              else if d =? -1 then <[j := set_score (sj + 1) dj]> l
              else <[j := set_score (sj + Q2Qc (1 # 2)) dj]>
                     (<[i := set_score (si + Q2Qc (1 # 2)) di]> l), w').
Proof.
  intros Hij Hdi Hdj Hsi Hsj.
  destruct (pairwise_decision_returns model_obj prompt_template query
              (content di) (content dj) w) as (d & w' & Hd & _).
  exists d, w'. split; [done|].
  unfold allpair_pair, bind at 1 2 3, lift. rewrite Hdi, Hdj, Hd.
  destruct (d =? 1); [by apply add_score_exact|].
  destruct (d =? -1); [by apply add_score_exact|].
  unfold bind. rewrite (add_score_exact i _ si l di w' Hdi Hsi).
  apply add_score_exact; [|done]. by rewrite list_lookup_insert_ne.
Qed.

Lemma half_two (m : nat) :
  (Q2Qc (1 # 2) * Qc_of_Z (Z.of_nat m) + 1
   = Q2Qc (1 # 2) * Qc_of_Z (Z.of_nat (m + 2)))%Qc.
Proof.
  replace (m + 2)%nat with (m + 1 + 1)%nat by lia.
  rewrite <- (half_succ (m + 1)), <- (half_succ m), <- Qcplus_assoc.
  by rewrite half_half.
Qed.

(** A comparison leaves every score a whole number of half points. *)
Lemma allpair_pair_halves (query : string)
    (visited : list (nat * nat)) (i j : nat) l w :
  (i < j < length l)%nat →
  halves_inv visited l w →
  returns (allpair_pair model_obj prompt_template query i j l) w
    (λ l' w', length l' = length l
              ∧ halves_inv (visited ++ [(i, j)]) l' w').
Proof.
  intros Hij Hh.
  destruct (lookup_lt_is_Some_2 l i) as [di Hdi]; [lia|].
  destruct (lookup_lt_is_Some_2 l j) as [dj Hdj]; [lia|].
  destruct (Hh i di Hdi) as (mi & Hsi & Hmi).
  destruct (Hh j dj Hdj) as (mj & Hsj & Hmj).
  destruct (allpair_pair_exact query i j l di dj _ _ w ltac:(lia)
              Hdi Hdj Hsi Hsj) as (d & w' & _ & Hrun).
  eexists _, _. split; [exact Hrun|].
  assert (∀ k d0, l !! k = Some d0 → k ≠ i → k ≠ j →
            ∃ m : nat,
              score d0 = Some (Q2Qc (1 # 2) * Qc_of_Z (Z.of_nat m))%Qc
              ∧ (m ≤ 2 * involving k (visited ++ [(i, j)]))%nat) as Hother.
  { intros k d0 Hd0 Hki Hkj. destruct (Hh k d0 Hd0) as (m & Hs & Hm).
    exists m. split; [done|]. rewrite involving_snoc. lia. }
  assert (∀ m, (m ≤ 2 * involving i visited)%nat →
            (m + 2 ≤ 2 * involving i (visited ++ [(i, j)]))%nat) as Hi2.
  { intros m Hm. rewrite involving_snoc, decide_True by auto. lia. }
  assert (∀ m, (m ≤ 2 * involving j visited)%nat →
            (m + 2 ≤ 2 * involving j (visited ++ [(i, j)]))%nat) as Hj2.
  { intros m Hm. rewrite involving_snoc, decide_True by auto. lia. }
  destruct (d =? 1); [|destruct (d =? -1)].
  - split; [by rewrite length_insert|]. intros k d0 Hd0.
    destruct (decide (k = i)) as [->|Hki].
    + rewrite list_lookup_insert_eq in Hd0 by lia. injection Hd0 as <-.
      exists (mi + 2)%nat. simpl. rewrite half_two. split; [done|]. auto.
    + rewrite list_lookup_insert_ne in Hd0 by done.
      destruct (decide (k = j)) as [->|Hkj]; [|by apply Hother].
      simplify_eq. exists mj. split; [done|]. specialize (Hj2 mj). lia.
  - split; [by rewrite length_insert|]. intros k d0 Hd0.
    destruct (decide (k = j)) as [->|Hkj].
    + rewrite list_lookup_insert_eq in Hd0 by lia. injection Hd0 as <-.
      exists (mj + 2)%nat. simpl. rewrite half_two. split; [done|]. auto.
    + rewrite list_lookup_insert_ne in Hd0 by done.
      destruct (decide (k = i)) as [->|Hki]; [|by apply Hother].
      simplify_eq. exists mi. split; [done|]. specialize (Hi2 mi). lia.
  - split; [by rewrite !length_insert|]. intros k d0 Hd0.
    destruct (decide (k = j)) as [->|Hkj].
    + rewrite list_lookup_insert_eq in Hd0 by (rewrite length_insert; lia).
      injection Hd0 as <-. exists (mj + 1)%nat. simpl. rewrite half_succ.
      split; [done|]. specialize (Hj2 mj). lia.
    + rewrite list_lookup_insert_ne in Hd0 by done.
      destruct (decide (k = i)) as [->|Hki].
      * rewrite list_lookup_insert_eq in Hd0 by lia. injection Hd0 as <-.
        exists (mi + 1)%nat. simpl. rewrite half_succ.
        split; [done|]. specialize (Hi2 mi). lia.
      * rewrite list_lookup_insert_ne in Hd0 by done. by apply Hother.
Qed.

(** Whatever the model answers, every score the loops build is a whole
    number of half points between [0] and [n - 1]. *)
Lemma allpair_scores_halves (query : string) (documents : list Doc) w :
  returns (allpair_scores model_obj prompt_template query documents) w
    (λ scored _,
       Forall (λ d, ∃ m : nat,
                 score d = Some (Q2Qc (1 # 2) * Qc_of_Z (Z.of_nat m))%Qc
                 ∧ (m ≤ 2 * (length documents - 1))%nat) scored).
Proof.
  eapply returns_mono.
  - apply (allpair_scores_loop model_obj prompt_template query documents w
             (λ visited l w', length l = length documents
                              ∧ halves_inv visited l w')).
    + split; [by rewrite length_fmap|]. intros k d Hd.
      rewrite list_lookup_fmap in Hd.
      destruct (documents !! k); [|done]. injection Hd as <-.
      exists 0%nat. split; [|lia]. simpl. f_equal. by apply Qc_is_canon.
    + intros visited i j l w' Hij [Hlen Hh]. rewrite <- Hlen in Hij |- *.
      by apply allpair_pair_halves.
  - intros scored w' [Hlen Hh]. apply Forall_lookup. intros k d Hd.
    destruct (Hh k d Hd) as (m & Hs & Hm). exists m. split; [done|].
    rewrite involving_index_pairs in Hm; [done|].
    apply lookup_lt_Some in Hd. lia.
Qed.

End AllpairTie.

(** ** Runs with a model whose answers depend on the prompt alone *)

Section Deterministic.

Context {St : Type}.

Lemma pv_ret {A} (a : A) : pure_valued (St := St) (ret a).
Proof. by intros w w'. Qed.

Lemma pv_lift {A} (o : option A) : pure_valued (St := St) (lift o).
Proof. intros w w'. unfold lift. by destruct o. Qed.

Lemma pv_bind {A B} (m : M St A) (k : A → M St B) :
  pure_valued m → (∀ a, pure_valued (k a)) → pure_valued (x <- m ;; k x).
Proof.
  intros Hm Hk w w'. unfold bind. specialize (Hm w w').
  destruct (m w) as [[a w1]|], (m w') as [[a' w1']|]; simplify_eq/=;
    [apply Hk|done].
Qed.

Lemma pv_for_each {A T} (xs : list A) (body : A → T → M St T) (s : T) :
  (∀ x s, pure_valued (body x s)) → pure_valued (for_each xs body s).
Proof.
  intros Hbody. revert s. induction xs as [|x xs IH]; intros s; simpl.
  - apply pv_ret.
  - by apply pv_bind.
Qed.

Lemma pv_map_each {A B} (f : A → M St B) (xs : list A) :
  (∀ x, pure_valued (f x)) → pure_valued (map_each f xs).
Proof.
  intros Hf. induction xs as [|x xs IH]; simpl.
  - apply pv_ret.
  - apply pv_bind; [done|]. intros y. apply pv_bind; [done|].
    intros ys. apply pv_ret.
Qed.

Lemma pv_list_set {A} (i : nat) (x : A) (l : list A) :
  pure_valued (St := St) (list_set i x l).
Proof. unfold list_set. case_decide; [apply pv_ret|apply pv_lift]. Qed.

Lemma pv_insert {K} (lt : K → K → M St bool) (x : K) (s : list K) :
  (∀ a b, pure_valued (lt a b)) → pure_valued (insert lt x s).
Proof.
  intros Hlt. induction s as [|y s IH]; simpl.
  - apply pv_ret.
  - apply pv_bind; [done|]. intros [].
    + apply pv_bind; [done|]. intros r. apply pv_ret.
    + apply pv_ret.
Qed.

Lemma pv_list_sort {K} (lt : K → K → M St bool) (l : list K) :
  (∀ a b, pure_valued (lt a b)) → pure_valued (list_sort lt l).
Proof.
  intros Hlt. induction l as [|x l IH]; simpl.
  - apply pv_ret.
  - apply pv_bind; [done|]. intros s. by apply pv_insert.
Qed.

Lemma pv_sorted {A K} (key : Key St A K) (rev : bool) (l : list A) :
  (∀ a, pure_valued (key_of key a)) →
  (∀ a b, pure_valued (key_lt key a b)) →
  pure_valued (sorted key rev l).
Proof.
  intros Hk Hlt. unfold sorted. apply pv_bind; [by apply pv_map_each|].
  intros keys. apply pv_bind; [by apply pv_list_sort|].
  intros kv. apply pv_ret.
Qed.

Variable model_obj : Model St.
Variable prompt_template : Template.
Hypothesis model_deterministic : deterministic model_obj.

Lemma pv_ask (p : string) : pure_valued (ask model_obj p).
Proof.
  intros w w'. unfold ask.
  pose proof (model_deterministic p (oracle_state w) (oracle_state w')) as H.
  destruct (model_obj p (oracle_state w)), (model_obj p (oracle_state w')).
  simpl in *. by subst.
Qed.

Lemma pv_pairwise_decision (query docA docB : string) :
  pure_valued (pairwise_decision model_obj prompt_template query docA docB).
Proof.
  unfold pairwise_decision. apply pv_bind; [apply pv_ask|]. intros r1.
  apply pv_bind; [apply pv_ask|]. intros r2.
  destruct (_ && _); [|destruct (_ && _)]; apply pv_ret.
Qed.

Lemma pv_add_score (i : nat) (x : Qc) (l : list Doc) :
  pure_valued (St := St) (add_score i x l).
Proof.
  unfold add_score. apply pv_bind; [apply pv_lift|]. intros d.
  apply pv_bind; [apply pv_lift|]. intros s. apply pv_list_set.
Qed.

Lemma pv_allpair (query : string) (documents : list Doc) :
  pure_valued (allpair model_obj prompt_template query documents).
Proof.
  unfold allpair. apply pv_bind.
  - unfold allpair_scores. apply pv_for_each. intros i l.
    apply pv_for_each. intros j l'. unfold allpair_pair.
    apply pv_bind; [apply pv_lift|]. intros di.
    apply pv_bind; [apply pv_lift|]. intros dj.
    apply pv_bind; [apply pv_pairwise_decision|]. intros d.
    destruct (d =? 1); [apply pv_add_score|].
    destruct (d =? -1); [apply pv_add_score|].
    apply pv_bind; [apply pv_add_score|]. intros l''. apply pv_add_score.
  - intros scored. apply pv_sorted.
    + intros d. apply pv_lift.
    + intros a b. apply pv_ret.
Qed.

End Deterministic.

(** * The three strategies *)

(** ** The number of passes *)

Lemma passes_range (top_k : Z) (n : nat) :
  length (range_to (int_or top_k (Z.of_nat n))) = passes top_k n.
Proof.
  rewrite range_to_length. unfold int_or, passes.
  destruct (Z.eqb_spec top_k 0) as [->|Hk]; [simpl; lia|].
  destruct (Z.ltb_spec 0 top_k); lia.
Qed.

(** C2, as the claim states it, fails.  For [top_k = -1] the loop header
    is [range(-1)], which is empty: over the three units the strategy runs
    no pass and returns them as they came, where three passes put them in
    order. *)
Lemma sliding_negative_top_k_runs_no_pass :
  ¬ (∀ (St : Type) (model_obj : Model St) (prompt_template : Template)
       (query : string) (top_k : Z) (documents : list Doc) (w : World St),
       sliding model_obj prompt_template query top_k documents w
       = repeat_pass (stated_passes top_k (length documents))
           (sliding_pass model_obj prompt_template query (length documents))
           documents w).
Proof.
  intros H.
  specialize (H unit
    (ranking_model DEFAULT_PAIRWISE_PROMPT pet_query ["monkey"; "dog"; "cat"])
    DEFAULT_PAIRWISE_PROMPT pet_query (-1) pets fresh).
  vm_compute in H. discriminate H.
Qed.

(** C2, amended.  The sliding window runs [top_k] passes when [top_k] is
    positive, as many passes as there are units when [top_k] is zero, and
    no pass when [top_k] is negative; every pass compares each of the
    [n - 1] adjacent pairs once, which the transcript shows. *)
Theorem sliding_pass_count {St} (model_obj : Model St)
    (prompt_template : Template) (query : string) (top_k : Z)
    (documents : list Doc) (w : World St) :
  let n := length documents in
  let P := passes top_k n in
  length (range_to (int_or top_k (Z.of_nat n))) = P
  ∧ P = (if 0 <? top_k then Z.to_nat top_k
         else if top_k =? 0 then n else 0%nat)
  ∧ sliding model_obj prompt_template query top_k documents w
    = repeat_pass P (sliding_pass model_obj prompt_template query n)
        documents w
  ∧ returns (sliding model_obj prompt_template query top_k documents) w
      (λ _ w', length (transcript w')
               = (length (transcript w) + P * (2 * (n - 1)))%nat).
Proof.
  cbv zeta. split_and!.
  - apply passes_range.
  - done.
  - rewrite sliding_repeat. by rewrite passes_range.
  - eapply returns_mono; [apply sliding_returns|].
    intros l' w' [_ Ht]. by rewrite Ht, passes_range.
Qed.

(** ** Permutation *)

Section Permutes.

Context {St : Type}.
Variable model_obj : Model St.
Variable prompt_template : Template.
Implicit Types (w : World St).

(** [K(a) < K(b)] for the keys of [cmp_to_key(compare_docs)] asks for one
    comparison and is true exactly when it says First. *)
Lemma key_lt_returns (query : string) (a b : Doc) w (Q : Z → Prop) :
  returns (pairwise_decision model_obj prompt_template query
             (content a) (content b)) w (λ d _, Q d) →
  returns (key_lt (cmp_to_key
                     (compare_docs model_obj prompt_template query)) a b) w
    (λ r _, ∃ d, Q d ∧ r = (d =? 1)).
Proof.
  intros Hd. simpl. apply returns_bind. unfold compare_docs.
  apply returns_bind. eapply returns_mono; [exact Hd|].
  intros d w' HQ. simpl.
  destruct (d =? 1) eqn:H1; [|destruct (d =? -1) eqn:H2];
    apply returns_ret, returns_ret; exists d; by rewrite ?H1.
Qed.

Lemma sorting_list_sort (query : string) (documents : list Doc) w :
  sorting model_obj prompt_template query documents w
  = list_sort (key_lt (cmp_to_key
                         (compare_docs model_obj prompt_template query)))
      documents w.
Proof. apply sorted_cmp_to_key. Qed.

Lemma sorting_returns (query : string) (documents : list Doc) w :
  returns (sorting model_obj prompt_template query documents) w
    (λ out _, out ≡ₚ documents).
Proof.
  unfold returns. rewrite sorting_list_sort. apply list_sort_perm.
  intros a b w'. eapply returns_mono.
  - apply (key_lt_returns query a b w' (λ _, True)).
    eapply returns_mono; [apply pairwise_decision_returns|]. done.
  - done.
Qed.

Lemma allpair_permutes (query : string) (documents : list Doc) w :
  returns (allpair model_obj prompt_template query documents) w
    (λ out _, identity <$> out ≡ₚ identity <$> documents).
Proof.
  destruct (allpair_returns model_obj prompt_template query documents w)
    as (scored & w' & _ & (Hid & _) & Hout).
  eexists _, _. split; [exact Hout|].
  by rewrite reverse_Permutation, sort_pure_perm, reverse_Permutation, Hid.
Qed.

End Permutes.

(** C8. Whatever the model answers, each of the three strategies returns,
    and returns a permutation of the units it was given: the sorting and
    the sliding window return the very units, the all-pairs strategy
    returns them with their ids and contents as they were (it writes the
    score, and nothing else). *)
Theorem strategies_permute {St} (model_obj : Model St)
    (prompt_template : Template) (query : string) (top_k : Z)
    (documents : list Doc) (w : World St) :
  returns (allpair model_obj prompt_template query documents) w
    (λ out _, identity <$> out ≡ₚ identity <$> documents)
  ∧ returns (sorting model_obj prompt_template query documents) w
      (λ out _, out ≡ₚ documents)
  ∧ returns (sliding model_obj prompt_template query top_k documents) w
      (λ out _, out ≡ₚ documents)
  ∧ ∀ method run,
      strategy model_obj prompt_template query method top_k documents
        = Some run →
      returns run w (λ out _, identity <$> out ≡ₚ identity <$> documents).
Proof.
  assert (returns (sorting model_obj prompt_template query documents) w
            (λ out _, out ≡ₚ documents)) as Hsorting
    by apply sorting_returns.
  assert (returns (sliding model_obj prompt_template query top_k documents) w
            (λ out _, out ≡ₚ documents)) as Hsliding.
  { eapply returns_mono; [apply sliding_returns|]. by intros l' w' [? _]. }
  split_and!; [apply allpair_permutes|done..|].
  intros method run Hrun. unfold strategy in Hrun.
  repeat case_match; simplify_eq.
  - apply allpair_permutes.
  - eapply returns_mono; [exact Hsorting|]. intros out _ ->. done.
  - eapply returns_mono; [exact Hsliding|]. intros out _ ->. done.
Qed.

(** ** All pairs: calls, score mass, order *)

Section AllpairClaims.

Context {St : Type}.
Variable model_obj : Model St.
Variable prompt_template : Template.
Implicit Types (w : World St) (l : list Doc).

Lemma length_pair_prompts (query : string) (documents : list Doc) :
  length (index_pairs (length documents)
            ≫= pair_prompts prompt_template query documents)
  = (2 * length (index_pairs (length documents)))%nat.
Proof.
  assert (∀ P : list (nat * nat),
            (∀ i j, (i, j) ∈ P → (i < j < length documents)%nat) →
            length (P ≫= pair_prompts prompt_template query documents)
            = (2 * length P)%nat) as H.
  { induction P as [|[i j] P IH]; intros HP; [done|].
    rewrite bind_cons, length_app, IH by (intros; apply HP; by right).
    destruct (HP i j) as [Hi Hj]; [by left|].
    destruct (lookup_lt_is_Some_2 documents i) as [a Ha]; [lia|].
    destruct (lookup_lt_is_Some_2 documents j) as [b Hb]; [lia|].
    unfold pair_prompts. simpl. rewrite Ha, Hb. simpl. lia. }
  apply H. intros i j. apply elem_of_index_pairs.
Qed.

(** A comparison adds one point in all: one to a unit, or half a point
    to each of the two. *)
Lemma allpair_pair_adds_one (query : string) (i j : nat) l w :
  (i < length l)%nat → (j < length l)%nat → Forall has_score l →
  returns (allpair_pair model_obj prompt_template query i j l) w
    (λ l' _, sum_scores l' = (sum_scores l + 1)%Qc).
Proof.
  intros Hi Hj Hsc.
  destruct (lookup_lt_is_Some_2 l i Hi) as [di Hdi].
  destruct (lookup_lt_is_Some_2 l j Hj) as [dj Hdj].
  unfold allpair_pair.
  apply returns_bind, (returns_lift _ di); [done|].
  apply returns_bind, (returns_lift _ dj); [done|].
  apply returns_bind. eapply returns_mono.
  { apply pairwise_decision_returns. }
  intros d w' _.
  destruct (d =? 1); [|destruct (d =? -1)].
  - eapply returns_mono; [by apply add_score_returns|]. by intros ?? (_&_&_&?).
  - eapply returns_mono; [by apply add_score_returns|]. by intros ?? (_&_&_&?).
  - apply returns_bind.
    eapply returns_mono; [by apply add_score_returns|].
    intros l' w'' (_ & Hid' & Hsc' & Hsum').
    eapply returns_mono.
    { apply add_score_returns; [|done].
      rewrite <- (length_fmap identity l'), Hid', length_fmap. lia. }
    intros l'' w3 (_ & _ & _ & Hsum'').
    rewrite Hsum'', Hsum', <- Qcplus_assoc, half_half. done.
Qed.

End AllpairClaims.

(** C4. Whatever the model answers, an all-pairs run over [n] units
    evaluates the comparator once for each pair of positions [i < j], in
    the order of the loops and for no other pair, which makes
    [n (n - 1) / 2] evaluations of two prompts each; every evaluation adds
    one point in all, one to a unit or half a point to each of the two, and
    the scores of the output add up to [n (n - 1) / 2]. *)
Theorem allpair_score_mass {St} (model_obj : Model St)
    (prompt_template : Template) (query : string) (documents : list Doc)
    (w : World St) :
  let n := length documents in
  let pairs := index_pairs n in
  (∀ i j, (i, j) ∈ pairs ↔ (i < j < n)%nat)
  ∧ NoDup pairs
  ∧ length pairs = (n * (n - 1) / 2)%nat
  ∧ (∀ a b w',
       returns (pairwise_decision model_obj prompt_template query a b) w'
         (λ _ w'', transcript w''
                   = transcript w' ++ [prompt_template query a b;
                                       prompt_template query b a]))
  ∧ (∀ i j l w',
       (i < length l)%nat → (j < length l)%nat → Forall has_score l →
       returns (allpair_pair model_obj prompt_template query i j l) w'
         (λ l' _, sum_scores l' = (sum_scores l + 1)%Qc))
  ∧ returns (allpair model_obj prompt_template query documents) w
      (λ out w',
         transcript w'
         = transcript w ++ (pairs ≫= pair_prompts prompt_template query
                                       documents)
         ∧ length (transcript w')
           = (length (transcript w) + 2 * (n * (n - 1) / 2))%nat
         ∧ Forall (λ d, ∃ m : nat,
                     score d = Some (Q2Qc (1 # 2) * Qc_of_Z (Z.of_nat m))%Qc
                     ∧ (m ≤ 2 * (n - 1))%nat) out
         ∧ sum_scores out = Qc_of_Z (Z.of_nat (n * (n - 1) / 2))).
Proof.
  cbv zeta. split_and!.
  - intros i j. apply elem_of_index_pairs.
  - apply NoDup_index_pairs.
  - apply length_index_pairs.
  - intros a b w'. eapply returns_mono; [apply pairwise_decision_returns|].
    by intros d w'' [_ Ht].
  - intros. by apply allpair_pair_adds_one.
  - destruct (allpair_returns model_obj prompt_template query documents w)
      as (scored & w' & Hscored & (Hid & Hsc & Hsum & Ht) & Hout).
    destruct (allpair_scores_halves model_obj prompt_template query
                documents w) as (scored' & w2 & Hscored' & Hhalves).
    rewrite Hscored in Hscored'. injection Hscored' as <- <-.
    eexists _, _. split; [exact Hout|].
    assert (reverse (sort_pure score_lt (reverse scored)) ≡ₚ scored) as Hp.
    { by rewrite reverse_Permutation, sort_pure_perm, reverse_Permutation. }
    split_and!.
    + done.
    + rewrite Ht, length_app, length_pair_prompts, length_index_pairs. done.
    + by rewrite Hp.
    + rewrite (sum_scores_perm _ _ Hp), Hsum, length_index_pairs. done.
Qed.

(** ** All pairs: the order of the output *)

Lemma StronglySorted_reverse {A} (R : relation A) (l : list A) :
  StronglySorted R l → StronglySorted (flip R) (reverse l).
Proof.
  induction 1 as [|x l Hl IH Hx]; [constructor|].
  rewrite reverse_cons. apply StronglySorted_app_2; [|done|repeat constructor].
  intros y z Hy Hz. rewrite elem_of_reverse in Hy.
  rewrite list_elem_of_singleton in Hz. subst z.
  rewrite Forall_forall in Hx. by apply Hx.
Qed.

Lemma StronglySorted_impl {A} (R R' : relation A) (l : list A) :
  (∀ a b, R a b → R' a b) → StronglySorted R l → StronglySorted R' l.
Proof.
  intros HR. induction 1 as [|x l Hl IH Hx]; constructor; [done|].
  eapply Forall_impl; [done|]. auto.
Qed.

Lemma score_lt_weak (l : list Doc) : strict_weak_on score_lt l.
Proof.
  unfold score_lt. split.
  - intros a b _ _ Hab%bool_decide_eq_true. apply bool_decide_eq_false.
    intros Hba. by eapply (irreflexivity Qclt), Qclt_trans.
  - intros a b c _ _ _ Hab%bool_decide_eq_false Hbc%bool_decide_eq_false.
    apply bool_decide_eq_false. apply Qcle_ngt in Hab, Hbc.
    apply Qcle_ngt. by etransitivity.
Qed.

(** C5. The all-pairs strategy returns the scored units by descending
    score, and the units of one score among them in the order of the
    input: the sort is stable.  The output is a function of the answers:
    with a model whose answer depends on the prompt alone, a second run,
    from whatever world, returns the same list. *)
Theorem allpair_order {St} (model_obj : Model St)
    (prompt_template : Template) (query : string) (documents : list Doc)
    (w : World St) :
  ∃ scored out w',
    allpair_scores model_obj prompt_template query documents w
      = Some (scored, w')
    ∧ allpair model_obj prompt_template query documents w = Some (out, w')
    ∧ identity <$> scored = identity <$> documents
    ∧ Forall has_score scored
    ∧ out ≡ₚ scored
    ∧ StronglySorted (λ a b, score_of b ≤ score_of a)%Qc out
    ∧ (∀ s : Qc, filter (λ d, score_of d = s) out
                 = filter (λ d, score_of d = s) scored)
    ∧ (deterministic model_obj →
       ∀ w2, fst <$> allpair model_obj prompt_template query documents w2
             = Some out).
Proof.
  destruct (allpair_returns model_obj prompt_template query documents w)
    as (scored & w' & Hscored & (Hid & Hsc & _) & Hout).
  exists scored, (reverse (sort_pure score_lt (reverse scored))), w'.
  split_and!; [done..| | | |].
  - by rewrite reverse_Permutation, sort_pure_perm, reverse_Permutation.
  - eapply StronglySorted_impl;
      [|apply StronglySorted_reverse, sort_pure_sorted, score_lt_weak].
    intros a b Hab. unfold flip, score_lt in Hab.
    apply bool_decide_eq_false in Hab. by apply Qcle_ngt.
  - intros s. rewrite filter_reverse, sort_pure_filter.
    + by rewrite filter_reverse, reverse_involutive.
    + intros x y _ _ Hx Hy. unfold score_lt. apply bool_decide_eq_false.
      rewrite Hx, Hy. apply (irreflexivity Qclt).
  - intros Hdet w2.
    rewrite (pv_allpair model_obj prompt_template Hdet query documents w2 w).
    by rewrite Hout.
Qed.

(** ** A model that encodes a strict total order *)

Section TotalOrder.

Context {St : Type}.
Variable model_obj : Model St.
Variable prompt_template : Template.
Variable query : string.
Variable before : Doc → Doc → bool.
Variable documents : list Doc.
Hypothesis documents_nodup : NoDup documents.
Hypothesis before_order : strict_total_on before documents.
Hypothesis model_encodes :
  encodes_order model_obj prompt_template query before documents.
Implicit Types (w : World St) (l : list Doc).

(** The [<] of the sort answers as [before] does. *)
Lemma key_lt_before l :
  NoDup l → l ⊆ documents →
  answers_as (key_lt (cmp_to_key
                        (compare_docs model_obj prompt_template query)))
    before l.
Proof.
  induction l as [|x l IH]; intros Hnd Hsub; [done|].
  apply NoDup_cons in Hnd as [Hx Hnd]. split.
  - intros y w Hy. eapply returns_mono.
    + apply key_lt_returns. apply model_encodes; [set_solver..|].
      intros ->. done.
    + intros r _ (d & -> & ->). by destruct (before y x).
  - apply IH; [done|]. set_solver.
Qed.

Lemma sorting_before w :
  returns (sorting model_obj prompt_template query documents) w
    (λ out _, out = sort_pure before documents).
Proof.
  unfold returns. rewrite sorting_list_sort.
  by apply list_sort_run, key_lt_before.
Qed.

(** In a rearrangement of the units, the later of two neighbours wins
    exactly when it is before the earlier one. *)
Lemma neighbours_before l (i : nat) (a b : Doc) w :
  l ≡ₚ documents → l !! i = Some a → l !! (i + 1)%nat = Some b →
  returns (pairwise_decision model_obj prompt_template query
             (content a) (content b)) w
    (λ d _, (d =? -1) = before b a).
Proof.
  intros Hl Ha Hb.
  assert (a ∈ documents) as Ha'.
  { rewrite <- Hl. by eapply list_elem_of_lookup_2. }
  assert (b ∈ documents) as Hb'.
  { rewrite <- Hl. by eapply list_elem_of_lookup_2. }
  assert (a ≠ b) as Hab.
  { intros ->. assert (NoDup l) as Hnd by by rewrite Hl.
    pose proof (NoDup_lookup _ _ _ _ Hnd Ha Hb). lia. }
  eapply returns_mono; [by apply model_encodes|].
  intros d _ ->. destruct (strict_total_weak _ _ before_order) as [Has _].
  destruct (before a b) eqn:Eab.
  - by rewrite (Has a b).
  - destruct (sto_total _ _ before_order a b) as [?|Hba];
      [done..|congruence|by rewrite Hba].
Qed.

Lemma sliding_before (top_k : Z) w :
  returns (sliding model_obj prompt_template query top_k documents) w
    (λ out _,
       out = Nat.iter (passes top_k (length documents))
               (bubble (λ a b, before b a)) documents).
Proof.
  eapply returns_mono.
  - apply (sliding_run model_obj prompt_template query top_k
             (λ a b, before b a) (λ l, l ≡ₚ documents)); [| |done].
    + intros l i a b w'. apply neighbours_before.
    + intros l i Hl. by rewrite step_pure_perm.
  - intros out _ ->. by rewrite passes_range.
Qed.

End TotalOrder.

(** C3. When the judgments of the model encode a strict total order of the
    units, the sorting strategy returns the units in that order: its
    output is a permutation of the units, each unit before every unit after
    it, and it is the only such list. *)
Theorem sorting_total_order {St} (model_obj : Model St)
    (prompt_template : Template) (query : string)
    (before : Doc → Doc → bool) (documents : list Doc) (w : World St) :
  NoDup documents →
  strict_total_on before documents →
  encodes_order model_obj prompt_template query before documents →
  returns (sorting model_obj prompt_template query documents) w
    (λ out _,
       out ≡ₚ documents
       ∧ StronglySorted (λ a b, before a b = true) out
       ∧ ∀ l, l ≡ₚ documents →
              StronglySorted (λ a b, before a b = true) l → out = l).
Proof.
  intros Hnd Hsto Henc. eapply returns_mono.
  - by apply (sorting_before model_obj prompt_template query before).
  - intros out _ ->.
    pose proof (sort_pure_perm before documents) as Hp.
    pose proof (sort_pure_total before documents Hnd Hsto) as Hs.
    split_and!; [done..|].
    intros l Hl Hsl. by apply (sorted_total_unique before documents).
Qed.

(** C6. When the judgments of the model encode a strict total order of the
    units, the sliding window with [n - 1] passes (or more) returns the
    units in that order: its output is a permutation of the units, each
    unit before every unit after it, and it is the only such list. *)
Theorem sliding_total_order {St} (model_obj : Model St)
    (prompt_template : Template) (query : string) (top_k : Z)
    (before : Doc → Doc → bool) (documents : list Doc) (w : World St) :
  NoDup documents →
  strict_total_on before documents →
  encodes_order model_obj prompt_template query before documents →
  (length documents - 1
   ≤ length (range_to (int_or top_k (Z.of_nat (length documents)))))%nat →
  returns (sliding model_obj prompt_template query top_k documents) w
    (λ out _,
       out ≡ₚ documents
       ∧ StronglySorted (λ a b, before a b = true) out
       ∧ ∀ l, l ≡ₚ documents →
              StronglySorted (λ a b, before a b = true) l → out = l).
Proof.
  intros Hnd Hsto Henc HP. eapply returns_mono.
  - by apply (sliding_before model_obj prompt_template query before).
  - intros out _ ->.
    pose proof (iter_bubble_perm (λ a b, before b a)
                  (passes top_k (length documents)) documents) as Hp.
    assert (StronglySorted (λ a b, before a b = true)
              (Nat.iter (passes top_k (length documents))
                 (bubble (λ a b, before b a)) documents)) as Hs.
    { apply iter_bubble_sorted; [done..|]. rewrite passes_range in HP. lia. }
    split_and!; [done..|].
    intros l Hl Hsl. by apply (sorted_total_unique before documents).
Qed.

(** ** A model that never decides *)

Section AlwaysTie.

Context {St : Type}.
Variable model_obj : Model St.
Variable prompt_template : Template.
Variable query : string.
Hypothesis model_ties : always_tie model_obj prompt_template query.
Implicit Types (w : World St) (l : list Doc).

Lemma allpair_tie (documents : list Doc) w :
  returns (allpair model_obj prompt_template query documents) w
    (λ out _,
       identity <$> out = identity <$> documents
       ∧ Forall (λ d, score d
                      = Some (Q2Qc (1 # 2)
                              * Qc_of_Z (Z.of_nat (length documents - 1)))%Qc)
                out).
Proof.
  unfold allpair. apply returns_bind. eapply returns_mono.
  { by apply allpair_scores_tie. }
  intros scored w' [Hid Hsc]. unfold returns. rewrite sorted_score.
  2:{ intros d Hd. rewrite Forall_forall in Hsc. rewrite (Hsc d Hd).
      by eexists. }
  eexists _, _. split; [done|].
  rewrite sort_pure_id, reverse_involutive; [done|].
  intros x y Hx Hy. rewrite elem_of_reverse in Hx, Hy.
  rewrite Forall_forall in Hsc. unfold score_lt, score_of.
  rewrite (Hsc x Hx), (Hsc y Hy). simpl.
  apply bool_decide_eq_false, (irreflexivity Qclt).
Qed.

Lemma sorting_tie (documents : list Doc) w :
  returns (sorting model_obj prompt_template query documents) w
    (λ out _, out = documents).
Proof.
  unfold returns. rewrite sorting_list_sort.
  eapply returns_mono.
  - apply (list_sort_run _ (λ _ _, false)).
    induction documents as [|x l IH]; [done|]. split; [|done].
    intros y w' _. eapply returns_mono.
    + apply key_lt_returns, model_ties.
    + by intros r _ (d & -> & ->).
  - intros out _ ->. by apply sort_pure_id.
Qed.

Lemma sliding_step_tie (i : nat) l w :
  (i + 1 < length l)%nat →
  returns (sliding_step model_obj prompt_template query i l) w
    (λ l' _, l' = l).
Proof.
  intros Hi.
  destruct (lookup_lt_is_Some_2 l i) as [a Ha]; [lia|].
  destruct (lookup_lt_is_Some_2 l (i + 1)) as [b Hb]; [lia|].
  destruct (sliding_step_spec model_obj prompt_template query i l a b w
              Ha Hb) as (d & w' & Hd & Hs).
  destruct (model_ties (content a) (content b) w) as (d' & w'' & Hd' & ->).
  rewrite Hd in Hd'. injection Hd' as -> <-.
  eexists _, _. split; [exact Hs|]. done.
Qed.

Lemma sliding_tie (top_k : Z) (documents : list Doc) w :
  returns (sliding model_obj prompt_template query top_k documents) w
    (λ out _, out = documents).
Proof.
  eapply returns_mono.
  - apply (sliding_run model_obj prompt_template query top_k
             (λ _ _, false) (λ _, True)); [|done..].
    intros l i a b w' _ _ _. eapply returns_mono; [apply model_ties|].
    by intros d _ ->.
  - intros out _ ->. by apply iter_bubble_id.
Qed.

End AlwaysTie.

(** C9. When the comparator returns Tie for every pair, the three
    strategies return the units in the order of the input: the all-pairs
    strategy with the score [(n - 1) * 0.5] on every unit, the sorting
    strategy and the sliding window the very list they were given; and no
    step of a sliding pass swaps. *)
Theorem all_tie_keeps_order {St} (model_obj : Model St)
    (prompt_template : Template) (query : string) (top_k : Z)
    (documents : list Doc) (w : World St) :
  always_tie model_obj prompt_template query →
  let n := length documents in
  returns (allpair model_obj prompt_template query documents) w
    (λ out _,
       identity <$> out = identity <$> documents
       ∧ Forall (λ d, score d
                      = Some (Q2Qc (1 # 2) * Qc_of_Z (Z.of_nat (n - 1)))%Qc)
                out)
  ∧ returns (sorting model_obj prompt_template query documents) w
      (λ out _, out = documents)
  ∧ returns (sliding model_obj prompt_template query top_k documents) w
      (λ out _, out = documents)
  ∧ ∀ (i : nat) (l : list Doc) (w' : World St),
      (i + 1 < length l)%nat →
      returns (sliding_step model_obj prompt_template query i l) w'
        (λ l' _, l' = l).
Proof.
  intros Htie n. split_and!.
  - by apply allpair_tie.
  - by apply sorting_tie.
  - by apply sliding_tie.
  - intros. by apply sliding_step_tie.
Qed.

(** ** The scenario of the specification: cat, dog, monkey *)

Ltac pick_pet H :=
  repeat (apply elem_of_cons in H as [->|H]); [..|by apply elem_of_nil in H].

Lemma pets_nodup : NoDup pets.
Proof. apply (bool_decide_unpack _). by vm_compute. Qed.

Lemma pets_order :
  strict_total_on (ranked_before ["monkey"; "dog"; "cat"]) pets.
Proof.
  split.
  - intros a Ha. pick_pet Ha; by vm_compute.
  - intros a b c Ha Hb Hc. pick_pet Ha; pick_pet Hb; pick_pet Hc;
      by vm_compute.
  - intros a b Ha Hb Hab. pick_pet Ha; pick_pet Hb; try done;
      vm_compute; auto.
Qed.

Lemma pets_encoded :
  encodes_order
    (ranking_model DEFAULT_PAIRWISE_PROMPT pet_query ["monkey"; "dog"; "cat"])
    DEFAULT_PAIRWISE_PROMPT pet_query
    (ranked_before ["monkey"; "dog"; "cat"]) pets.
Proof.
  intros a b [[] t] Ha Hb Hab.
  pick_pet Ha; pick_pet Hb; try done;
    (eexists _, _; split; [by vm_compute|by vm_compute]).
Qed.

Lemma undecided_ties (prompt_template : Template) (query : string) :
  always_tie undecided_model prompt_template query.
Proof.
  intros a b [[] t]. eexists _, _. split; [by vm_compute|by vm_compute].
Qed.

(** The outputs the specification expects of the three strategies. *)
Example pets_ranked :
  let model :=
    ranking_model DEFAULT_PAIRWISE_PROMPT pet_query ["monkey"; "dog"; "cat"] in
  let input := [["cat" +:+ Str.chr 10; "dog" +:+ Str.chr 10; "monkey"]] in
  let ranked := Some (Stdout ["monkey"; "dog"; "cat"]) in
  fst <$> sort model pet_query "sorting" 0 None input fresh = ranked
  ∧ fst <$> sort model pet_query "sliding" 0 None input fresh = ranked
  ∧ fst <$> sort model pet_query "allpair" 0 None input fresh = ranked
  ∧ fst <$> sort model pet_query "sliding" 2 None input fresh
    = Some (Stdout ["monkey"; "dog"])
  ∧ fst <$> sort model pet_query "shuffle" 0 None input fresh
    = Some (Stderr "Invalid sorting method specified.")
  ∧ fst <$> sort model pet_query "sorting" 0 None [[Str.chr 10]] fresh
    = Some (Stderr "No input lines provided.").
Proof. by vm_compute. Qed.

(** A model that always names the first line is taken for undecided. *)
Example position_bias_ties (a b : string) :
  fst <$> pairwise_decision first_line_model DEFAULT_PAIRWISE_PROMPT
            pet_query a b fresh = Some Tie.
Proof. by vm_compute. Qed.

(** The sorting strategy on the three pets. *)
Lemma sorting_total_order_pets :
  returns
    (sorting
       (ranking_model DEFAULT_PAIRWISE_PROMPT pet_query
          ["monkey"; "dog"; "cat"])
       DEFAULT_PAIRWISE_PROMPT pet_query pets) fresh
    (λ out _,
       out ≡ₚ pets
       ∧ StronglySorted
           (λ a b, ranked_before ["monkey"; "dog"; "cat"] a b = true) out
       ∧ ∀ l, l ≡ₚ pets →
              StronglySorted
                (λ a b, ranked_before ["monkey"; "dog"; "cat"] a b = true) l →
              out = l).
Proof.
  apply sorting_total_order;
    [exact pets_nodup|exact pets_order|exact pets_encoded].
Defined.

(** The sliding window on the three pets, with two passes. *)
Lemma sliding_total_order_pets :
  returns
    (sliding
       (ranking_model DEFAULT_PAIRWISE_PROMPT pet_query
          ["monkey"; "dog"; "cat"])
       DEFAULT_PAIRWISE_PROMPT pet_query 2 pets) fresh
    (λ out _,
       out ≡ₚ pets
       ∧ StronglySorted
           (λ a b, ranked_before ["monkey"; "dog"; "cat"] a b = true) out
       ∧ ∀ l, l ≡ₚ pets →
              StronglySorted
                (λ a b, ranked_before ["monkey"; "dog"; "cat"] a b = true) l →
              out = l).
Proof.
  apply sliding_total_order;
    [exact pets_nodup|exact pets_order|exact pets_encoded|vm_compute; lia].
Defined.

(** The three strategies on the three pets, with a model that never
    decides. *)
Lemma all_tie_keeps_order_pets :
  returns (allpair undecided_model DEFAULT_PAIRWISE_PROMPT pet_query pets)
    fresh
    (λ out _,
       identity <$> out = identity <$> pets
       ∧ Forall (λ d, score d
                      = Some (Q2Qc (1 # 2) * Qc_of_Z (Z.of_nat (3 - 1)))%Qc)
                out)
  ∧ returns (sorting undecided_model DEFAULT_PAIRWISE_PROMPT pet_query pets)
      fresh (λ out _, out = pets)
  ∧ returns (sliding undecided_model DEFAULT_PAIRWISE_PROMPT pet_query 0 pets)
      fresh (λ out _, out = pets)
  ∧ ∀ (i : nat) (l : list Doc) (w' : World unit),
      (i + 1 < length l)%nat →
      returns (sliding_step undecided_model DEFAULT_PAIRWISE_PROMPT
                 pet_query i l) w'
        (λ l' _, l' = l).
Proof.
  apply (all_tie_keeps_order undecided_model DEFAULT_PAIRWISE_PROMPT
           pet_query 0 pets fresh).
  apply undecided_ties.
Defined.

(** * Further properties of the program *)

(** ** The units that are read *)

Section Lines.

Import Str StrFacts.
Local Arguments String.append !_ _ / : simpl nomatch.


(** What [rstrip] leaves does not end in a character it strips. *)
Lemma rstrip_with_last p (s t : string) (c : ascii) :
  rstrip_with p s = t +:+ String c "" → p c = false.
Proof.
  revert t. induction s as [|c0 s IH]; intros t; simpl.
  - by destruct t.
  - destruct (rstrip_with p s) as [|d r] eqn:Hr.
    + destruct (p c0) eqn:Hc0; [by destruct t|].
      destruct t as [|c1 t]; simpl; [congruence|]. by destruct t.
    + destruct t as [|c1 t]; simpl; [done|].
      intros [= _ H]. by apply (IH t).
Qed.




Lemma retained_elem (lines : list string) (c : string) :
  c ∈ retained lines →
  c ≠ EmptyString ∧ ∃ line, line ∈ lines ∧ c = rstrip line (chr 10).
Proof.
  unfold retained. rewrite list_elem_of_filter, list_elem_of_fmap.
  intros [Hc (line & -> & Hl)]. eauto.
Qed.

End Lines.

Lemma read_documents_contents (files : list (list string)) :
  content <$> read_documents files = retained (concat files).
Proof. by rewrite read_documents_number, number_content. Qed.

Lemma read_documents_nil (files : list (list string)) :
  read_documents files = [] ↔ retained (concat files) = [].
Proof.
  rewrite <- read_documents_contents. split; [by intros ->|].
  by intros ?%fmap_nil_inv.
Qed.

Lemma read_documents_NoDup (files : list (list string)) :
  NoDup (read_documents files).
Proof.
  apply (NoDup_fmap_1 id).
  rewrite read_documents_number, number_id.
  apply NoDup_fmap_2; [|apply NoDup_seq]. intros m n. apply str_inj.
Qed.

(** X1. The units that are read are pairwise distinct, whatever the
    lines: no two have the same id, even when their lines are the same.
    None has a score yet, and the content of none is empty or ends in a
    newline. *)
Theorem read_documents_distinct (files : list (list string)) :
  let documents := read_documents files in
  NoDup (id <$> documents)
  ∧ NoDup documents
  ∧ ∀ d, d ∈ documents →
      score d = None
      ∧ content d ≠ EmptyString
      ∧ ∀ s, content d ≠ s +:+ Str.chr 10.
Proof.
  cbv zeta. split_and!.
  - rewrite read_documents_number, number_id.
    apply NoDup_fmap_2; [|apply NoDup_seq]. intros m n. apply str_inj.
  - apply read_documents_NoDup.
  - intros d Hd.
    assert (content d ∈ retained (concat files)) as Hc.
    { rewrite <- read_documents_contents. by apply list_elem_of_fmap_2. }
    apply retained_elem in Hc as (Hne & line & _ & Hline).
    split_and!; [|done|].
    + rewrite read_documents_number in Hd. by eapply number_score.
    + intros s Hs. rewrite Hs in Hline. symmetry in Hline.
      apply rstrip_with_last in Hline. by vm_compute in Hline.
Qed.

(** ** Reading back what was written *)


(** A carriage return that standard input let through does not survive
    the way back through a file. *)
Example carriage_return_not_read_back :
  let documents :=
    read_documents
      [stdin_lines false ("a" +:+ Str.chr 13 +:+ "b" +:+ Str.chr 10)] in
  let written := written_text (echo <$> (content <$> documents)) in
  content <$> documents = ["a" +:+ Str.chr 13 +:+ "b"]
  ∧ content <$> read_documents [stdin_lines false written]
    = ["a" +:+ Str.chr 13 +:+ "b"]
  ∧ content <$> read_documents [file_lines written] = ["a"; "b"].
Proof. by vm_compute. Qed.

(** ** The default prompt *)

Section DefaultPrompt.

Import Str StrFacts.
Local Arguments String.append !_ _ / : simpl nomatch.

Lemma append_inv_head (s x y : string) : s +:+ x = s +:+ y → x = y.
Proof. induction s as [|c s IH]; simpl; [done|]. intros [= H]. auto. Qed.

Lemma append_length (s t : string) :
  String.length (s +:+ t) = (String.length s + String.length t)%nat.
Proof. induction s as [|c s IH]; simpl; [done|]. by rewrite IH. Qed.

Lemma append_inv_tail (x y t : string) : x +:+ t = y +:+ t → x = y.
Proof.
  revert y. induction x as [|c x IH]; intros [|d y] H; simpl in H.
  - done.
  - apply (f_equal String.length) in H. simpl in H.
    rewrite append_length in H. lia.
  - apply (f_equal String.length) in H. simpl in H.
    rewrite append_length in H. lia.
  - injection H as -> H. f_equal. by apply IH.
Qed.

(** Two texts without a newline that are followed by a newline end at the
    same place. *)
Lemma append_newline_inv (a a' x y : string) :
  newline ∉ list_ascii_of_string a → newline ∉ list_ascii_of_string a' →
  a +:+ String newline x = a' +:+ String newline y → a = a' ∧ x = y.
Proof.
  revert a'. induction a as [|c a IH]; intros [|c' a'] Ha Ha' H;
    simpl in *.
  - by injection H.
  - injection H as <- _. exfalso. apply Ha'. by left.
  - injection H as -> _. exfalso. apply Ha. by left.
  - injection H as -> H. rewrite not_elem_of_cons in Ha, Ha'.
    destruct (IH a') as [-> ->]; [tauto..|done|done].
Qed.

(** X3. The default prompt tells the two lines apart: with one query, two
    prompts are the same only when they present the same first line and
    the same second line, as long as the first lines hold no newline,
    which no line of a text file does. *)
Theorem default_prompt_injective (query a b a' b' : string) :
  newline ∉ list_ascii_of_string a →
  newline ∉ list_ascii_of_string a' →
  DEFAULT_PAIRWISE_PROMPT query a b = DEFAULT_PAIRWISE_PROMPT query a' b' →
  a = a' ∧ b = b'.
Proof.
  intros Ha Ha' H. unfold DEFAULT_PAIRWISE_PROMPT, chr in H.
  cbn [String.append] in H. injection H as H.
  apply append_inv_head in H. injection H as H.
  change (ascii_of_nat 10) with newline in H.
  apply append_newline_inv in H as [-> H]; [|done..].
  split; [done|]. injection H as H. by apply append_inv_tail in H.
Qed.

End DefaultPrompt.

(** ** The comparator, with a model whose answers depend on the prompt alone *)

Section Antisymmetric.

Context {St : Type}.
Variable model_obj : Model St.
Variable prompt_template : Template.
Hypothesis model_deterministic : deterministic model_obj.
Implicit Types w : World St.

(** The decision, as a function of the two answers. *)
Let verdict_of (r1 r2 : string) : Z :=
  if Str.startswith (Str.lower (Str.strip r1)) "line a"
     && Str.startswith (Str.lower (Str.strip r2)) "line b"
  then 1
  else if Str.startswith (Str.lower (Str.strip r1)) "line b"
          && Str.startswith (Str.lower (Str.strip r2)) "line a"
  then -1
  else 0.

Lemma verdict_of_swap (r1 r2 : string) :
  verdict_of r2 r1 = - verdict_of r1 r2.
Proof.
  unfold verdict_of.
  pose proof (StrFacts.startswith_exclusive (Str.lower (Str.strip r1))) as X1.
  pose proof (StrFacts.startswith_exclusive (Str.lower (Str.strip r2))) as X2.
  destruct (Str.startswith (Str.lower (Str.strip r1)) "line a"),
           (Str.startswith (Str.lower (Str.strip r1)) "line b"),
           (Str.startswith (Str.lower (Str.strip r2)) "line a"),
           (Str.startswith (Str.lower (Str.strip r2)) "line b");
    simpl; try done; exfalso; auto.
Qed.

(** With such a model the decision is a function of the two answers it
    gives to the two prompts, in whatever state it is asked. *)
Lemma pairwise_decision_verdict (query a b : string) w :
  fst <$> pairwise_decision model_obj prompt_template query a b w
  = Some (verdict_of
            (model_obj (prompt_template query a b) (oracle_state w)).1
            (model_obj (prompt_template query b a) (oracle_state w)).1).
Proof.
  unfold pairwise_decision, bind, ask.
  destruct (model_obj (prompt_template query a b) (oracle_state w))
    as [r1 s1] eqn:E1. simpl.
  pose proof (model_deterministic (prompt_template query b a) s1
                (oracle_state w)) as E2.
  destruct (model_obj (prompt_template query b a) s1) as [r2 s2]. simpl in *.
  rewrite <- E2. unfold verdict_of.
  destruct (_ && _); [done|]. by destruct (_ && _).
Qed.

Lemma pairwise_decision_swap (query a b : string) w w' :
  ∃ d, (d = First ∨ d = Second ∨ d = Tie)
       ∧ fst <$> pairwise_decision model_obj prompt_template query a b w
         = Some d
       ∧ fst <$> pairwise_decision model_obj prompt_template query b a w'
         = Some (- d).
Proof.
  rewrite !pairwise_decision_verdict.
  rewrite (model_deterministic (prompt_template query b a) (oracle_state w')
             (oracle_state w)).
  rewrite (model_deterministic (prompt_template query a b) (oracle_state w')
             (oracle_state w)).
  eexists. split_and!; [|done|by rewrite verdict_of_swap].
  unfold verdict_of, First, Second, Tie.
  destruct (_ && _); [auto|]. destruct (_ && _); auto.
Qed.

Lemma compare_docs_negates (query : string) (a b : Doc) (d : Z) w :
  d = First ∨ d = Second ∨ d = Tie →
  fst <$> pairwise_decision model_obj prompt_template query
            (content a) (content b) w = Some d →
  fst <$> compare_docs model_obj prompt_template query a b w = Some (- d).
Proof.
  intros Hd Hpd. unfold compare_docs, bind.
  destruct (pairwise_decision _ _ _ _ _ w) as [[d' w']|]; [|done].
  simpl in Hpd. injection Hpd as ->.
  by destruct Hd as [-> | [-> | ->]].
Qed.

End Antisymmetric.

(** X4. With a model whose answer depends on the prompt alone, the
    comparator is antisymmetric: asked about (b, a), in whatever world, it
    decides the opposite of what it decides about (a, b), and so does
    [compare_docs]; two units with the same content tie. *)
Theorem pairwise_decision_antisymmetric {St} (model_obj : Model St)
    (prompt_template : Template) (query : string) (a b : Doc)
    (w w' : World St) :
  deterministic model_obj →
  ∃ d,
    (d = First ∨ d = Second ∨ d = Tie)
    ∧ fst <$> pairwise_decision model_obj prompt_template query
                (content a) (content b) w = Some d
    ∧ fst <$> pairwise_decision model_obj prompt_template query
                (content b) (content a) w' = Some (- d)
    ∧ fst <$> compare_docs model_obj prompt_template query a b w
      = Some (- d)
    ∧ fst <$> compare_docs model_obj prompt_template query b a w' = Some d
    ∧ (content a = content b → d = Tie).
Proof.
  intros Hdet.
  destruct (pairwise_decision_swap model_obj prompt_template Hdet query
              (content a) (content b) w w') as (d & Hd & Hab & Hba).
  exists d. split_and!; [done..| | |].
  - by apply compare_docs_negates.
  - replace d with (- - d) at 1 by lia. apply compare_docs_negates; [|done].
    unfold First, Second, Tie in *. lia.
  - intros Heq. rewrite Heq in Hab.
    destruct (pairwise_decision_swap model_obj prompt_template Hdet query
                (content b) (content b) w w) as (d' & _ & H1 & H2).
    rewrite H1 in H2, Hab. unfold Tie. simplify_eq. lia.
Qed.

(** ** All pairs: the points of each unit *)

Section Points.

Lemma sum_list_app (l1 l2 : list nat) :
  sum_list (l1 ++ l2) = (sum_list l1 + sum_list l2)%nat.
Proof. induction l1 as [|x l1 IH]; simpl; [done|]. rewrite IH. lia. Qed.

Lemma pair_points_row dec (k a b len : nat) :
  (a < b)%nat →
  sum_list (pair_points dec k <$> (pair a <$> seq b len))
  = if decide (a = k) then sum_list (opponent_points dec k <$> seq b len)
    else if decide (b ≤ k < b + len)%nat then opponent_points dec k a
    else 0%nat.
Proof.
  intros Hab. revert b Hab. induction len as [|len IH]; intros b Hab.
  - simpl. repeat case_decide; try done; lia.
  - cbn [seq]. rewrite !fmap_cons. cbn [sum_list foldr].
    change (foldr Nat.add 0%nat ?l) with (sum_list l).
    rewrite (IH (S b)) by lia.
    unfold pair_points, opponent_points. simpl.
    repeat case_decide; simplify_eq; lia.
Qed.

Lemma pair_points_from dec (k N a m : nat) :
  N = (a + m)%nat → (k < N)%nat →
  sum_list (pair_points dec k
              <$> (seq a m ≫= λ i, pair i <$> range (i + 1) N))
  = if decide (k < a)%nat then 0%nat
    else sum_list (opponent_points dec k <$> seq a m).
Proof.
  revert a. induction m as [|m IH]; intros a HN Hk.
  - simpl. case_decide; [done|lia].
  - cbn [seq]. rewrite bind_cons, fmap_app, sum_list_app, (IH (S a)) by lia.
    unfold range. rewrite (pair_points_row dec k a (a + 1)) by lia.
    rewrite fmap_cons. cbn [sum_list foldr].
    change (foldr Nat.add 0%nat ?l) with (sum_list l).
    replace (N - (a + 1))%nat with m by lia.
    replace (a + 1)%nat with (S a) by lia.
    assert (opponent_points dec k k = 0%nat) as Hkk.
    { unfold opponent_points. by rewrite decide_True. }
    repeat case_decide; simplify_eq; rewrite ?Hkk; simpl; lia.
Qed.

(** Over all the pairs, the unit at [k] has met every other unit once. *)
Lemma pair_points_index_pairs dec (k n : nat) :
  (k < n)%nat →
  sum_list (pair_points dec k <$> index_pairs n)
  = sum_list (opponent_points dec k <$> seq 0 n).
Proof.
  intros Hk. unfold index_pairs.
  replace (range 0 n) with (seq 0 n) by (unfold range; f_equal; lia).
  rewrite (pair_points_from dec k n 0 n) by done. by case_decide; [lia|].
Qed.

End Points.

Section AllpairPoints.

Context {St : Type}.
Variable model_obj : Model St.
Variable prompt_template : Template.
Implicit Types (w : World St) (l : list Doc).

Lemma half_points_add (m h : nat) (x : Qc) :
  x = (Q2Qc (1 # 2) * Qc_of_Z (Z.of_nat h))%Qc →
  (Q2Qc (1 # 2) * Qc_of_Z (Z.of_nat m) + x
   = Q2Qc (1 # 2) * Qc_of_Z (Z.of_nat (m + h)))%Qc.
Proof. intros ->. rewrite Nat2Z.inj_add, Z2Qc_inj_add. ring. Qed.

Lemma half_double (m : nat) :
  (Q2Qc (1 # 2) * Qc_of_Z (Z.of_nat (2 * m)) = Qc_of_Z (Z.of_nat m))%Qc.
Proof.
  rewrite Nat2Z.inj_mul, Z2Qc_inj_mul. change (Z.of_nat 2) with 2%Z.
  rewrite Qcmult_assoc.
  replace (Q2Qc (1 # 2) * Qc_of_Z 2)%Qc with 1%Qc by by apply Qc_is_canon.
  ring.
Qed.

Lemma half_points_one :
  (1 = Q2Qc (1 # 2) * Qc_of_Z (Z.of_nat 2))%Qc.
Proof. by apply Qc_is_canon. Qed.

Lemma half_points_half :
  (Q2Qc (1 # 2) = Q2Qc (1 # 2) * Qc_of_Z (Z.of_nat 1))%Qc.
Proof. by apply Qc_is_canon. Qed.

Lemma pair_points_eq (dec : nat → nat → Z) (k i j : nat) :
  pair_points dec k (i, j)
  = ((if decide (i = k) then half_points true (dec i j) else 0)
     + (if decide (j = k) then half_points false (dec i j) else 0))%nat.
Proof. done. Qed.

(** A comparison whose decision is [dec i j] keeps the account of the
    points. *)
Lemma allpair_pair_points (query : string) (documents : list Doc)
    (dec : nat → nat → Z) (visited : list (nat * nat)) (i j : nat) l w :
  (∀ a b w', documents !! i = Some a → documents !! j = Some b →
     returns (pairwise_decision model_obj prompt_template query
                (content a) (content b)) w' (λ d _, d = dec i j)) →
  (i < j < length documents)%nat →
  points_inv documents dec visited l w →
  returns (allpair_pair model_obj prompt_template query i j l) w
    (points_inv documents dec (visited ++ [(i, j)])).
Proof.
  intros Hdec Hij [Hid Hsc].
  assert (length l = length documents) as Hlen.
  { by rewrite <- (length_fmap identity l), Hid, length_fmap. }
  destruct (lookup_lt_is_Some_2 l i) as [di Hdi]; [lia|].
  destruct (lookup_lt_is_Some_2 l j) as [dj Hdj]; [lia|].
  destruct (identity_lookup _ _ _ _ Hid Hdi) as (a & Ha & [= _ Hca]).
  destruct (identity_lookup _ _ _ _ Hid Hdj) as (b & Hb & [= _ Hcb]).
  destruct (allpair_pair_exact model_obj prompt_template query i j l di dj
              _ _ w ltac:(lia) Hdi Hdj (Hsc _ _ Hdi) (Hsc _ _ Hdj))
    as (d & w' & Hpd & Hrun).
  destruct (Hdec a b w Ha Hb) as (d' & w'' & Hpd' & Hd').
  rewrite Hca, Hcb, Hpd in Hpd'. injection Hpd' as <- <-. subst d.
  eexists _, _. split; [exact Hrun|]. clear Hrun Hpd. split.
  - assert (∀ (k : nat) (x : Qc) (dk : Doc) l', 
              l' !! k = Some dk → identity <$> l' = identity <$> documents →
              identity <$> <[k := set_score x dk]> l'
              = identity <$> documents) as Hins.
    { intros k x dk l' Hdk Hl'. rewrite list_fmap_insert, <- Hl'.
      apply list_insert_id. by rewrite list_lookup_fmap, Hdk. }
    destruct (dec i j =? 1); [by apply Hins|].
    destruct (dec i j =? -1); [by apply Hins|].
    apply Hins; [by rewrite list_lookup_insert_ne by lia|by apply Hins].
  - intros k d0 Hd0. rewrite fmap_app, sum_list_app.
    replace (sum_list (pair_points dec k <$> [(i, j)]))
      with (pair_points dec k (i, j)) by (simpl; lia).
    rewrite pair_points_eq. unfold half_points.
    destruct (dec i j =? 1); [|destruct (dec i j =? -1)].
    + destruct (decide (k = i)) as [->|Hki].
      * rewrite list_lookup_insert_eq in Hd0 by lia. injection Hd0 as <-.
        rewrite decide_True, decide_False by lia. simpl. f_equal.
        rewrite ?Nat.add_0_r. apply half_points_add, half_points_one.
      * rewrite list_lookup_insert_ne in Hd0 by done.
        rewrite (Hsc k d0 Hd0), decide_False by done.
        case_decide; do 4 f_equal; lia.
    + destruct (decide (k = j)) as [->|Hkj].
      * rewrite list_lookup_insert_eq in Hd0 by lia. injection Hd0 as <-.
        rewrite decide_False, decide_True by lia. simpl. f_equal.
        apply half_points_add, half_points_one.
      * rewrite list_lookup_insert_ne in Hd0 by done.
        rewrite (Hsc k d0 Hd0), (decide_False (P := j = k)) by done.
        case_decide; do 4 f_equal; lia.
    + destruct (decide (k = j)) as [->|Hkj].
      * rewrite list_lookup_insert_eq in Hd0 by (rewrite length_insert; lia).
        injection Hd0 as <-.
        rewrite decide_False, decide_True by lia. simpl. f_equal.
        apply half_points_add, half_points_half.
      * rewrite list_lookup_insert_ne in Hd0 by done.
        destruct (decide (k = i)) as [->|Hki].
        -- rewrite list_lookup_insert_eq in Hd0 by lia. injection Hd0 as <-.
           rewrite decide_True, decide_False by lia. simpl. f_equal.
           rewrite ?Nat.add_0_r. apply half_points_add, half_points_half.
        -- rewrite list_lookup_insert_ne in Hd0 by done.
           rewrite (Hsc k d0 Hd0), !decide_False by done.
           do 4 f_equal; lia.
Qed.

(** When [dec i j] is the decision for the units at [i < j], whatever the
    world, the unit at [k] leaves the scoring loops with the half points of
    its comparisons with every other unit. *)
Lemma allpair_scores_points (query : string) (documents : list Doc)
    (dec : nat → nat → Z) w :
  (∀ i j a b w', (i < j)%nat →
     documents !! i = Some a → documents !! j = Some b →
     returns (pairwise_decision model_obj prompt_template query
                (content a) (content b)) w' (λ d _, d = dec i j)) →
  returns (allpair_scores model_obj prompt_template query documents) w
    (λ scored _,
       identity <$> scored = identity <$> documents
       ∧ ∀ (k : nat) (d : Doc), scored !! k = Some d →
           score d
           = Some (Q2Qc (1 # 2)
                   * Qc_of_Z (Z.of_nat
                       (sum_list (opponent_points dec k
                                    <$> seq 0 (length documents)))))%Qc).
Proof.
  intros Hdec. eapply returns_mono.
  - apply (allpair_scores_loop model_obj prompt_template query documents w
             (points_inv documents dec)).
    + split.
      * rewrite <- list_fmap_compose. by apply list_fmap_ext.
      * intros k d Hd. rewrite list_lookup_fmap in Hd.
        destruct (documents !! k); [|done]. injection Hd as <-. simpl.
        f_equal. by apply Qc_is_canon.
    + intros visited i j l w' Hij HI. apply allpair_pair_points; [|done..].
      intros a b w''. apply Hdec. lia.
  - intros scored w' [Hid Hsc]. split; [done|]. intros k d Hd.
    rewrite (Hsc k d Hd), pair_points_index_pairs; [done|].
    apply lookup_lt_Some in Hd.
    by rewrite <- (length_fmap identity scored), Hid, length_fmap in Hd.
Qed.

End AllpairPoints.

Lemma sum_list_imap_delete {A} (f : A → nat) (k : nat) (l : list A) :
  sum_list (imap (λ j c, if decide (j = k) then 0%nat else f c) l)
  = sum_list (f <$> delete k l).
Proof.
  revert k. induction l as [|x l IH]; intros k; [done|].
  rewrite imap_cons. destruct k as [|k]; simpl.
  - f_equal. rewrite (imap_ext _ (const f)) by done. by rewrite imap_const.
  - f_equal. rewrite <- IH. f_equal. apply imap_ext. intros j c _. simpl.
    repeat case_decide; (done || lia).
Qed.

Section AllpairVerdict.

Context {St : Type}.
Variable model_obj : Model St.
Variable prompt_template : Template.
Variable query : string.
Hypothesis model_deterministic : deterministic model_obj.
Implicit Types (w : World St) (l : list Doc).

Local Abbreviation verdict' := (verdict model_obj prompt_template query).

Lemma verdict_returns (a b : string) w w' :
  returns (pairwise_decision model_obj prompt_template query a b) w'
    (λ d _, d = verdict' w a b).
Proof.
  destruct (pairwise_decision_returns model_obj prompt_template query a b w')
    as (d & w'' & Hd & _).
  exists d, w''. split; [done|]. unfold verdict.
  pose proof (pv_pairwise_decision model_obj prompt_template
                model_deterministic query a b w w') as Hpv.
  rewrite Hd in Hpv.
  by destruct (pairwise_decision _ _ _ _ _ w) as [[d' ?]|]; simplify_eq/=.
Qed.

Lemma verdict_swap (a b : string) w :
  (verdict' w a b = First ∨ verdict' w a b = Second ∨ verdict' w a b = Tie)
  ∧ verdict' w b a = - verdict' w a b.
Proof.
  destruct (pairwise_decision_swap model_obj prompt_template
              model_deterministic query a b w w) as (d & Hd & Hab & Hba).
  unfold verdict.
  destruct (pairwise_decision _ _ _ a b w) as [[d1 ?]|]; [|done].
  destruct (pairwise_decision _ _ _ b a w) as [[d2 ?]|]; [|done].
  by simplify_eq/=.
Qed.

Lemma half_points_verdict (d : Z) :
  d = First ∨ d = Second ∨ d = Tie →
  half_points false (- d) = half_points true d
  ∧ half_points true d
    = ((if bool_decide (d = First) then 2 else 0)
       + (if bool_decide (d = Tie) then 1 else 0))%nat.
Proof. by intros [-> | [-> | ->]]. Qed.

Lemma sum_half_points (vs : list Z) :
  Forall (λ v, v = First ∨ v = Second ∨ v = Tie) vs →
  sum_list (half_points true <$> vs)
  = (2 * length (filter (λ v, v = First) vs)
     + length (filter (λ v, v = Tie) vs))%nat.
Proof.
  induction 1 as [|v vs Hv Hvs IH]; [done|].
  rewrite fmap_cons, !filter_cons. simpl. rewrite IH.
  destruct Hv as [-> | [-> | ->]]; simpl; lia.
Qed.

(** With a model whose answers depend on the prompt alone, the unit at
    [k] leaves the scoring loops with the half points of its verdicts
    against the other units. *)
Lemma allpair_scores_verdicts (documents : list Doc) w :
  returns (allpair_scores model_obj prompt_template query documents) w
    (λ scored _,
       identity <$> scored = identity <$> documents
       ∧ ∀ (k : nat) (d : Doc), scored !! k = Some d →
           score d
           = Some (Q2Qc (1 # 2)
                   * Qc_of_Z (Z.of_nat
                       (sum_list
                          (half_points true
                             <$> (verdict' w (content d)
                                    <$> delete k (content <$> documents))))))%Qc).
Proof.
  set (c := λ i : nat, from_option content EmptyString (documents !! i)).
  set (dec := λ i j : nat, verdict' w (c i) (c j)).
  eapply returns_mono.
  - apply (allpair_scores_points model_obj prompt_template query documents
             dec).
    intros i j a b w' Hij Ha Hb. eapply returns_mono.
    + apply (verdict_returns _ _ w w').
    + intros d w'' ->. unfold dec, c. by rewrite Ha, Hb.
  - intros scored w' [Hid Hsc]. split; [done|]. intros k d Hd.
    rewrite (Hsc k d Hd). do 4 f_equal.
    destruct (identity_lookup _ _ _ _ Hid Hd) as (a & Ha & [= _ Hca]).
    rewrite <- list_fmap_compose, <- sum_list_imap_delete.
    rewrite <- (length_fmap content), <- imap_seq_0. f_equal.
    apply imap_ext. intros j cj Hj. simpl.
    rewrite list_lookup_fmap in Hj.
    destruct (documents !! j) as [b|] eqn:Hb; [|done]. injection Hj as <-.
    unfold opponent_points. case_decide; [done|].
    unfold dec, c. rewrite Ha, Hb. simpl. rewrite Hca.
    case_decide; [done|].
    destruct (verdict_swap (content d) (content b) w) as [Hv ->].
    by apply half_points_verdict.
Qed.

End AllpairVerdict.

(** X5. With a model whose answer depends on the prompt alone, the
    scoring loops of the all-pairs strategy give every unit one point for
    each other unit it wins against and half a point for each other unit
    it ties with, where the verdict on two contents is what the comparator
    decides when the first is presented as line A. *)
Theorem allpair_scores_wins_and_ties {St} (model_obj : Model St)
    (prompt_template : Template) (query : string) (documents : list Doc)
    (w : World St) :
  deterministic model_obj →
  returns (allpair_scores model_obj prompt_template query documents) w
    (λ scored _,
       identity <$> scored = identity <$> documents
       ∧ ∀ (k : nat) (d : Doc), scored !! k = Some d →
           let others := delete k (content <$> documents) in
           let verdicts :=
             verdict model_obj prompt_template query w (content d)
               <$> others in
           let won := length (filter (λ v, v = First) verdicts) in
           let tied := length (filter (λ v, v = Tie) verdicts) in
           score d
           = Some (Qc_of_Z (Z.of_nat won)
                   + Q2Qc (1 # 2) * Qc_of_Z (Z.of_nat tied))%Qc).
Proof.
  intros Hdet. eapply returns_mono.
  - by apply allpair_scores_verdicts.
  - intros scored w' [Hid Hsc]. split; [done|]. intros k d Hd. cbv zeta.
    rewrite (Hsc k d Hd). f_equal. rewrite sum_half_points.
    + rewrite Nat2Z.inj_add, Z2Qc_inj_add, Qcmult_plus_distr_r.
      by rewrite half_double.
    + apply Forall_fmap, Forall_true. intros c.
      by destruct (verdict_swap model_obj prompt_template query Hdet
                     (content d) c w) as [? _].
Qed.

(** ** All pairs, with a model that encodes a strict total order *)

Section Counting.

Context {A : Type}.

Lemma sum_list_indicator (P : A → bool) (h : nat) (l : list A) :
  sum_list ((λ y, if P y then h else 0%nat) <$> l)
  = (h * length (filter (λ y, P y = true) l))%nat.
Proof.
  induction l as [|x l IH]; [simpl; lia|].
  rewrite fmap_cons, filter_cons. simpl. rewrite IH.
  destruct (P x); simpl; lia.
Qed.

Lemma filter_all (P : A → Prop) `{!∀ x, Decision (P x)} (l : list A) :
  Forall P l → filter P l = l.
Proof.
  induction 1 as [|x l Hx Hl IH]; [done|].
  by rewrite filter_cons_True, IH.
Qed.

Lemma length_filter_le (P Q : A → Prop) `{!∀ x, Decision (P x)}
    `{!∀ x, Decision (Q x)} (l : list A) :
  (∀ y, y ∈ l → P y → Q y) →
  (length (filter P l) ≤ length (filter Q l))%nat.
Proof.
  induction l as [|y l IH]; intros HPQ; [done|].
  assert (length (filter P l) ≤ length (filter Q l))%nat as Hl.
  { apply IH. intros z Hz. apply HPQ. by right. }
  rewrite !filter_cons.
  destruct (decide (P y)) as [HP|HP], (decide (Q y)) as [HQ|HQ]; simpl;
    try lia.
  destruct HQ. apply HPQ; [by left|done].
Qed.

Lemma length_filter_subset (P Q : A → Prop) `{!∀ x, Decision (P x)}
    `{!∀ x, Decision (Q x)} (l : list A) (x : A) :
  (∀ y, y ∈ l → P y → Q y) → x ∈ l → Q x → ¬ P x →
  (length (filter P l) < length (filter Q l))%nat.
Proof.
  intros HPQ Hx HQx HPx. induction l as [|y l IH]; [by apply elem_of_nil in Hx|].
  assert (∀ z, z ∈ l → P z → Q z) as HPQ'.
  { intros z Hz. apply HPQ. by right. }
  pose proof (length_filter_le P Q l HPQ') as Hle.
  rewrite !filter_cons. apply elem_of_cons in Hx as [<-|Hx].
  - rewrite decide_False, decide_True by done. simpl. lia.
  - specialize (IH HPQ' Hx).
    destruct (decide (P y)) as [HP|HP], (decide (Q y)) as [HQ|HQ]; simpl;
      try lia.
    destruct HQ. apply HPQ; [by left|done].
Qed.

End Counting.

Section SortExt.

Context {A : Type}.
Implicit Types (lt : A → A → bool) (l s : list A).

(** The sort looks at [lt] on the elements of the list alone. *)
Lemma insert_pure_ext lt lt' x s :
  (∀ y, y ∈ s → lt y x = lt' y x) →
  insert_pure lt x s = insert_pure lt' x s.
Proof.
  induction s as [|y s IH]; intros H; simpl; [done|].
  rewrite <- (H y) by by left. rewrite IH; [done|].
  intros z Hz. apply H. by right.
Qed.

Lemma sort_pure_ext lt lt' l :
  (∀ a b, a ∈ l → b ∈ l → lt a b = lt' a b) →
  sort_pure lt l = sort_pure lt' l.
Proof.
  induction l as [|x l IH]; intros H; simpl; [done|].
  rewrite <- IH by (intros; apply H; by right).
  apply insert_pure_ext. intros y Hy. rewrite sort_pure_perm in Hy.
  apply H; [by right|by left].
Qed.

(** In a list in order, a unit is before exactly the units after it. *)
Lemma sorted_wins_after lt l (r : nat) (x : A) :
  (∀ a b, a ∈ l → b ∈ l → lt a b = true → lt b a = false) →
  (∀ a, a ∈ l → lt a a = false) →
  StronglySorted (λ a b, lt a b = true) l →
  l !! r = Some x →
  length (filter (λ y, lt x y = true) l) = (length l - 1 - r)%nat.
Proof.
  intros Has Hirr Hs. revert r.
  induction Hs as [|y l Hs IH Hy]; intros r Hr; [done|].
  assert (∀ a b, a ∈ l → b ∈ l → lt a b = true → lt b a = false) as Has'.
  { intros a b Ha Hb. apply Has; by right. }
  assert (∀ a, a ∈ l → lt a a = false) as Hirr'.
  { intros a Ha. apply Hirr. by right. }
  rewrite filter_cons. destruct r as [|r]; simpl in Hr.
  - injection Hr as <-. rewrite decide_False
      by (rewrite Hirr; [done|by left]).
    rewrite filter_all by exact Hy. simpl. lia.
  - assert (x ∈ l) as Hx by by eapply list_elem_of_lookup_2.
    rewrite Forall_forall in Hy.
    rewrite decide_False.
    2:{ rewrite (Has y x); [done|by left|by right|by apply Hy]. }
    rewrite (IH Has' Hirr' r Hr). simpl. lia.
Qed.

End SortExt.

Section AllpairOrder.

Context {St : Type}.
Variable model_obj : Model St.
Variable prompt_template : Template.
Variable query : string.
Variable before : Doc → Doc → bool.
Variable documents : list Doc.
Hypothesis documents_nodup : NoDup documents.
Hypothesis before_order : strict_total_on before documents.
Hypothesis model_encodes :
  encodes_order model_obj prompt_template query before documents.
Implicit Types (w : World St) (l : list Doc).

Let dec (i j : nat) : Z :=
  match documents !! i, documents !! j with
  | Some a, Some b => if before a b then 1 else -1
  | _, _ => 0
  end.

Let crowned (d : Doc) : Doc :=
  set_score (Qc_of_Z (Z.of_nat (wins before documents d))) d.

Lemma before_asym (a b : Doc) :
  a ∈ documents → b ∈ documents → a ≠ b → before b a = negb (before a b).
Proof.
  intros Ha Hb Hab. destruct (strict_total_weak _ _ before_order) as [Has _].
  destruct (before a b) eqn:Eab; simpl.
  - by apply Has.
  - destruct (sto_total _ _ before_order a b) as [?|?]; [done..|congruence|done].
Qed.

Lemma opponent_points_before (k j : nat) (a b : Doc) :
  documents !! k = Some a → documents !! j = Some b →
  opponent_points dec k j = if before a b then 2%nat else 0%nat.
Proof.
  intros Ha Hb. unfold opponent_points.
  assert (a ∈ documents) as Ha' by by eapply list_elem_of_lookup_2.
  assert (b ∈ documents) as Hb' by by eapply list_elem_of_lookup_2.
  destruct (decide (j = k)) as [->|Hjk].
  { simplify_eq. by rewrite (sto_irrefl _ _ before_order). }
  assert (a ≠ b) as Hab.
  { intros ->. by apply Hjk, (NoDup_lookup documents j k b). }
  unfold dec, half_points. rewrite Ha, Hb.
  case_decide.
  - by destruct (before a b).
  - rewrite (before_asym a b) by done. by destruct (before a b).
Qed.

Lemma opponent_points_wins (k : nat) (a : Doc) :
  documents !! k = Some a →
  sum_list (opponent_points dec k <$> seq 0 (length documents))
  = (2 * wins before documents a)%nat.
Proof.
  intros Ha. rewrite <- imap_seq_0.
  rewrite (imap_ext _ (const (λ b, if before a b then 2 else 0)%nat)).
  2:{ intros j b Hb. by apply opponent_points_before. }
  rewrite imap_const. apply sum_list_indicator.
Qed.

Lemma decisions_before (i j : nat) (a b : Doc) w :
  (i < j)%nat → documents !! i = Some a → documents !! j = Some b →
  returns (pairwise_decision model_obj prompt_template query
             (content a) (content b)) w (λ d _, d = dec i j).
Proof.
  intros Hij Ha Hb. eapply returns_mono.
  - apply model_encodes; [by eapply list_elem_of_lookup_2..|].
    intros ->. pose proof (NoDup_lookup _ _ _ _ documents_nodup Ha Hb). lia.
  - intros d w' ->. unfold dec. by rewrite Ha, Hb.
Qed.

(** The scoring loops give every unit one point for each unit it is
    before. *)
Lemma allpair_scores_wins w :
  returns (allpair_scores model_obj prompt_template query documents) w
    (λ scored _, scored = crowned <$> documents).
Proof.
  eapply returns_mono.
  - apply (allpair_scores_points model_obj prompt_template query documents dec).
    intros i j a b w'. apply decisions_before.
  - intros scored w' [Hid Hsc]. apply list_eq. intros k.
    rewrite list_lookup_fmap.
    destruct (scored !! k) as [d|] eqn:Hd.
    + destruct (identity_lookup _ _ _ _ Hid Hd) as (a & Ha & Hida).
      rewrite Ha. simpl. f_equal.
      pose proof (Hsc k d Hd) as Hs.
      rewrite (opponent_points_wins k a Ha), half_double in Hs.
      unfold crowned, set_score. destruct d as [i c s], a as [i' c' s'].
      simpl in *. injection Hida as -> ->. by rewrite Hs.
    + apply lookup_ge_None in Hd.
      rewrite <- (length_fmap identity scored), Hid, length_fmap in Hd.
      apply lookup_ge_None in Hd. by rewrite Hd.
Qed.

Lemma wins_lt (a b : Doc) :
  a ∈ documents → b ∈ documents →
  (wins before documents a < wins before documents b)%nat
  ↔ before b a = true.
Proof.
  intros Ha Hb.
  assert (∀ x y, x ∈ documents → y ∈ documents → before x y = true →
            (wins before documents y < wins before documents x)%nat) as Hlt.
  { intros x y Hx Hy Hxy. unfold wins.
    apply (length_filter_subset _ _ _ y); [|done..|].
    - intros z Hz Hyz. by apply (sto_trans _ _ before_order x y z).
    - by rewrite (sto_irrefl _ _ before_order). }
  split; [|by apply Hlt].
  intros Hw. destruct (decide (a = b)) as [->|Hab]; [lia|].
  destruct (sto_total _ _ before_order a b) as [Hab'|?]; [done..| |done].
  apply Hlt in Hab'; [lia|done..].
Qed.

Lemma strict_total_flip l :
  l ⊆ documents → strict_total_on (λ a b, before b a) l.
Proof.
  intros Hl. destruct before_order as [Hirr Htr Htot]. split.
  - intros a Ha. by apply Hirr, Hl.
  - intros a b c Ha Hb Hc Hab Hbc. apply (Htr c b a); auto.
  - intros a b Ha Hb Hab. destruct (Htot a b); auto.
Qed.

Lemma score_lt_crowned (a b : Doc) :
  a ∈ documents → b ∈ documents →
  score_lt (crowned a) (crowned b) = before b a.
Proof.
  intros Ha Hb. unfold score_lt.
  change (score_of (crowned a))
    with (Qc_of_Z (Z.of_nat (wins before documents a))).
  change (score_of (crowned b))
    with (Qc_of_Z (Z.of_nat (wins before documents b))).
  destruct (before b a) eqn:Hba.
  - apply bool_decide_eq_true. apply (proj1 (Z2Qc_inj_lt _ _)).
    apply inj_lt. by apply wins_lt.
  - apply bool_decide_eq_false. intros Hlt.
    apply (proj2 (Z2Qc_inj_lt _ _)), Nat2Z.inj_lt in Hlt.
    apply wins_lt in Hlt; [congruence|done..].
Qed.

(** The strategy returns the units in the order, each with its points. *)
Lemma allpair_before w :
  returns (allpair model_obj prompt_template query documents) w
    (λ out _, out = crowned <$> sort_pure before documents).
Proof.
  destruct (allpair_returns model_obj prompt_template query documents w)
    as (scored & w' & Hscored & _ & Hout).
  destruct (allpair_scores_wins w) as (scored' & w'' & Hscored' & ->).
  rewrite Hscored in Hscored'. injection Hscored' as -> <-.
  eexists _, _. split; [exact Hout|].
  rewrite <- fmap_reverse.
  rewrite (sort_pure_fmap crowned (λ a b, score_lt (crowned a) (crowned b)))
    by done.
  rewrite <- fmap_reverse. f_equal.
  rewrite (sort_pure_ext _ (λ a b, before b a)).
  2:{ intros a b Ha Hb. rewrite elem_of_reverse in Ha, Hb.
      by apply score_lt_crowned. }
  apply (sorted_total_unique before documents); [done| | | |].
  - by rewrite reverse_Permutation, sort_pure_perm, reverse_Permutation.
  - apply sort_pure_perm.
  - apply (StronglySorted_reverse (λ a b, before b a = true)).
    apply sort_pure_total; [by rewrite reverse_Permutation|].
    apply strict_total_flip. intros x. by rewrite elem_of_reverse.
  - by apply sort_pure_total.
Qed.

End AllpairOrder.

(** X6. When the judgments of the model encode a strict total order of
    the units, the all-pairs strategy returns the units in that order, the
    only list of the units in order, and the unit at place [r] of [n] has
    the score [n - 1 - r]: one point for every unit after it. *)
Theorem allpair_total_order {St} (model_obj : Model St)
    (prompt_template : Template) (query : string)
    (before : Doc → Doc → bool) (documents : list Doc) (w : World St) :
  NoDup documents →
  strict_total_on before documents →
  encodes_order model_obj prompt_template query before documents →
  returns (allpair model_obj prompt_template query documents) w
    (λ out _,
       ∃ ranking,
         ranking ≡ₚ documents
         ∧ StronglySorted (λ a b, before a b = true) ranking
         ∧ (∀ l, l ≡ₚ documents →
                 StronglySorted (λ a b, before a b = true) l → l = ranking)
         ∧ identity <$> out = identity <$> ranking
         ∧ ∀ (r : nat) (d : Doc), out !! r = Some d →
             score d
             = Some (Qc_of_Z (Z.of_nat (length documents - 1 - r)))).
Proof.
  intros Hnd Hsto Henc. eapply returns_mono.
  - by apply (allpair_before model_obj prompt_template query before).
  - intros out w' ->.
    pose proof (sort_pure_perm before documents) as Hp.
    pose proof (sort_pure_total before documents Hnd Hsto) as Hs.
    exists (sort_pure before documents). split_and!; [done..| | |].
    + intros l Hl Hsl. by apply (sorted_total_unique before documents).
    + rewrite <- list_fmap_compose. by apply list_fmap_ext.
    + intros r d Hd. rewrite list_lookup_fmap in Hd.
      destruct (sort_pure before documents !! r) as [x|] eqn:Hx; [|done].
      injection Hd as <-. simpl. do 3 f_equal. unfold wins.
      rewrite <- (Permutation_length Hp), <- (filter_Permutation _ _ _ Hp).
      assert (strict_total_on before (sort_pure before documents)) as Hsto'.
      { eapply strict_total_on_subseteq; [|done]. by rewrite Hp. }
      apply sorted_wins_after; [| |done..].
      * intros a b. apply (swo_asym _ _ (strict_total_weak _ _ Hsto')).
      * apply (sto_irrefl _ _ Hsto').
Qed.

(** ** All pairs: what the result selector keeps *)

(** X7. Whatever the model answers, the result selector keeps, of the
    ranking of the all-pairs strategy, units whose scores are at least the
    score of every unit it drops. *)
Theorem allpair_keeps_best {St} (model_obj : Model St)
    (prompt_template : Template) (query : string) (top_k : Z)
    (documents : list Doc) (w : World St) :
  returns (allpair model_obj prompt_template query documents) w
    (λ out _,
       ∃ dropped,
         out = truncate top_k out ++ dropped
         ∧ ∀ a b, a ∈ truncate top_k out → b ∈ dropped →
                  (score_of b ≤ score_of a)%Qc).
Proof.
  destruct (allpair_returns model_obj prompt_template query documents w)
    as (scored & w' & _ & _ & Hout).
  eexists _, _. split; [exact Hout|].
  set (out := reverse (sort_pure score_lt (reverse scored))).
  assert (StronglySorted (λ a b, score_of b ≤ score_of a)%Qc out) as Hs.
  { eapply StronglySorted_impl;
      [|apply StronglySorted_reverse, sort_pure_sorted, score_lt_weak].
    intros a b Hab. unfold flip, score_lt in Hab.
    apply bool_decide_eq_false in Hab. by apply Qcle_ngt. }
  assert (∃ k, truncate top_k out = take k out) as [k Hk].
  { unfold truncate. destruct (Z.ltb_spec 0 top_k).
    - exists (Z.to_nat top_k). apply slice_to_take. lia.
    - exists (length out). by rewrite take_ge. }
  exists (drop k out). rewrite Hk. split; [by rewrite take_drop|].
  rewrite <- (take_drop k out) in Hs.
  apply StronglySorted_app in Hs as (H12 & _ & _). exact H12.
Qed.

(** ** The sorting strategy, with an order in which units may tie *)

Section Ranking.

Context {St : Type}.
Variable model_obj : Model St.
Variable prompt_template : Template.
Variable query : string.
Variable before : Doc → Doc → bool.
Variable documents : list Doc.
Hypothesis documents_nodup : NoDup documents.
Hypothesis before_order : strict_weak_on before documents.
Hypothesis model_encodes :
  encodes_ranking model_obj prompt_template query before documents.
Implicit Types (w : World St) (l : list Doc).

Lemma key_lt_ranking l :
  NoDup l → l ⊆ documents →
  answers_as (key_lt (cmp_to_key
                        (compare_docs model_obj prompt_template query)))
    before l.
Proof.
  induction l as [|x l IH]; intros Hnd Hsub; [done|].
  apply NoDup_cons in Hnd as [Hx Hnd]. split.
  - intros y w Hy. eapply returns_mono.
    + apply key_lt_returns. apply model_encodes; [set_solver..|].
      intros ->. done.
    + intros r w' (d & -> & ->).
      destruct (before y x); [done|]. by destruct (before x y).
  - apply IH; [done|]. set_solver.
Qed.

Lemma sorting_ranking w :
  returns (sorting model_obj prompt_template query documents) w
    (λ out _, out = sort_pure before documents).
Proof.
  unfold returns. rewrite sorting_list_sort.
  by apply list_sort_run, key_lt_ranking.
Qed.

End Ranking.

(** X8. When the judgments of the model on the (distinct) units follow an
    order in which units may tie (a strict weak order), the sorting
    strategy returns a rearrangement of the units in which no unit comes
    after a unit it is before, and the units of any class whose members tie
    with one another keep the order they had in the input. *)
Theorem sorting_stable {St} (model_obj : Model St)
    (prompt_template : Template) (query : string)
    (before : Doc → Doc → bool) (documents : list Doc) (w : World St) :
  NoDup documents →
  strict_weak_on before documents →
  encodes_ranking model_obj prompt_template query before documents →
  returns (sorting model_obj prompt_template query documents) w
    (λ out _,
       out ≡ₚ documents
       ∧ StronglySorted (λ a b, before b a = false) out
       ∧ ∀ (P : Doc → Prop) (dec : ∀ d, Decision (P d)),
           (∀ x y, x ∈ documents → y ∈ documents → P x → P y →
                   before x y = false) →
           filter P out = filter P documents).
Proof.
  intros Hnd Hswo Henc. eapply returns_mono.
  - by apply (sorting_ranking model_obj prompt_template query before).
  - intros out w' ->. split_and!.
    + apply sort_pure_perm.
    + by apply sort_pure_sorted.
    + intros P dec Htie. apply sort_pure_filter.
      intros x y Hx Hy HPx HPy. by apply Htie.
Qed.

(** ** The sliding window: what the first passes settle *)

Section BubblePrefix.

Context {A : Type}.
Implicit Types (lt : A → A → bool) (l : list A).

(** After [k] passes the first [k] places are settled: no later pass
    changes them. *)
Lemma iter_bubble_take lt (k j : nat) l :
  NoDup l → strict_total_on lt l →
  take k (Nat.iter k (bubble (λ a b, lt b a)) l)
  = take k (Nat.iter (k + j) (bubble (λ a b, lt b a)) l).
Proof.
  revert l. induction k as [|k IH]; intros l Hnd Hsto; [done|].
  rewrite Nat.add_succ_l, !Nat.iter_succ_r.
  destruct l as [|x l'] eqn:El.
  { simpl.
    rewrite (proj1 (Permutation_nil_r _) (iter_bubble_perm _ k [])).
    by rewrite (proj1 (Permutation_nil_r _) (iter_bubble_perm _ (k + j) [])). }
  rewrite <- El in *. assert (l ≠ []) as Hl by by rewrite El.
  destruct (bubble_min lt l Hnd Hsto Hl) as (m & r & Hb & Hm).
  pose proof (bubble_perm (λ a b, lt b a) l) as Hperm. rewrite Hb in *.
  assert (strict_total_on lt (m :: r)) as Hsto'.
  { eapply strict_total_on_subseteq; [|done]. by rewrite Hperm. }
  assert (NoDup (m :: r)) as Hnd' by by rewrite Hperm.
  rewrite !iter_bubble_cons_min by done. simpl. f_equal.
  apply NoDup_cons in Hnd' as [_ Hnd']. apply IH; [done|].
  eapply strict_total_on_subseteq; [|done]. set_solver.
Qed.

(** So they hold the first [k] units of the order. *)
Lemma iter_bubble_take_sorted lt (k : nat) l ranking :
  NoDup l → strict_total_on lt l →
  ranking ≡ₚ l → StronglySorted (λ a b, lt a b = true) ranking →
  take k (Nat.iter k (bubble (λ a b, lt b a)) l) = take k ranking.
Proof.
  intros Hnd Hsto Hperm Hsorted.
  rewrite (iter_bubble_take lt k (length l)) by done. f_equal.
  apply (sorted_total_unique lt l); [done| |done| |done].
  - apply iter_bubble_perm.
  - apply iter_bubble_sorted; [done..|]. lia.
Qed.

End BubblePrefix.

(** X9. When the judgments of the model encode a strict total order of
    the units and [top_k] is positive, the sliding window runs [top_k]
    passes only, and what the result selector keeps of its output is the
    first [top_k] units of the order, in order. *)
Theorem sliding_top_k {St} (model_obj : Model St)
    (prompt_template : Template) (query : string) (top_k : Z)
    (before : Doc → Doc → bool) (documents : list Doc) (w : World St) :
  NoDup documents →
  strict_total_on before documents →
  encodes_order model_obj prompt_template query before documents →
  0 < top_k →
  returns (sliding model_obj prompt_template query top_k documents) w
    (λ out _,
       out ≡ₚ documents
       ∧ ∀ ranking,
           ranking ≡ₚ documents →
           StronglySorted (λ a b, before a b = true) ranking →
           truncate top_k out = take (Z.to_nat top_k) ranking).
Proof.
  intros Hnd Hsto Henc Hk. eapply returns_mono.
  - by apply (sliding_before model_obj prompt_template query before).
  - intros out w' ->. split; [apply iter_bubble_perm|].
    intros ranking Hperm Hsorted.
    unfold truncate. rewrite (proj2 (Z.ltb_lt 0 top_k)) by done.
    rewrite slice_to_take by lia.
    unfold passes. rewrite (proj2 (Z.ltb_lt 0 top_k)) by done.
    by apply iter_bubble_take_sorted.
Qed.

(** ** An order in which units may tie *)

Section IndexOf.

Context {A : Type} `{EqDecision A}.
Implicit Types (l : list A).

Lemma index_of_lookup (x : A) l : x ∈ l → l !! index_of x l = Some x.
Proof.
  induction l as [|z l IH]; [by intros ?%elem_of_nil|].
  intros Hx. simpl. case_decide as Hz; [by subst|].
  apply elem_of_cons in Hx as [->|Hx]; [done|]. by apply IH.
Qed.

Lemma index_of_unique (x : A) l (i : nat) :
  NoDup l → l !! i = Some x → index_of x l = i.
Proof.
  intros Hnd Hi. apply (NoDup_lookup l _ _ x); [done| |done].
  apply index_of_lookup. by eapply list_elem_of_lookup_2.
Qed.

Lemma strict_total_on_flip (lt : A → A → bool) l :
  strict_total_on lt l → strict_total_on (λ a b, lt b a) l.
Proof.
  intros [Hirr Htr Htot]. split.
  - done.
  - intros a b c Ha Hb Hc Hab Hbc. apply (Htr c b a); auto.
  - intros a b Ha Hb Hab. destruct (Htot a b); auto.
Qed.

End IndexOf.

Section Ties.

Variable before : Doc → Doc → bool.
Variable documents : list Doc.
Hypothesis documents_nodup : NoDup documents.
Hypothesis before_order : strict_weak_on before documents.
Implicit Types (l : list Doc) (a b c : Doc).

Local Abbreviation finer := (refined before documents).

Lemma before_irrefl a : a ∈ documents → before a a = false.
Proof.
  intros Ha. destruct (before a a) eqn:E; [|done].
  by rewrite (swo_asym _ _ before_order a a) in E.
Qed.

Lemma before_trans a b c :
  a ∈ documents → b ∈ documents → c ∈ documents →
  before a b = true → before b c = true → before a c = true.
Proof.
  intros Ha Hb Hc Hab Hbc. destruct (before a c) eqn:Hac; [done|].
  rewrite (swo_negtrans _ _ before_order a c b) in Hab; [done..|].
  by apply (swo_asym _ _ before_order).
Qed.

(** A unit that is before one of two units that tie is before the other,
    and so for a unit that one of them is before. *)
Lemma before_tied_r a b c :
  a ∈ documents → b ∈ documents → c ∈ documents →
  before a b = true → before c b = false → before a c = true.
Proof.
  intros Ha Hb Hc Hab Hcb. destruct (before a c) eqn:Hac; [done|].
  by rewrite (swo_negtrans _ _ before_order a c b) in Hab.
Qed.

Lemma before_tied_l a b c :
  a ∈ documents → b ∈ documents → c ∈ documents →
  before b c = true → before b a = false → before a c = true.
Proof.
  intros Ha Hb Hc Hbc Hba. destruct (before a c) eqn:Hac; [done|].
  by rewrite (swo_negtrans _ _ before_order b a c) in Hbc.
Qed.

Lemma finer_total : strict_total_on finer documents.
Proof.
  split.
  - intros a Ha. unfold refined.
    by rewrite (before_irrefl a Ha), Nat.ltb_irrefl.
  - intros a b c Ha Hb Hc. unfold refined.
    rewrite !orb_true_iff, !andb_true_iff, !negb_true_iff, !Nat.ltb_lt.
    intros [Hab|[Hba Hi]] [Hbc|[Hcb Hj]].
    + left. by apply (before_trans a b c).
    + left. by apply (before_tied_r a b c).
    + left. by apply (before_tied_l a b c).
    + destruct (before a c) eqn:Hac; [by left|]. right.
      split; [|lia].
      by apply (swo_negtrans _ _ before_order c b a).
  - intros a b Ha Hb Hab. unfold refined.
    destruct (before a b) eqn:E1; [by left|].
    destruct (before b a) eqn:E2; [by right|]. simpl.
    rewrite !Nat.ltb_lt.
    destruct (Nat.lt_trichotomy (index_of a documents)
                (index_of b documents)) as [?|[Heq|?]]; [by left| |by right].
    destruct Hab.
    pose proof (index_of_lookup a documents Ha) as H1.
    pose proof (index_of_lookup b documents Hb) as H2.
    rewrite Heq in H1. congruence.
Qed.

(** Where the later of two units is asked about first, the two orders
    agree. *)
Lemma finer_later a b :
  (index_of b documents < index_of a documents)%nat →
  finer a b = before a b.
Proof.
  intros Hi. unfold refined.
  rewrite (proj2 (Nat.ltb_ge _ _)) by lia. by rewrite andb_false_r, orb_false_r.
Qed.

(** The sort asks about a later unit first, so it sorts by the finer
    order. *)
Lemma sort_pure_finer l :
  l ⊆ documents →
  (∀ (i j : nat) a b, l !! i = Some a → l !! j = Some b → (i < j)%nat →
     (index_of a documents < index_of b documents)%nat) →
  sort_pure before l = sort_pure finer l.
Proof.
  induction l as [|x l IH]; intros Hsub Hord; [done|]. simpl.
  rewrite IH.
  2:{ intros y Hy. apply Hsub. by right. }
  2:{ intros i j a b Ha Hb Hij. apply (Hord (S i) (S j)); [done..|lia]. }
  apply insert_pure_ext. intros y Hy. rewrite sort_pure_perm in Hy.
  apply list_elem_of_lookup in Hy as [j Hj]. symmetry. apply finer_later.
  apply (Hord 0%nat (S j)); [done..|lia].
Qed.

Lemma sort_pure_finer_rev l :
  l ⊆ documents →
  (∀ (i j : nat) a b, l !! i = Some a → l !! j = Some b → (i < j)%nat →
     (index_of b documents < index_of a documents)%nat) →
  sort_pure (λ a b, before b a) l = sort_pure (λ a b, finer b a) l.
Proof.
  induction l as [|x l IH]; intros Hsub Hord; [done|]. simpl.
  rewrite IH.
  2:{ intros y Hy. apply Hsub. by right. }
  2:{ intros i j a b Ha Hb Hij. apply (Hord (S i) (S j)); [done..|lia]. }
  apply insert_pure_ext. intros y Hy. rewrite sort_pure_perm in Hy.
  apply list_elem_of_lookup in Hy as [j Hj]. symmetry. apply finer_later.
  apply (Hord 0%nat (S j)); [done..|lia].
Qed.

Lemma documents_in_order (i j : nat) a b :
  documents !! i = Some a → documents !! j = Some b → (i < j)%nat →
  (index_of a documents < index_of b documents)%nat.
Proof.
  intros Ha Hb Hij.
  by rewrite (index_of_unique a documents i), (index_of_unique b documents j).
Qed.

(** The ranking: the units sorted by the order, those that tie in the
    order of the input. *)
Lemma ranking_finer :
  sort_pure before documents = sort_pure finer documents.
Proof. apply sort_pure_finer; [done|]. apply documents_in_order. Qed.

Lemma ranking_sorted :
  StronglySorted (λ a b, finer a b = true) (sort_pure before documents).
Proof. rewrite ranking_finer. apply sort_pure_total; [done|apply finer_total]. Qed.

Lemma ranking_unique l :
  l ≡ₚ documents → StronglySorted (λ a b, finer a b = true) l →
  l = sort_pure before documents.
Proof.
  intros Hl Hs.
  apply (sorted_total_unique finer documents);
    [apply finer_total|done|apply sort_pure_perm|done|apply ranking_sorted].
Qed.

(** Sorted from the last unit to the first by the reversed order, and
    reversed, the units are in the same ranking. *)
Lemma ranking_reverse :
  reverse (sort_pure (λ a b, before b a) (reverse documents))
  = sort_pure before documents.
Proof.
  apply ranking_unique.
  { by rewrite reverse_Permutation, sort_pure_perm, reverse_Permutation. }
  rewrite sort_pure_finer_rev.
  - apply (StronglySorted_reverse (λ a b, finer b a = true)).
    apply sort_pure_total; [by rewrite reverse_Permutation|].
    apply strict_total_on_flip.
    eapply strict_total_on_subseteq; [|apply finer_total].
    intros x. by rewrite elem_of_reverse.
  - intros x. by rewrite elem_of_reverse.
  - intros i j a b Ha Hb Hij.
    apply reverse_lookup_Some in Ha as [Ha Hi], Hb as [Hb Hj].
    apply (documents_in_order _ _ _ _ Hb Ha). lia.
Qed.

End Ties.

(** ** The sliding window, with an order in which units may tie *)

Section SlidingTies.

Context {St : Type}.
Variable model_obj : Model St.
Variable prompt_template : Template.
Variable query : string.
Variable before : Doc → Doc → bool.
Variable documents : list Doc.
Hypothesis documents_nodup : NoDup documents.
Hypothesis before_order : strict_weak_on before documents.
Hypothesis model_encodes :
  encodes_ranking model_obj prompt_template query before documents.
Implicit Types (w : World St) (l : list Doc) (a b : Doc).

Local Abbreviation finer := (refined before documents).

(** The units are rearranged, and no unit stands after a unit it ties
    with and came before. *)
Let in_order l : Prop :=
  l ≡ₚ documents
  ∧ ∀ (i j : nat) a b, l !! i = Some a → l !! j = Some b → (i < j)%nat →
      finer b a = true → before b a = true.

Lemma in_order_documents : in_order documents.
Proof.
  split; [done|]. intros i j a b Ha Hb Hij.
  rewrite (finer_later before documents b a); [done|].
  by apply (documents_in_order documents documents_nodup i j).
Qed.

Lemma neighbours_ranking l (i : nat) a b w :
  in_order l → l !! i = Some a → l !! (i + 1)%nat = Some b →
  returns (pairwise_decision model_obj prompt_template query
             (content a) (content b)) w
    (λ d _, (d =? -1) = finer b a).
Proof.
  intros [Hl Hord] Ha Hb.
  assert (a ∈ documents) as Ha'.
  { rewrite <- Hl. by eapply list_elem_of_lookup_2. }
  assert (b ∈ documents) as Hb'.
  { rewrite <- Hl. by eapply list_elem_of_lookup_2. }
  assert (a ≠ b) as Hab.
  { intros ->. assert (NoDup l) as Hnd by by rewrite Hl.
    pose proof (NoDup_lookup _ _ _ _ Hnd Ha Hb). lia. }
  eapply returns_mono; [by apply model_encodes|].
  intros d w' ->.
  destruct (finer b a) eqn:Hf.
  - assert (before b a = true) as Hba
      by (apply (Hord i (i + 1)%nat a b); done || lia).
    by rewrite Hba, (swo_asym _ _ before_order b a).
  - unfold refined in Hf. apply orb_false_iff in Hf as [-> _].
    by destruct (before a b).
Qed.

Lemma in_order_step l (i : nat) :
  in_order l → in_order (step_pure (λ a b, finer b a) i l).
Proof.
  intros [Hl Hord]. split; [by rewrite step_pure_perm|].
  unfold step_pure.
  destruct (l !! i) as [a|] eqn:Ha; [|done].
  destruct (l !! (i + 1)%nat) as [b|] eqn:Hb; [|done].
  destruct (finer b a) eqn:Hf; [|done].
  assert (finer a b = false) as Hf'.
  { apply (swo_asym _ _ (strict_total_weak _ _
             (finer_total before documents before_order)));
      [rewrite <- Hl; by eapply list_elem_of_lookup_2..|done]. }
  intros p q x y Hx Hy Hpq Hxy.
  apply list_lookup_insert_Some in Hx as [(<- & <- & _)|[Hp1 Hx]];
    apply list_lookup_insert_Some in Hy as [(<- & <- & _)|[Hq1 Hy]];
    try lia.
  - apply list_lookup_insert_Some in Hy as [(<- & <- & _)|[Hq Hy]]; [lia|].
    apply (Hord i q); [done..|lia|done].
  - apply list_lookup_insert_Some in Hx as [(<- & <- & _)|[Hp Hx]];
      [congruence|].
    apply (Hord p i); [done..|lia|done].
  - apply list_lookup_insert_Some in Hx as [(<- & <- & _)|[Hp Hx]];
      apply list_lookup_insert_Some in Hy as [(<- & <- & _)|[Hq Hy]];
      try lia.
    + apply (Hord (i + 1)%nat q); [done..|lia|done].
    + apply (Hord p (i + 1)%nat); [done..|lia|done].
    + by apply (Hord p q).
Qed.

Lemma sliding_ranking (top_k : Z) w :
  returns (sliding model_obj prompt_template query top_k documents) w
    (λ out _,
       out = Nat.iter (passes top_k (length documents))
               (bubble (λ a b, finer b a)) documents).
Proof.
  eapply returns_mono.
  - apply (sliding_run model_obj prompt_template query top_k
             (λ a b, finer b a) in_order).
    + intros l i a b w'. apply neighbours_ranking.
    + apply in_order_step.
    + apply in_order_documents.
  - intros out w' ->. by rewrite passes_range.
Qed.

End SlidingTies.

(** ** All pairs, with an order in which units may tie *)

Section SumList.

Context {A : Type}.
Implicit Types (f g : A → nat) (l : list A).

Lemma sum_list_delete f l (k : nat) (x : A) :
  l !! k = Some x →
  sum_list (f <$> l) = (f x + sum_list (f <$> delete k l))%nat.
Proof.
  revert k. induction l as [|y l IH]; intros [|k] Hk; simplify_eq/=; [done|].
  rewrite (IH k Hk). lia.
Qed.

Lemma sum_list_le f g l :
  (∀ c, c ∈ l → (f c ≤ g c)%nat) →
  (sum_list (f <$> l) ≤ sum_list (g <$> l))%nat.
Proof.
  induction l as [|y l IH]; intros H; csimpl; [done|].
  pose proof (H y ltac:(by left)).
  assert (sum_list (f <$> l) ≤ sum_list (g <$> l))%nat
    by (apply IH; intros; apply H; by right).
  lia.
Qed.

Lemma sum_list_lt f g l (x : A) :
  (∀ c, c ∈ l → (f c ≤ g c)%nat) → x ∈ l → (f x < g x)%nat →
  (sum_list (f <$> l) < sum_list (g <$> l))%nat.
Proof.
  intros H Hx Hlt. apply list_elem_of_lookup in Hx as [k Hk].
  rewrite (sum_list_delete f l k x Hk), (sum_list_delete g l k x Hk).
  assert (sum_list (f <$> delete k l) ≤ sum_list (g <$> delete k l))%nat.
  { apply sum_list_le. intros c Hc. apply H.
    by eapply list_elem_of_delete_inv. }
  lia.
Qed.

Lemma sum_list_ext f g l :
  (∀ c, c ∈ l → f c = g c) → sum_list (f <$> l) = sum_list (g <$> l).
Proof.
  intros H. f_equal. apply list_fmap_ext. intros i c Hc.
  apply H. by eapply list_elem_of_lookup_2.
Qed.

End SumList.

Section AllpairTies.

Context {St : Type}.
Variable model_obj : Model St.
Variable prompt_template : Template.
Variable query : string.
Variable before : Doc → Doc → bool.
Variable documents : list Doc.
Hypothesis documents_nodup : NoDup documents.
Hypothesis before_order : strict_weak_on before documents.
Hypothesis model_encodes :
  encodes_ranking model_obj prompt_template query before documents.
Implicit Types (w : World St) (l : list Doc) (a b c : Doc).

Let dec (i j : nat) : Z :=
  match documents !! i, documents !! j with
  | Some a, Some b =>
      if before a b then 1 else if before b a then -1 else 0
  | _, _ => 0
  end.

(** The half points of a unit against all the units, itself among
    them. *)
Let standing a : nat := sum_list (order_points before a <$> documents).

Let placed a : Doc :=
  set_score (Q2Qc (1 # 2) * Qc_of_Z (Z.of_nat (standing a - 1)))%Qc a.

Lemma decisions_ranking (i j : nat) a b w :
  (i < j)%nat → documents !! i = Some a → documents !! j = Some b →
  returns (pairwise_decision model_obj prompt_template query
             (content a) (content b)) w (λ d _, d = dec i j).
Proof.
  intros Hij Ha Hb. eapply returns_mono.
  - apply model_encodes; [by eapply list_elem_of_lookup_2..|].
    intros ->. pose proof (NoDup_lookup _ _ _ _ documents_nodup Ha Hb). lia.
  - intros d w' ->. unfold dec. by rewrite Ha, Hb.
Qed.

Lemma opponent_points_order (k j : nat) a b :
  documents !! k = Some a → documents !! j = Some b →
  opponent_points dec k j
  = if decide (j = k) then 0%nat else order_points before a b.
Proof.
  intros Ha Hb. unfold opponent_points, order_points.
  case_decide; [done|].
  assert (a ∈ documents) as Ha' by by eapply list_elem_of_lookup_2.
  assert (b ∈ documents) as Hb' by by eapply list_elem_of_lookup_2.
  pose proof (swo_asym _ _ before_order a b Ha' Hb') as Hasym.
  unfold dec, half_points. rewrite Ha, Hb.
  case_decide; destruct (before a b), (before b a); simpl; try done.
  by specialize (Hasym eq_refl).
Qed.

Lemma opponent_points_standing (k : nat) a :
  documents !! k = Some a →
  (sum_list (opponent_points dec k <$> seq 0 (length documents)) + 1)%nat
  = standing a.
Proof.
  intros Ha. rewrite <- imap_seq_0.
  rewrite (imap_ext _ (λ j b, if decide (j = k) then 0%nat
                             else order_points before a b)).
  2:{ intros j b Hb. by apply opponent_points_order. }
  rewrite sum_list_imap_delete. unfold standing.
  rewrite (sum_list_delete _ documents k a Ha).
  unfold order_points at 2.
  rewrite (before_irrefl before documents before_order a)
    by by eapply list_elem_of_lookup_2.
  lia.
Qed.

Lemma allpair_scores_ranking w :
  returns (allpair_scores model_obj prompt_template query documents) w
    (λ scored _, scored = placed <$> documents).
Proof.
  eapply returns_mono.
  - apply (allpair_scores_points model_obj prompt_template query documents dec).
    intros i j a b w'. apply decisions_ranking.
  - intros scored w' [Hid Hsc]. apply list_eq. intros k.
    rewrite list_lookup_fmap.
    destruct (scored !! k) as [d|] eqn:Hd.
    + destruct (identity_lookup _ _ _ _ Hid Hd) as (a & Ha & Hida).
      rewrite Ha. simpl. f_equal.
      pose proof (Hsc k d Hd) as Hs.
      pose proof (opponent_points_standing k a Ha) as Hst.
      replace (sum_list (opponent_points dec k <$> seq 0 (length documents)))
        with (standing a - 1)%nat in Hs by lia.
      unfold placed, set_score. destruct d as [i c s], a as [i' c' s'].
      simpl in *. injection Hida as -> ->. by rewrite Hs.
    + apply lookup_ge_None in Hd.
      rewrite <- (length_fmap identity scored), Hid, length_fmap in Hd.
      apply lookup_ge_None in Hd. by rewrite Hd.
Qed.

Lemma standing_pos a : a ∈ documents → (1 ≤ standing a)%nat.
Proof.
  intros [k Hk]%list_elem_of_lookup.
  pose proof (opponent_points_standing k a Hk). lia.
Qed.

Lemma standing_before a b :
  a ∈ documents → b ∈ documents → before a b = true →
  (standing b < standing a)%nat.
Proof.
  intros Ha Hb Hab. unfold standing.
  pose proof (swo_asym _ _ before_order a b Ha Hb Hab) as Hba.
  apply (sum_list_lt _ _ documents b); [|done|].
  - intros c Hc. unfold order_points.
    destruct (before b c) eqn:Hbc.
    + by rewrite (before_trans before documents before_order a b c).
    + destruct (before c b) eqn:Hcb; [lia|].
      rewrite (before_tied_r before documents before_order a b c) by done.
      lia.
  - unfold order_points.
    rewrite Hab, (before_irrefl before documents before_order b Hb). lia.
Qed.

Lemma standing_tied a b :
  a ∈ documents → b ∈ documents →
  before a b = false → before b a = false → standing a = standing b.
Proof.
  intros Ha Hb Hab Hba. unfold standing. apply sum_list_ext.
  intros c Hc. unfold order_points.
  assert (before a c = before b c) as ->.
  { destruct (before a c) eqn:Hac, (before b c) eqn:Hbc; try done.
    - by rewrite (before_tied_l before documents before_order b a c) in Hbc.
    - by rewrite (before_tied_l before documents before_order a b c) in Hac. }
  assert (before c a = before c b) as ->; [|done].
  destruct (before c a) eqn:Hca, (before c b) eqn:Hcb; try done.
  - by rewrite (before_tied_r before documents before_order c a b) in Hcb.
  - by rewrite (before_tied_r before documents before_order c b a) in Hca.
Qed.

Lemma score_lt_placed a b :
  a ∈ documents → b ∈ documents →
  score_lt (placed a) (placed b) = before b a.
Proof.
  intros Ha Hb. unfold score_lt.
  change (score_of (placed a))
    with (Q2Qc (1 # 2) * Qc_of_Z (Z.of_nat (standing a - 1)))%Qc.
  change (score_of (placed b))
    with (Q2Qc (1 # 2) * Qc_of_Z (Z.of_nat (standing b - 1)))%Qc.
  pose proof (standing_pos a Ha). pose proof (standing_pos b Hb).
  assert ((Q2Qc (1 # 2) * Qc_of_Z (Z.of_nat (standing a - 1))
           < Q2Qc (1 # 2) * Qc_of_Z (Z.of_nat (standing b - 1)))%Qc
          ↔ (standing a < standing b)%nat) as Hlt.
  { rewrite <- Qcmult_lt_mono_pos_l by done.
    rewrite <- Z2Qc_inj_lt, <- Nat2Z.inj_lt. lia. }
  destruct (before b a) eqn:Hba.
  - apply bool_decide_eq_true, Hlt. by apply standing_before.
  - apply bool_decide_eq_false. rewrite Hlt.
    destruct (before a b) eqn:Hab.
    + pose proof (standing_before a b Ha Hb Hab). lia.
    + rewrite (standing_tied a b) by done. lia.
Qed.

(** The strategy returns the units in the ranking, each with its
    points. *)
Lemma allpair_ranking w :
  returns (allpair model_obj prompt_template query documents) w
    (λ out _, out = placed <$> sort_pure before documents).
Proof.
  destruct (allpair_returns model_obj prompt_template query documents w)
    as (scored & w' & Hscored & _ & Hout).
  destruct (allpair_scores_ranking w) as (scored' & w'' & Hscored' & ->).
  rewrite Hscored in Hscored'. injection Hscored' as -> <-.
  eexists _, _. split; [exact Hout|].
  rewrite <- fmap_reverse.
  rewrite (sort_pure_fmap placed (λ a b, score_lt (placed a) (placed b)))
    by done.
  rewrite <- fmap_reverse. f_equal.
  rewrite (sort_pure_ext _ (λ a b, before b a)).
  2:{ intros a b Ha Hb. rewrite elem_of_reverse in Ha, Hb.
      by apply score_lt_placed. }
  by apply ranking_reverse.
Qed.

End AllpairTies.

(** ** What is sent to the model *)

Section Asked.

Context {St : Type}.
Variable model_obj : Model St.
Variable prompt_template : Template.
Variable query : string.
Variable documents : list Doc.
Implicit Types (w : World St) (l : list Doc).

Local Abbreviation asked := (asked_only prompt_template query documents).

Lemma asked_refl w : asked w w.
Proof. exists []. split; [constructor|]. simpl. by rewrite app_nil_r. Qed.

Lemma asked_pairwise_decision (a b : Doc) w0 w :
  content a ∈ content <$> documents → content b ∈ content <$> documents →
  asked w0 w →
  returns (pairwise_decision model_obj prompt_template query
             (content a) (content b)) w (λ _ w', asked w0 w').
Proof.
  intros Ha Hb (pairs & Hpairs & Ht).
  eapply returns_mono; [apply pairwise_decision_returns|].
  intros d w' [_ Ht']. exists (pairs ++ [(content a, content b)]). split.
  - apply Forall_app. split; [done|]. by repeat constructor.
  - rewrite Ht', Ht, bind_app, <- app_assoc.
    by rewrite list_bind_singleton.
Qed.

(** The sort keeps what every comparison keeps. *)
Lemma insert_inv {K} (I : World St → Prop) (lt : K → K → M St bool)
    (x : K) (s : list K) w :
  (∀ y w, y ∈ s → I w → returns (lt y x) w (λ _ w', I w')) → I w →
  returns (insert lt x s) w (λ r w', r ≡ₚ x :: s ∧ I w').
Proof.
  revert w. induction s as [|y s IH]; intros w Hlt HI; simpl.
  - by apply returns_ret.
  - apply returns_bind. eapply returns_mono; [apply Hlt; [by left|done]|].
    intros [] w' HI'; simpl.
    + apply returns_bind. eapply returns_mono.
      { apply IH; [|done]. intros z w'' Hz. apply Hlt. by right. }
      intros r w'' [Hr HI'']. apply returns_ret. split; [|done].
      rewrite Hr. apply Permutation_swap.
    + by apply returns_ret.
Qed.

Lemma list_sort_inv {K} (I : World St → Prop) (lt : K → K → M St bool)
    (l : list K) w :
  (∀ a b w, a ∈ l → b ∈ l → I w → returns (lt a b) w (λ _ w', I w')) →
  I w →
  returns (list_sort lt l) w (λ r w', r ≡ₚ l ∧ I w').
Proof.
  revert w. induction l as [|x l IH]; intros w Hlt HI; simpl.
  - by apply returns_ret.
  - apply returns_bind. eapply returns_mono.
    { apply IH; [|done]. intros a b w' Ha Hb. apply Hlt; by right. }
    intros s w' [Hs HI']. eapply returns_mono.
    { apply (insert_inv I); [|done]. intros y w'' Hy. rewrite Hs in Hy.
      apply Hlt; [by right|by left]. }
    intros r w'' [Hr HI'']. split; [|done]. by rewrite Hr, Hs.
Qed.

Lemma sorting_asked w :
  returns (sorting model_obj prompt_template query documents) w
    (λ _ w', asked w w').
Proof.
  unfold returns. rewrite sorting_list_sort.
  eapply returns_mono.
  - apply (list_sort_inv (asked w)); [|apply asked_refl].
    intros a b w' Ha Hb HI. simpl. apply returns_bind. unfold compare_docs.
    apply returns_bind. eapply returns_mono.
    + apply asked_pairwise_decision; [by apply list_elem_of_fmap_2..|done].
    + intros d w'' HI'. simpl.
      destruct (d =? 1); [|destruct (d =? -1)];
        by apply returns_ret, returns_ret.
  - by intros r w' [_ HI].
Qed.

Lemma sliding_step_asked (i : nat) l w0 w :
  (i + 1 < length l)%nat → l ≡ₚ documents → asked w0 w →
  returns (sliding_step model_obj prompt_template query i l) w
    (λ l' w', l' ≡ₚ documents ∧ asked w0 w').
Proof.
  intros Hi Hl HI.
  destruct (lookup_lt_is_Some_2 l i) as [a Ha]; [lia|].
  destruct (lookup_lt_is_Some_2 l (i + 1)) as [b Hb]; [lia|].
  destruct (sliding_step_spec model_obj prompt_template query i l a b w
              Ha Hb) as (d & w' & Hd & Hs).
  destruct (asked_pairwise_decision a b w0 w) as (d' & w'' & Hd' & HI');
    [apply list_elem_of_fmap_2; rewrite <- Hl;
     by eapply list_elem_of_lookup_2..|done|].
  rewrite Hd in Hd'. injection Hd' as <- <-.
  eexists _, _. split; [exact Hs|]. split; [|done].
  destruct (d =? -1); [|done]. by rewrite swap_perm.
Qed.

Lemma sliding_asked (top_k : Z) w :
  returns (sliding model_obj prompt_template query top_k documents) w
    (λ _ w', asked w w').
Proof.
  unfold sliding. eapply returns_mono.
  - apply (returns_for_each_inv (λ l w', l ≡ₚ documents ∧ asked w w'));
      [split; [done|apply asked_refl]|].
    intros _ l w' _ [Hl HI]. unfold sliding_pass.
    apply (returns_for_each_inv (λ l w', l ≡ₚ documents ∧ asked w w'));
      [done|].
    intros i l' w'' Hi [Hl' HI'].
    rewrite elem_of_reverse, range_elem in Hi.
    apply sliding_step_asked; [rewrite Hl'; lia|done..].
  - by intros l w' [_ HI].
Qed.

Lemma pair_prompts_asked (P : list (nat * nat)) :
  ∃ pairs : list (string * string),
    Forall (λ ab, ab.1 ∈ content <$> documents
                  ∧ ab.2 ∈ content <$> documents) pairs
    ∧ P ≫= pair_prompts prompt_template query documents
      = pairs ≫= prompts_of prompt_template query.
Proof.
  induction P as [|[i j] P (pairs & Hpairs & HP)]; [by exists []|].
  rewrite bind_cons, HP. unfold pair_prompts at 1. simpl.
  destruct (documents !! i) as [a|] eqn:Ha; [|by exists pairs].
  destruct (documents !! j) as [b|] eqn:Hb; [|by exists pairs].
  exists ((content a, content b) :: pairs). split; [|done].
  constructor; [|done]. simpl.
  split; apply list_elem_of_fmap_2; by eapply list_elem_of_lookup_2.
Qed.

Lemma allpair_asked w :
  returns (allpair model_obj prompt_template query documents) w
    (λ _ w', asked w w').
Proof.
  destruct (allpair_returns model_obj prompt_template query documents w)
    as (scored & w' & _ & (_ & _ & _ & Ht) & Hout).
  eexists _, _. split; [exact Hout|].
  destruct (pair_prompts_asked (index_pairs (length documents)))
    as (pairs & Hpairs & HP).
  exists pairs. split; [done|]. by rewrite Ht, HP.
Qed.

End Asked.

(** X10. Whatever the model answers, each strategy sends the model
    comparisons and nothing else: the transcript grows by the prompts of
    pairs of contents of the units, for each pair the template filled with
    the two contents and then with the two swapped. *)
Theorem strategies_ask_comparisons {St} (model_obj : Model St)
    (prompt_template : Template) (query : string) (top_k : Z)
    (documents : list Doc) (w : World St) :
  let comparisons (w' : World St) :=
    ∃ pairs : list (string * string),
      Forall (λ ab, ab.1 ∈ content <$> documents
                    ∧ ab.2 ∈ content <$> documents) pairs
      ∧ transcript w'
        = transcript w
          ++ (pairs ≫= λ ab, [prompt_template query ab.1 ab.2;
                               prompt_template query ab.2 ab.1]) in
  returns (allpair model_obj prompt_template query documents) w
    (λ _ w', comparisons w')
  ∧ returns (sorting model_obj prompt_template query documents) w
      (λ _ w', comparisons w')
  ∧ returns (sliding model_obj prompt_template query top_k documents) w
      (λ _ w', comparisons w').
Proof.
  cbv zeta. split_and!.
  - apply allpair_asked.
  - apply sorting_asked.
  - apply sliding_asked.
Qed.

(** ** The command *)

Lemma strategy_methods {St} (model_obj : Model St)
    (prompt_template : Template) (query method : string) (top_k : Z)
    (documents : list Doc) :
  strategy model_obj prompt_template query method top_k documents = None
  ↔ method ∉ methods.
Proof.
  unfold strategy, methods.
  rewrite !not_elem_of_cons.
  destruct (String.eqb_spec method "allpair") as [->|?];
    [split; [done|]; by intros (? & ? & ? & _)|].
  destruct (String.eqb_spec method "sorting") as [->|?];
    [split; [done|]; by intros (? & ? & ? & _)|].
  destruct (String.eqb_spec method "sliding") as [->|?];
    [split; [done|]; by intros (? & ? & ? & _)|].
  split; [|done]. intros _. split_and!; try done. apply not_elem_of_nil.
Qed.


Lemma truncate_contents (top_k : Z) (ranking : list Doc) :
  content <$> truncate top_k ranking
  = if 0 <? top_k then take (Z.to_nat top_k) (content <$> ranking)
    else content <$> ranking.
Proof.
  unfold truncate. destruct (Z.ltb_spec 0 top_k); [|done].
  rewrite slice_to_take by lia. apply fmap_take.
Qed.




(** ** A single line *)

Section SingleLine.

Context {St : Type}.
Variable model_obj : Model St.
Variable prompt_template : Template.
Implicit Types (w : World St) (d : Doc).

Lemma allpair_single (query : string) d w :
  allpair model_obj prompt_template query [d] w = Some ([set_score 0 d], w).
Proof. done. Qed.

Lemma sorting_single (query : string) d w :
  sorting model_obj prompt_template query [d] w = Some ([d], w).
Proof. done. Qed.

Lemma sliding_single (query : string) (top_k : Z) d w :
  sliding model_obj prompt_template query top_k [d] w = Some ([d], w).
Proof.
  rewrite sliding_repeat.
  generalize (length (range_to (int_or top_k (Z.of_nat (length [d]))))).
  intros P. induction P as [|P IH]; [done|]. simpl. exact IH.
Qed.

End SingleLine.

(** X13. When one line is retained, the command writes that line,
    whatever the method and [top_k], and does not ask the model. *)
Theorem sort_command_single_line {St} (model_obj : Model St)
    (query method : string) (top_k : Z) (prompt : option Template)
    (files : list (list string)) (stdin : list string) (w : World St)
    (line : string) :
  retained (concat (input_files files stdin)) = [line] →
  method ∈ methods →
  sort_command model_obj query method top_k prompt files stdin w
  = Some (Stdout [line], w).
Proof.
  unfold sort_command. generalize (input_files files stdin) as F.
  intros F Hline Hm.
  destruct (sort_runs model_obj query method top_k prompt F w)
    as (_ & _ & Hrun).
  rewrite <- read_documents_contents in Hline.
  destruct (read_documents F) as [|d [|d' l]] eqn:Hd; try done.
  injection Hline as Hline.
  assert (∀ ranking : list Doc,
            content <$> ranking = [line] →
            content <$> truncate top_k ranking = [line]) as Htr.
  { intros ranking Hr. rewrite truncate_contents, Hr.
    destruct (Z.ltb_spec 0 top_k); [|done].
    destruct (Z.to_nat top_k) eqn:Hk; [lia|]. simpl. by rewrite take_nil. }
  unfold methods in Hm.
  repeat (apply elem_of_cons in Hm as [->|Hm]); [..|by apply elem_of_nil in Hm].
  - rewrite (Hrun ltac:(done) _ eq_refl), allpair_single. simpl.
    by rewrite Htr by (simpl; by rewrite Hline).
  - rewrite (Hrun ltac:(done) _ eq_refl), sorting_single. simpl.
    by rewrite Htr by (simpl; by rewrite Hline).
  - rewrite (Hrun ltac:(done) _ eq_refl), sliding_single. simpl.
    by rewrite Htr by (simpl; by rewrite Hline).
Qed.

(** X14. With a negative [top_k] the sliding window runs no pass: the
    command writes the retained lines in the order of the input, all of
    them, and does not ask the model. *)
Theorem sort_command_sliding_negative {St} (model_obj : Model St)
    (query : string) (top_k : Z) (prompt : option Template)
    (files : list (list string)) (stdin : list string) (w : World St) :
  let lines := retained (concat (input_files files stdin)) in
  top_k < 0 →
  lines ≠ [] →
  sort_command model_obj query "sliding" top_k prompt files stdin w
  = Some (Stdout lines, w).
Proof.
  cbv zeta. unfold sort_command.
  generalize (input_files files stdin) as F. intros F Hk Hl.
  destruct (sort_runs model_obj query "sliding" top_k prompt F w)
    as (_ & _ & Hrun).
  rewrite <- read_documents_nil in Hl.
  rewrite (Hrun Hl _ eq_refl). unfold sliding, int_or, range_to.
  rewrite (proj2 (Z.eqb_neq top_k 0)) by lia.
  rewrite seqZ_nil by lia. simpl.
  rewrite truncate_contents, (proj2 (Z.ltb_ge 0 top_k)) by lia.
  by rewrite read_documents_contents.
Qed.

(** ** The command, with a model whose judgments follow an order *)

Section Ranks.

Context {St : Type}.
Variable model_obj : Model St.
Variable prompt_template : Template.
Variable query : string.
Variable before : Doc → Doc → bool.
Variable documents : list Doc.
Hypothesis documents_nodup : NoDup documents.
Hypothesis before_order : strict_weak_on before documents.
Hypothesis model_encodes :
  encodes_ranking model_obj prompt_template query before documents.
Implicit Types (w : World St) (l : list Doc).

Local Abbreviation ranking := (sort_pure before documents).
Local Abbreviation finer := (refined before documents).

(** Whatever the method, the contents that are kept are those of the
    first units of the ranking. *)
Lemma strategy_ranks (method : string) (top_k : Z) run w :
  0 ≤ top_k →
  strategy model_obj prompt_template query method top_k documents
  = Some run →
  returns run w (λ out _,
    content <$> truncate top_k out = content <$> truncate top_k ranking).
Proof.
  intros Hk Hrun. unfold strategy in Hrun.
  pose proof (finer_total before documents before_order) as Htotal.
  pose proof (sort_pure_perm before documents) as Hp.
  pose proof (ranking_sorted before documents documents_nodup before_order)
    as Hs.
  repeat case_match; simplify_eq.
  - eapply returns_mono.
    + by apply (allpair_ranking model_obj prompt_template query before).
    + intros out w' ->. rewrite !truncate_contents, <- list_fmap_compose.
      by destruct (0 <? top_k).
  - eapply returns_mono.
    + by apply (sorting_ranking model_obj prompt_template query before).
    + by intros out w' ->.
  - eapply returns_mono.
    + by apply (sliding_ranking model_obj prompt_template query before).
    + intros out w' ->. unfold truncate, passes.
      destruct (Z.ltb_spec 0 top_k) as [Hpos|Hneg].
      * rewrite !slice_to_take by lia. f_equal.
        by apply iter_bubble_take_sorted.
      * assert (top_k = 0) as -> by lia. simpl. f_equal.
        apply (ranking_unique before documents); [done..| |].
        -- apply iter_bubble_perm.
        -- apply iter_bubble_sorted; [done..|]. lia.
Qed.

End Ranks.

(** X15. When the judgments of the model follow an order of the units
    that are read in which units may tie (a strict weak order) and [top_k]
    is not negative, the command writes the same lines whatever the method:
    the contents of one ranking of the units, all of it for [top_k = 0] and
    its first [top_k] units for [top_k > 0].  In the ranking no unit comes
    after a unit it is before, and the units of any class whose members tie
    with one another keep the order of the input. *)
Theorem sort_command_ranks {St} (model_obj : Model St)
    (query : string) (top_k : Z) (prompt : option Template)
    (files : list (list string)) (stdin : list string)
    (before : Doc → Doc → bool) (w : World St) :
  let documents := read_documents (input_files files stdin) in
  let prompt_template := default DEFAULT_PAIRWISE_PROMPT prompt in
  documents ≠ [] →
  strict_weak_on before documents →
  encodes_ranking model_obj prompt_template query before documents →
  0 ≤ top_k →
  ∃ ranking,
    ranking ≡ₚ documents
    ∧ StronglySorted (λ a b, before b a = false) ranking
    ∧ (∀ (P : Doc → Prop) (dec : ∀ d, Decision (P d)),
         (∀ x y, x ∈ documents → y ∈ documents → P x → P y →
                 before x y = false) →
         filter P ranking = filter P documents)
    ∧ ∀ method, method ∈ methods →
        fst <$> sort_command model_obj query method top_k prompt files
                  stdin w
        = Some (Stdout (content <$> truncate top_k ranking)).
Proof.
  cbv zeta. unfold sort_command.
  generalize (input_files files stdin) as F.
  intros F Hne Hswo Henc Hk.
  pose proof (read_documents_NoDup F) as Hnd.
  exists (sort_pure before (read_documents F)). split_and!.
  - apply sort_pure_perm.
  - by apply sort_pure_sorted.
  - intros P dec Htie. apply sort_pure_filter.
    intros x y Hx Hy HPx HPy. by apply Htie.
  - intros method Hm.
    destruct (sort_runs model_obj query method top_k prompt F w)
      as (_ & _ & Hrun).
    destruct (strategy model_obj (default DEFAULT_PAIRWISE_PROMPT prompt)
                query method top_k (read_documents F)) as [run|] eqn:Hs.
    2:{ apply strategy_methods in Hs. done. }
    rewrite (Hrun Hne run eq_refl).
    destruct (strategy_ranks model_obj _ query before (read_documents F)
                Hnd Hswo Henc method top_k run w Hk Hs)
      as (out & w' & -> & Hout).
    simpl. by rewrite Hout.
Qed.

(** ** The command, with a model whose answers depend on the prompt alone *)

Section Reproducible.

Context {St : Type}.
Variable model_obj : Model St.
Variable prompt_template : Template.
Hypothesis model_deterministic : deterministic model_obj.

Lemma pv_sorting (query : string) (documents : list Doc) :
  pure_valued (sorting model_obj prompt_template query documents).
Proof.
  unfold sorting. apply pv_sorted.
  - intros d. apply pv_ret.
  - intros a b. simpl. apply pv_bind.
    + unfold compare_docs. apply pv_bind; [by apply pv_pairwise_decision|].
      intros d. destruct (d =? 1); [|destruct (d =? -1)]; apply pv_ret.
    + intros c. apply pv_ret.
Qed.

Lemma pv_sliding (query : string) (top_k : Z) (documents : list Doc) :
  pure_valued (sliding model_obj prompt_template query top_k documents).
Proof.
  unfold sliding. apply pv_for_each. intros _ l.
  unfold sliding_pass. apply pv_for_each. intros i l'.
  unfold sliding_step.
  apply pv_bind; [apply pv_lift|]. intros di.
  apply pv_bind; [apply pv_lift|]. intros dj.
  apply pv_bind; [by apply pv_pairwise_decision|]. intros d.
  destruct (d =? -1); [|apply pv_ret].
  apply pv_bind; [apply pv_lift|]. intros a.
  apply pv_bind; [apply pv_lift|]. intros b.
  apply pv_bind; [apply pv_list_set|]. intros l''. apply pv_list_set.
Qed.

End Reproducible.

(** X16. With a model whose answer depends on the prompt alone, what the
    command writes does not depend on the world it starts in: a second
    run on the same input, whatever was asked in between, writes the
    same. *)
Theorem sort_command_reproducible {St} (model_obj : Model St)
    (query method : string) (top_k : Z) (prompt : option Template)
    (files : list (list string)) (stdin : list string) (w w' : World St) :
  deterministic model_obj →
  fst <$> sort_command model_obj query method top_k prompt files stdin w
  = fst <$> sort_command model_obj query method top_k prompt files stdin w'.
Proof.
  intros Hdet. unfold sort_command, sort.
  case_bool_decide; [done|].
  unfold strategy.
  destruct (String.eqb method "allpair");
    [|destruct (String.eqb method "sorting");
      [|destruct (String.eqb method "sliding"); [|done]]].
  - apply pv_bind; [by apply pv_allpair|]. intros l. apply pv_ret.
  - apply pv_bind; [by apply pv_sorting|]. intros l. apply pv_ret.
  - apply pv_bind; [by apply pv_sliding|]. intros l. apply pv_ret.
Qed.

(** ** A unit that wins every comparison *)

Lemma met_snoc (kc k i j : nat) (visited : list (nat * nat)) :
  met kc k (visited ++ [(i, j)])
  = (met kc k visited
     + if decide ((i, j) = (k, kc) ∨ (i, j) = (kc, k)) then 1 else 0)%nat.
Proof.
  unfold met. rewrite filter_app, length_app. f_equal.
  rewrite filter_cons, filter_nil. by destruct (decide _).
Qed.

Lemma met_elem (kc k : nat) (visited : list (nat * nat)) :
  (k, kc) ∈ visited ∨ (kc, k) ∈ visited → (1 ≤ met kc k visited)%nat.
Proof.
  intros H. unfold met.
  assert (∃ p, p ∈ filter (λ p, p = (k, kc) ∨ p = (kc, k)) visited)
    as [p Hp].
  { destruct H as [H|H]; eexists; apply list_elem_of_filter; split;
      try exact H; auto. }
  destruct (filter _ visited); [by apply elem_of_nil in Hp|simpl; lia].
Qed.

Section PairEffect.

Context {St : Type}.
Variable model_obj : Model St.
Variable prompt_template : Template.
Implicit Types (w : World St) (l : list Doc).

(** What a comparison does to the scores, by its decision [d]: the units
    at [i] and [j] receive the half points of [d], the others nothing. *)
Lemma allpair_pair_effect (query : string) (i j : nat) l w :
  (i < j < length l)%nat →
  (∀ (k : nat) (d : Doc), l !! k = Some d →
     ∃ m : nat, score d = Some (Q2Qc (1 # 2) * Qc_of_Z (Z.of_nat m))%Qc) →
  ∃ di dj d w' l',
    l !! i = Some di ∧ l !! j = Some dj
    ∧ pairwise_decision model_obj prompt_template query
        (content di) (content dj) w = Some (d, w')
    ∧ allpair_pair model_obj prompt_template query i j l w = Some (l', w')
    ∧ identity <$> l' = identity <$> l
    ∧ ∀ (k : nat) (d0 : Doc), l' !! k = Some d0 →
        ∃ (d1 : Doc) (m : nat),
          l !! k = Some d1
          ∧ score d1 = Some (Q2Qc (1 # 2) * Qc_of_Z (Z.of_nat m))%Qc
          ∧ score d0
            = Some (Q2Qc (1 # 2)
                    * Qc_of_Z (Z.of_nat
                        (m + pair_points (λ _ _, d) k (i, j))))%Qc.
Proof.
  intros Hij Hsc.
  destruct (lookup_lt_is_Some_2 l i) as [di Hdi]; [lia|].
  destruct (lookup_lt_is_Some_2 l j) as [dj Hdj]; [lia|].
  destruct (Hsc i di Hdi) as (mi & Hsi).
  destruct (Hsc j dj Hdj) as (mj & Hsj).
  destruct (allpair_pair_exact model_obj prompt_template query i j l di dj
              _ _ w ltac:(lia) Hdi Hdj Hsi Hsj) as (d & w' & Hpd & Hrun).
  exists di, dj, d, w'. eexists. split_and!; [done..|exact Hrun| |].
  - assert (∀ (k : nat) (x : Qc) (dk : Doc) l',
              l' !! k = Some dk → identity <$> l' = identity <$> l →
              identity <$> <[k := set_score x dk]> l' = identity <$> l)
      as Hins.
    { intros k x dk l' Hdk Hl'. rewrite list_fmap_insert, <- Hl'.
      apply list_insert_id. by rewrite list_lookup_fmap, Hdk. }
    destruct (d =? 1); [by apply Hins|].
    destruct (d =? -1); [by apply Hins|].
    apply Hins; [by rewrite list_lookup_insert_ne by lia|by apply Hins].
  - intros k d0 Hd0. rewrite pair_points_eq. unfold half_points.
    assert (∀ d1, l !! k = Some d1 → k ≠ i → k ≠ j →
              ∃ m : nat,
                score d1 = Some (Q2Qc (1 # 2) * Qc_of_Z (Z.of_nat m))%Qc
                ∧ score d1
                  = Some (Q2Qc (1 # 2)
                          * Qc_of_Z (Z.of_nat (m + (0 + 0))))%Qc) as Hother.
    { intros d1 Hd1 _ _. destruct (Hsc k d1 Hd1) as (m & Hm).
      exists m. split; [done|]. by rewrite !Nat.add_0_r. }
    destruct (d =? 1); [|destruct (d =? -1)].
    + destruct (decide (k = i)) as [->|Hki].
      * rewrite list_lookup_insert_eq in Hd0 by lia. injection Hd0 as <-.
        exists di, mi. split_and!; [done..|].
        rewrite decide_True, decide_False by lia. simpl. f_equal.
        rewrite ?Nat.add_0_r. apply half_points_add, half_points_one.
      * rewrite list_lookup_insert_ne in Hd0 by done.
        destruct (Hsc k d0 Hd0) as (m & Hm). exists d0, m.
        split_and!; [done..|]. rewrite decide_False by done.
        rewrite Hm. case_decide; do 4 f_equal; lia.
    + destruct (decide (k = j)) as [->|Hkj].
      * rewrite list_lookup_insert_eq in Hd0 by lia. injection Hd0 as <-.
        exists dj, mj. split_and!; [done..|].
        rewrite decide_False, decide_True by lia. simpl. f_equal.
        apply half_points_add, half_points_one.
      * rewrite list_lookup_insert_ne in Hd0 by done.
        destruct (Hsc k d0 Hd0) as (m & Hm). exists d0, m.
        split_and!; [done..|].
        rewrite (decide_False (P := j = k)) by done.
        rewrite Hm. case_decide; do 4 f_equal; lia.
    + destruct (decide (k = j)) as [->|Hkj].
      * rewrite list_lookup_insert_eq in Hd0 by (rewrite length_insert; lia).
        injection Hd0 as <-. exists dj, mj. split_and!; [done..|].
        rewrite decide_False, decide_True by lia. simpl. f_equal.
        apply half_points_add, half_points_half.
      * rewrite list_lookup_insert_ne in Hd0 by done.
        destruct (decide (k = i)) as [->|Hki].
        -- rewrite list_lookup_insert_eq in Hd0 by lia. injection Hd0 as <-.
           exists di, mi. split_and!; [done..|].
           rewrite decide_True, decide_False by lia. simpl. f_equal.
           rewrite ?Nat.add_0_r. apply half_points_add, half_points_half.
        -- rewrite list_lookup_insert_ne in Hd0 by done.
           destruct (Hsc k d0 Hd0) as (m & Hm). exists d0, m.
           split_and!; [done..|]. rewrite !decide_False by done.
           rewrite Hm. do 4 f_equal; lia.
Qed.

End PairEffect.

Section Champion.

Context {St : Type}.
Variable model_obj : Model St.
Variable prompt_template : Template.
Variable query : string.
Variable documents : list Doc.
Variable c : Doc.
Hypothesis documents_nodup : NoDup documents.
Hypothesis champion_unit : c ∈ documents.
Hypothesis champion_wins :
  beats_all model_obj prompt_template query documents c.
Implicit Types (w : World St) (l : list Doc).

(** A step of a pass moves the champion forward when it is the later of
    the two units, and leaves it in place otherwise. *)
Lemma sliding_step_champion (i p : nat) l w :
  l ≡ₚ documents → l !! p = Some c → (p ≤ i + 1)%nat →
  (i + 1 < length l)%nat →
  returns (sliding_step model_obj prompt_template query i l) w
    (λ l' _, l' ≡ₚ documents ∧ ∃ p', l' !! p' = Some c ∧ (p' ≤ i)%nat).
Proof.
  intros Hl Hp Hpi Hi.
  assert (NoDup l) as Hnd by by rewrite Hl.
  destruct (lookup_lt_is_Some_2 l i) as [a Ha]; [lia|].
  destruct (lookup_lt_is_Some_2 l (i + 1)) as [b Hb]; [lia|].
  destruct (sliding_step_spec model_obj prompt_template query i l a b w
              Ha Hb) as (d & w' & Hd & Hs).
  eexists _, _. split; [exact Hs|].
  split; [destruct (d =? -1); [by rewrite swap_perm|done]|].
  destruct (decide (p = (i + 1)%nat)) as [->|Hp1].
  - assert (b = c) as -> by congruence.
    assert (a ≠ c) as Hac.
    { intros ->. pose proof (NoDup_lookup _ _ _ _ Hnd Ha Hb). lia. }
    destruct (champion_wins a w) as [_ (d' & w'' & Hd' & ->)];
      [rewrite <- Hl; by eapply list_elem_of_lookup_2|done|].
    rewrite Hd in Hd'. injection Hd' as -> <-. simpl.
    exists i. split; [|done].
    rewrite list_lookup_insert_ne by lia.
    apply list_lookup_insert_eq. lia.
  - destruct (decide (p = i)) as [->|Hp2].
    + assert (a = c) as -> by congruence.
      assert (b ≠ c) as Hbc.
      { intros ->. pose proof (NoDup_lookup _ _ _ _ Hnd Ha Hb). lia. }
      destruct (champion_wins b w) as [(d' & w'' & Hd' & ->) _];
        [rewrite <- Hl; by eapply list_elem_of_lookup_2|done|].
      rewrite Hd in Hd'. injection Hd' as -> <-. simpl. by exists i.
    + exists p. split; [|lia].
      destruct (d =? -1); [|done].
      by rewrite !list_lookup_insert_ne by lia.
Qed.

(** A pass takes the champion to the front. *)
Lemma sliding_pass_champion l w :
  l ≡ₚ documents →
  returns (sliding_pass model_obj prompt_template query (length l) l) w
    (λ l' _, l' ≡ₚ documents ∧ l' !! 0%nat = Some c).
Proof.
  intros Hl. unfold sliding_pass.
  assert (c ∈ l) as [p0 Hp0]%list_elem_of_lookup by by rewrite Hl.
  pose proof (lookup_lt_Some _ _ _ Hp0) as Hlt.
  eapply returns_mono.
  - apply (returns_for_each (λ visited l' _,
      l' ≡ₚ documents
      ∧ ∃ p, l' !! p = Some c ∧ (p + length visited ≤ length l - 1)%nat)).
    + split; [done|]. exists p0. split; [done|]. simpl. lia.
    + intros visited i rest l' w' Hxs (Hl' & p & Hp & Hle).
      assert (reverse (range 0 (length l - 1)) !! length visited = Some i)
        as Hi.
      { rewrite Hxs. by rewrite lookup_app_r, Nat.sub_diag. }
      apply reverse_lookup_Some in Hi as [Hi Hv].
      unfold range in Hi, Hv. rewrite length_seq in Hi, Hv.
      apply lookup_seq in Hi as [-> _].
      eapply returns_mono.
      * apply (sliding_step_champion _ p); [done..|lia|].
        rewrite Hl', <- Hl. lia.
      * intros l'' w'' (Hl'' & p' & Hp' & Hle'). split; [done|].
        exists p'. split; [done|]. rewrite length_app. simpl. lia.
  - intros l' w' (Hl' & p & Hp & Hle). split; [done|].
    rewrite length_reverse in Hle. unfold range in Hle.
    rewrite length_seq in Hle. by replace p with 0%nat in Hp by lia.
Qed.

Lemma sliding_champion (top_k : Z) w :
  0 ≤ top_k →
  returns (sliding model_obj prompt_template query top_k documents) w
    (λ out _, out ≡ₚ documents ∧ head out = Some c).
Proof.
  intros Hk. unfold returns. setoid_rewrite sliding_repeat.
  rewrite passes_range.
  assert (1 ≤ passes top_k (length documents))%nat as HP.
  { unfold passes. destruct (Z.ltb_spec 0 top_k); [lia|].
    assert (top_k = 0) as -> by lia. simpl.
    apply list_elem_of_lookup in champion_unit as [p Hp].
    apply lookup_lt_Some in Hp. lia. }
  eapply returns_mono.
  - apply (repeat_pass_returns (λ k l' _,
      l' ≡ₚ documents ∧ ((1 ≤ k)%nat → l' !! 0%nat = Some c))).
    + split; [done|]. lia.
    + intros k l' w' [Hl' _].
      assert (length documents = length l') as -> by by rewrite Hl'.
      eapply returns_mono; [by apply sliding_pass_champion|].
      intros l'' w'' [Hl'' Hc]. done.
  - intros out w' [Hout Hc]. split; [done|].
    specialize (Hc HP). by destruct out.
Qed.

(** A comparison keeps the account of the champion and of the others. *)
Lemma allpair_pair_champion (kc : nat) (visited : list (nat * nat))
    (i j : nat) l w :
  documents !! kc = Some c →
  (i < j < length documents)%nat →
  champion_inv documents kc visited l w →
  returns (allpair_pair model_obj prompt_template query i j l) w
    (champion_inv documents kc (visited ++ [(i, j)])).
Proof.
  intros Hkc Hij [Hid Hsc].
  assert (length l = length documents) as Hlen.
  { by rewrite <- (length_fmap identity l), Hid, length_fmap. }
  destruct (allpair_pair_effect model_obj prompt_template query i j l w)
    as (di & dj & d & w' & l' & Hdi & Hdj & Hpd & Hrun & Hid' & Heff).
  { lia. }
  { intros k d0 Hd0. destruct (Hsc k d0 Hd0) as (m & Hm & _). by exists m. }
  destruct (identity_lookup _ _ _ _ Hid Hdi) as (a & Ha & [= _ Hca]).
  destruct (identity_lookup _ _ _ _ Hid Hdj) as (b & Hb & [= _ Hcb]).
  rewrite <- Hca, <- Hcb in Hpd.
  assert (i = kc → d = 1) as Hdi1.
  { intros ->. assert (a = c) as -> by congruence.
    destruct (champion_wins b w) as [(d' & w'' & Hd' & ->) _].
    - by eapply list_elem_of_lookup_2.
    - intros ->. pose proof (NoDup_lookup _ _ _ _ documents_nodup Ha Hb). lia.
    - rewrite Hpd in Hd'. by injection Hd'. }
  assert (j = kc → d = -1) as Hdj1.
  { intros ->. assert (b = c) as -> by congruence.
    destruct (champion_wins a w) as [_ (d' & w'' & Hd' & ->)].
    - by eapply list_elem_of_lookup_2.
    - intros ->. pose proof (NoDup_lookup _ _ _ _ documents_nodup Ha Hb). lia.
    - rewrite Hpd in Hd'. by injection Hd'. }
  eexists _, _. split; [exact Hrun|]. split; [congruence|].
  intros k d0 Hd0.
  destruct (Heff k d0 Hd0) as (d1 & m & Hd1 & Hm & Hm').
  destruct (Hsc k d1 Hd1) as (m1 & Hm1 & Hc & Ho).
  assert (m1 = m) as ->.
  { assert (Q2Qc (1 # 2) * Qc_of_Z (Z.of_nat m)
            = Q2Qc (1 # 2) * Qc_of_Z (Z.of_nat m1))%Qc as Hm1' by congruence.
    clear Hm1. rename Hm1' into Hm1.
    apply (f_equal (Qcmult (Qc_of_Z 2))) in Hm1.
    rewrite !Qcmult_assoc in Hm1.
    replace (Qc_of_Z 2 * Q2Qc (1 # 2))%Qc with 1%Qc in Hm1
      by by apply Qc_is_canon.
    rewrite !Qcmult_1_l in Hm1. apply Z2Qc_inj in Hm1. lia. }
  eexists. split; [exact Hm'|].
  rewrite pair_points_eq, involving_snoc, met_snoc. unfold half_points.
  split.
  - intros ->. specialize (Hc eq_refl).
    destruct (decide (i = kc)) as [->|Hi].
    + rewrite (Hdi1 eq_refl). simpl.
      rewrite decide_False, decide_True by (lia || auto). lia.
    + destruct (decide (j = kc)) as [->|Hj].
      * rewrite (Hdj1 eq_refl). simpl. rewrite decide_True by auto. lia.
      * rewrite decide_False by lia. lia.
  - intros Hk. specialize (Ho Hk).
    destruct (decide (i = k)) as [->|Hi], (decide (j = k)) as [->|Hj];
      try lia.
    + rewrite (decide_True (P := k = k ∨ j = k)) by auto.
      destruct (decide (j = kc)) as [->|Hjc].
      * rewrite (Hdj1 eq_refl). simpl. rewrite decide_True by auto. lia.
      * rewrite decide_False by (intros [[=]|[=]]; lia).
        destruct (d =? 1), (d =? -1); lia.
    + rewrite (decide_True (P := i = k ∨ k = k)) by auto.
      destruct (decide (i = kc)) as [->|Hic].
      * rewrite (Hdi1 eq_refl). simpl. rewrite decide_True by auto. lia.
      * rewrite decide_False by (intros [[=]|[=]]; lia).
        destruct (d =? 1), (d =? -1); lia.
    + rewrite (decide_False (P := i = k ∨ j = k)) by (intros [|]; done).
      rewrite decide_False by (intros [[=]|[=]]; lia). lia.
Qed.

(** The champion leaves the scoring loops with [n - 1] points, every
    other unit with at most [n - 2]. *)
Lemma allpair_scores_champion (kc : nat) w :
  documents !! kc = Some c →
  returns (allpair_scores model_obj prompt_template query documents) w
    (λ scored _,
       identity <$> scored = identity <$> documents
       ∧ ∀ (k : nat) (d : Doc), scored !! k = Some d →
           ∃ m : nat,
             score d = Some (Q2Qc (1 # 2) * Qc_of_Z (Z.of_nat m))%Qc
             ∧ (k = kc → m = 2 * (length documents - 1))%nat
             ∧ (k ≠ kc → m + 2 ≤ 2 * (length documents - 1))%nat).
Proof.
  intros Hkc. eapply returns_mono.
  - apply (allpair_scores_loop model_obj prompt_template query documents w
             (champion_inv documents kc)).
    + split.
      * rewrite <- list_fmap_compose. by apply list_fmap_ext.
      * intros k d Hd. rewrite list_lookup_fmap in Hd.
        destruct (documents !! k); [|done]. injection Hd as <-.
        exists 0%nat. split_and!; [|done|simpl; lia].
        simpl. f_equal. by apply Qc_is_canon.
    + intros visited i j l w' Hij HI. by apply allpair_pair_champion.
  - intros scored w' [Hid Hsc]. split; [done|]. intros k d Hd.
    destruct (Hsc k d Hd) as (m & Hm & Hc & Ho). exists m.
    assert (k < length documents)%nat as Hk.
    { apply lookup_lt_Some in Hd.
      by rewrite <- (length_fmap identity scored), Hid, length_fmap in Hd. }
    pose proof (lookup_lt_Some _ _ _ Hkc) as Hkc'.
    rewrite involving_index_pairs in Hc, Ho by done.
    split_and!; [done..|]. intros Hne. specialize (Ho Hne).
    assert (1 ≤ met kc k (index_pairs (length documents)))%nat; [|lia].
    apply met_elem. rewrite !elem_of_index_pairs.
    destruct (decide (k < kc)%nat); [left|right]; lia.
Qed.

(** The all-pairs strategy puts the champion first. *)
Lemma allpair_champion w :
  returns (allpair model_obj prompt_template query documents) w
    (λ out _,
       ∃ d, head out = Some d ∧ identity d = identity c
            ∧ score d
              = Some (Qc_of_Z (Z.of_nat (length documents - 1)))).
Proof.
  destruct (proj1 (list_elem_of_lookup _ _) champion_unit) as [kc Hkc].
  destruct (allpair_scores_champion kc w Hkc)
    as (scored & w' & Hs & Hid & Hsc).
  destruct (allpair_returns model_obj prompt_template query documents w)
    as (scored' & w'' & Hs' & _ & Hout).
  rewrite Hs in Hs'. injection Hs' as <- <-.
  eexists _, _. split; [exact Hout|].
  set (out := reverse (sort_pure score_lt (reverse scored))).
  assert (out ≡ₚ scored) as Hperm.
  { unfold out.
    by rewrite reverse_Permutation, sort_pure_perm, reverse_Permutation. }
  assert (StronglySorted (λ a b, score_of b ≤ score_of a)%Qc out) as Hsorted.
  { eapply StronglySorted_impl;
      [|apply StronglySorted_reverse, sort_pure_sorted, score_lt_weak].
    intros a b Hab. unfold flip, score_lt in Hab.
    apply bool_decide_eq_false in Hab. by apply Qcle_ngt. }
  destruct (lookup_lt_is_Some_2 scored kc) as [dc Hdc].
  { rewrite <- (length_fmap identity scored), Hid, length_fmap.
    by eapply lookup_lt_Some. }
  destruct (Hsc kc dc Hdc) as (mc & Hmc & Hc & _). specialize (Hc eq_refl).
  subst mc. rewrite half_double in Hmc.
  destruct (identity_lookup _ _ _ _ Hid Hdc) as (c' & Hc' & Hidc).
  assert (c' = c) as -> by congruence.
  exists dc. split_and!; [|done..].
  assert (dc ∈ out) as Hin.
  { rewrite Hperm. by eapply list_elem_of_lookup_2. }
  destruct out as [|h rest]; [by apply elem_of_nil in Hin|]. simpl.
  f_equal. apply elem_of_cons in Hin as [->|Hin]; [done|].
  apply StronglySorted_cons in Hsorted as [Hh _].
  rewrite Forall_forall in Hh. specialize (Hh dc Hin).
  assert (h ∈ scored) as [k Hk]%list_elem_of_lookup.
  { rewrite <- Hperm. apply elem_of_cons. by left. }
  destruct (decide (k = kc)) as [->|Hne]; [congruence|].
  destruct (Hsc k h Hk) as (m & Hm & _ & Ho). specialize (Ho Hne).
  exfalso. apply Qcle_ngt in Hh. apply Hh.
  unfold score_of. rewrite Hm, Hmc. simpl.
  rewrite <- (half_double (length documents - 1)).
  rewrite <- Qcmult_lt_mono_pos_l by done.
  rewrite <- Z2Qc_inj_lt, <- Nat2Z.inj_lt. lia.
Qed.

End Champion.

(** X17. A unit that wins every comparison with another unit comes first,
    however the model judges the other pairs: the all-pairs strategy gives
    it [n - 1] points and the first place, and the sliding window, when it
    runs a pass ([top_k] not negative), has it first. *)
Theorem champion_first {St} (model_obj : Model St)
    (prompt_template : Template) (query : string) (top_k : Z)
    (documents : list Doc) (c : Doc) (w : World St) :
  NoDup documents → c ∈ documents →
  beats_all model_obj prompt_template query documents c →
  returns (allpair model_obj prompt_template query documents) w
    (λ out _,
       ∃ d, head out = Some d ∧ identity d = identity c
            ∧ score d = Some (Qc_of_Z (Z.of_nat (length documents - 1))))
  ∧ (0 ≤ top_k →
     returns (sliding model_obj prompt_template query top_k documents) w
       (λ out _, out ≡ₚ documents ∧ head out = Some c)).
Proof.
  intros Hnd Hc Hwins. split.
  - by apply allpair_champion.
  - intros Hk. by apply sliding_champion.
Qed.

(** X18. When one line read wins every comparison with another line, the
    command with method allpair or sliding and a [top_k] that is not
    negative writes that line first, and with [top_k = 1] that line
    alone. *)
Theorem sort_command_champion {St} (model_obj : Model St)
    (query method : string) (top_k : Z) (prompt : option Template)
    (files : list (list string)) (stdin : list string) (c : Doc)
    (w : World St) :
  let documents := read_documents (input_files files stdin) in
  let prompt_template := default DEFAULT_PAIRWISE_PROMPT prompt in
  c ∈ documents →
  beats_all model_obj prompt_template query documents c →
  method ∈ ["allpair"; "sliding"] → 0 ≤ top_k →
  ∃ rest,
    fst <$> sort_command model_obj query method top_k prompt files stdin w
    = Some (Stdout (content c :: rest))
    ∧ (top_k = 1 → rest = []).
Proof.
  cbv zeta. unfold sort_command.
  generalize (input_files files stdin) as F. intros F Hc Hwins Hm Hk.
  pose proof (read_documents_NoDup F) as Hnd.
  assert (read_documents F ≠ []) as Hne.
  { intros Hnil. rewrite Hnil in Hc. by apply elem_of_nil in Hc. }
  destruct (sort_runs model_obj query method top_k prompt F w)
    as (_ & _ & Hrun). specialize (Hrun Hne).
  assert (∃ out w', 
            (∃ run,
               strategy model_obj (default DEFAULT_PAIRWISE_PROMPT prompt)
                 query method top_k (read_documents F) = Some run
               ∧ run w = Some (out, w'))
            ∧ content <$> head out = Some (content c))
    as (out & w' & (run & Hs & Hout) & Hhead).
  { apply elem_of_cons in Hm as [->|Hm];
      [|apply elem_of_cons in Hm as [->|Hm]; [|by apply elem_of_nil in Hm]].
    - destruct (allpair_champion model_obj _ query _ c Hnd Hc Hwins w)
        as (out & w' & Hout & d & Hd & [= _ Hcd] & _).
      exists out, w'. split; [by eexists|]. by rewrite Hd, <- Hcd.
    - destruct (sliding_champion model_obj _ query _ c Hnd Hc Hwins top_k w
                  Hk) as (out & w' & Hout & _ & Hd).
      exists out, w'. split; [by eexists|]. by rewrite Hd. }
  rewrite (Hrun run Hs), Hout. simpl. rewrite truncate_contents.
  destruct out as [|d out]; [done|]. injection Hhead as Hd.
  rewrite fmap_cons, Hd.
  destruct (Z.ltb_spec 0 top_k) as [Hpos|Hzero].
  - destruct (Z.to_nat top_k) as [|k] eqn:Hk'; [lia|]. simpl.
    eexists. split; [done|]. intros ->.
    assert (k = 0%nat) as -> by lia. done.
  - eexists. split; [done|]. lia.
Qed.

(** ** The scenarios again *)

Lemma stateless_deterministic (model_obj : Model unit) :
  deterministic model_obj.
Proof. by intros p [] []. Qed.

Lemma strays_nodup : NoDup strays.
Proof. apply (bool_decide_unpack _). by vm_compute. Qed.

Lemma strays_order :
  strict_weak_on (ranked_before ["dog"; "cat"]) strays.
Proof.
  split.
  - intros a b Ha Hb. pick_pet Ha; pick_pet Hb; by vm_compute.
  - intros a b c Ha Hb Hc. pick_pet Ha; pick_pet Hb; pick_pet Hc;
      by vm_compute.
Qed.

Lemma strays_encoded :
  encodes_ranking
    (ranking_model DEFAULT_PAIRWISE_PROMPT pet_query ["dog"; "cat"])
    DEFAULT_PAIRWISE_PROMPT pet_query
    (ranked_before ["dog"; "cat"]) strays.
Proof.
  intros a b [[] t] Ha Hb Hab.
  pick_pet Ha; pick_pet Hb; try done;
    (eexists _, _; split; [by vm_compute|by vm_compute]).
Qed.

Example strays_sorted :
  fst <$> sorting
            (ranking_model DEFAULT_PAIRWISE_PROMPT pet_query ["dog"; "cat"])
            DEFAULT_PAIRWISE_PROMPT pet_query strays fresh
  = Some [mkDoc "0" "dog" None; mkDoc "2" "dog" None; mkDoc "1" "cat" None].
Proof. by vm_compute. Qed.

Lemma sort_command_single_line_cat :
  sort_command first_line_model pet_query "sliding" (-3) None []
    [Str.chr 10; "cat" +:+ Str.chr 10] fresh
  = Some (Stdout ["cat"], fresh).
Proof.
  apply sort_command_single_line; [by vm_compute|].
  unfold methods. do 2 right. left.
Defined.

Lemma sort_command_sliding_negative_pets :
  sort_command first_line_model pet_query "sliding" (-1) None
    [["cat" +:+ Str.chr 10; "dog" +:+ Str.chr 10; "monkey"]] [] fresh
  = Some (Stdout ["cat"; "dog"; "monkey"], fresh).
Proof.
  apply (sort_command_sliding_negative first_line_model pet_query (-1) None
           [["cat" +:+ Str.chr 10; "dog" +:+ Str.chr 10; "monkey"]] []
           fresh); [lia|by vm_compute].
Defined.

Lemma allpair_total_order_pets :
  returns
    (allpair
       (ranking_model DEFAULT_PAIRWISE_PROMPT pet_query
          ["monkey"; "dog"; "cat"])
       DEFAULT_PAIRWISE_PROMPT pet_query pets) fresh
    (λ out _,
       ∃ ranking,
         ranking ≡ₚ pets
         ∧ StronglySorted
             (λ a b, ranked_before ["monkey"; "dog"; "cat"] a b = true)
             ranking
         ∧ (∀ l, l ≡ₚ pets →
                 StronglySorted
                   (λ a b, ranked_before ["monkey"; "dog"; "cat"] a b = true)
                   l →
                 l = ranking)
         ∧ identity <$> out = identity <$> ranking
         ∧ ∀ (r : nat) (d : Doc), out !! r = Some d →
             score d = Some (Qc_of_Z (Z.of_nat (length pets - 1 - r)))).
Proof.
  apply allpair_total_order;
    [exact pets_nodup|exact pets_order|exact pets_encoded].
Defined.

Lemma sliding_top_k_pets :
  returns
    (sliding
       (ranking_model DEFAULT_PAIRWISE_PROMPT pet_query
          ["monkey"; "dog"; "cat"])
       DEFAULT_PAIRWISE_PROMPT pet_query 1 pets) fresh
    (λ out _,
       out ≡ₚ pets
       ∧ ∀ ranking,
           ranking ≡ₚ pets →
           StronglySorted
             (λ a b, ranked_before ["monkey"; "dog"; "cat"] a b = true)
             ranking →
           truncate 1 out = take (Z.to_nat 1) ranking).
Proof.
  apply sliding_top_k;
    [exact pets_nodup|exact pets_order|exact pets_encoded|lia].
Defined.

Lemma pairwise_decision_antisymmetric_pets :
  let model :=
    ranking_model DEFAULT_PAIRWISE_PROMPT pet_query ["monkey"; "dog"; "cat"] in
  let cat := mkDoc "0" "cat" None in
  let dog := mkDoc "1" "dog" None in
  ∃ d,
    (d = First ∨ d = Second ∨ d = Tie)
    ∧ fst <$> pairwise_decision model DEFAULT_PAIRWISE_PROMPT pet_query
                (content cat) (content dog) fresh = Some d
    ∧ fst <$> pairwise_decision model DEFAULT_PAIRWISE_PROMPT pet_query
                (content dog) (content cat) fresh = Some (- d)
    ∧ fst <$> compare_docs model DEFAULT_PAIRWISE_PROMPT pet_query cat dog
                fresh = Some (- d)
    ∧ fst <$> compare_docs model DEFAULT_PAIRWISE_PROMPT pet_query dog cat
                fresh = Some d
    ∧ (content cat = content dog → d = Tie).
Proof.
  apply pairwise_decision_antisymmetric. apply stateless_deterministic.
Defined.

Lemma default_prompt_injective_pets :
  "cat"%string = "cat"%string ∧ "dog"%string = "dog"%string.
Proof.
  apply (default_prompt_injective pet_query "cat" "dog" "cat" "dog").
  - apply (bool_decide_unpack _). by vm_compute.
  - apply (bool_decide_unpack _). by vm_compute.
  - reflexivity.
Defined.

Lemma allpair_scores_wins_and_ties_pets :
  let model :=
    ranking_model DEFAULT_PAIRWISE_PROMPT pet_query ["monkey"; "dog"; "cat"] in
  returns (allpair_scores model DEFAULT_PAIRWISE_PROMPT pet_query pets) fresh
    (λ scored _,
       identity <$> scored = identity <$> pets
       ∧ ∀ (k : nat) (d : Doc), scored !! k = Some d →
           let others := delete k (content <$> pets) in
           let verdicts :=
             verdict model DEFAULT_PAIRWISE_PROMPT pet_query fresh (content d)
               <$> others in
           let won := length (filter (λ v, v = First) verdicts) in
           let tied := length (filter (λ v, v = Tie) verdicts) in
           score d
           = Some (Qc_of_Z (Z.of_nat won)
                   + Q2Qc (1 # 2) * Qc_of_Z (Z.of_nat tied))%Qc).
Proof.
  apply allpair_scores_wins_and_ties. apply stateless_deterministic.
Defined.


Lemma sort_command_reproducible_pets :
  let model :=
    ranking_model DEFAULT_PAIRWISE_PROMPT pet_query ["monkey"; "dog"; "cat"] in
  let files := [["cat" +:+ Str.chr 10; "dog" +:+ Str.chr 10; "monkey"]] in
  fst <$> sort_command model pet_query "allpair" 2 None files [] fresh
  = fst <$> sort_command model pet_query "allpair" 2 None files []
              (mkWorld tt ["an earlier prompt"%string]).
Proof.
  apply sort_command_reproducible. apply stateless_deterministic.
Defined.

Lemma sorting_stable_strays :
  returns
    (sorting (ranking_model DEFAULT_PAIRWISE_PROMPT pet_query ["dog"; "cat"])
       DEFAULT_PAIRWISE_PROMPT pet_query strays) fresh
    (λ out _,
       out ≡ₚ strays
       ∧ StronglySorted
           (λ a b, ranked_before ["dog"; "cat"] b a = false) out
       ∧ ∀ (P : Doc → Prop) (dec : ∀ d, Decision (P d)),
           (∀ x y, x ∈ strays → y ∈ strays → P x → P y →
                   ranked_before ["dog"; "cat"] x y = false) →
           filter P out = filter P strays).
Proof.
  apply sorting_stable;
    [exact strays_nodup|exact strays_order|exact strays_encoded].
Defined.

Example strays_ranked :
  let model :=
    ranking_model DEFAULT_PAIRWISE_PROMPT pet_query ["dog"; "cat"] in
  let input := [["dog" +:+ Str.chr 10; "cat" +:+ Str.chr 10; "dog"]] in
  fst <$> sort_command model pet_query "sorting" 0 None input [] fresh
  = Some (Stdout ["dog"; "dog"; "cat"])
  ∧ fst <$> sort_command model pet_query "sliding" 0 None input [] fresh
    = Some (Stdout ["dog"; "dog"; "cat"])
  ∧ fst <$> sort_command model pet_query "allpair" 0 None input [] fresh
    = Some (Stdout ["dog"; "dog"; "cat"])
  ∧ fst <$> sort_command model pet_query "sliding" 1 None input [] fresh
    = Some (Stdout ["dog"]).
Proof. by vm_compute. Qed.

Lemma sort_command_ranks_strays :
  let model :=
    ranking_model DEFAULT_PAIRWISE_PROMPT pet_query ["dog"; "cat"] in
  let files := [["dog" +:+ Str.chr 10; "cat" +:+ Str.chr 10; "dog"]] in
  let documents := read_documents (input_files files []) in
  ∃ ranking,
    ranking ≡ₚ documents
    ∧ StronglySorted (λ a b, ranked_before ["dog"; "cat"] b a = false) ranking
    ∧ (∀ (P : Doc → Prop) (dec : ∀ d, Decision (P d)),
         (∀ x y, x ∈ documents → y ∈ documents → P x → P y →
                 ranked_before ["dog"; "cat"] x y = false) →
         filter P ranking = filter P documents)
    ∧ ∀ method, method ∈ methods →
        fst <$> sort_command model pet_query method 2 None files [] fresh
        = Some (Stdout (content <$> truncate 2 ranking)).
Proof.
  apply (sort_command_ranks
           (ranking_model DEFAULT_PAIRWISE_PROMPT pet_query ["dog"; "cat"])
           pet_query 2 None
           [["dog" +:+ Str.chr 10; "cat" +:+ Str.chr 10; "dog"]] []
           (ranked_before ["dog"; "cat"]) fresh).
  - by vm_compute.
  - exact strays_order.
  - exact strays_encoded.
  - lia.
Defined.

(** ** A circle of preferences and a champion *)

Lemma shades_nodup : NoDup shades.
Proof. apply (bool_decide_unpack _). by vm_compute. Qed.

Lemma gold_wins :
  beats_all (preference_model DEFAULT_PAIRWISE_PROMPT shade_query shade_wins)
    DEFAULT_PAIRWISE_PROMPT shade_query shades (mkDoc "2" "gold" None).
Proof.
  intros d [[] t] Hd Hne.
  pick_pet Hd; try done;
    (split; eexists _, _; split; by vm_compute).
Qed.

Example shades_ranked :
  let model :=
    preference_model DEFAULT_PAIRWISE_PROMPT shade_query shade_wins in
  let input :=
    [["red" +:+ Str.chr 10; "green" +:+ Str.chr 10; "gold" +:+ Str.chr 10;
      "blue"]] in
  fst <$> sort_command model shade_query "allpair" 0 None input [] fresh
  = Some (Stdout ["gold"; "red"; "green"; "blue"])
  ∧ fst <$> sort_command model shade_query "sliding" 1 None input [] fresh
    = Some (Stdout ["gold"])
  ∧ fst <$> sort_command model shade_query "sliding" 0 None input [] fresh
    = Some (Stdout ["gold"; "red"; "green"; "blue"]).
Proof. by vm_compute. Qed.

Lemma champion_first_shades :
  let model :=
    preference_model DEFAULT_PAIRWISE_PROMPT shade_query shade_wins in
  returns (allpair model DEFAULT_PAIRWISE_PROMPT shade_query shades) fresh
    (λ out _,
       ∃ d, head out = Some d ∧ identity d = ("2", "gold")%string
            ∧ score d = Some (Qc_of_Z 3))
  ∧ (0 ≤ 1 →
     returns (sliding model DEFAULT_PAIRWISE_PROMPT shade_query 1 shades)
       fresh
       (λ out _, out ≡ₚ shades ∧ head out = Some (mkDoc "2" "gold" None))).
Proof.
  apply (champion_first
           (preference_model DEFAULT_PAIRWISE_PROMPT shade_query shade_wins)
           DEFAULT_PAIRWISE_PROMPT shade_query 1 shades
           (mkDoc "2" "gold" None) fresh).
  - exact shades_nodup.
  - by vm_compute; do 2 right; left.
  - exact gold_wins.
Defined.

Lemma sort_command_champion_shades :
  let model :=
    preference_model DEFAULT_PAIRWISE_PROMPT shade_query shade_wins in
  let files :=
    [["red" +:+ Str.chr 10; "green" +:+ Str.chr 10; "gold" +:+ Str.chr 10;
      "blue"]] in
  ∃ rest,
    fst <$> sort_command model shade_query "sliding" 1 None files [] fresh
    = Some (Stdout ("gold"%string :: rest))
    ∧ (1 = 1 → rest = []).
Proof.
  apply (sort_command_champion
           (preference_model DEFAULT_PAIRWISE_PROMPT shade_query shade_wins)
           shade_query "sliding" 1 None
           [["red" +:+ Str.chr 10; "green" +:+ Str.chr 10;
             "gold" +:+ Str.chr 10; "blue"]] []
           (mkDoc "2" "gold" None) fresh).
  - change (mkDoc "2" "gold" None ∈ shades). do 2 right. left.
  - exact gold_wins.
  - right. left.
  - lia.
Defined.

(** ** The command line, on the three units *)

Example llm_sort_pets :
  let model :=
    ranking_model DEFAULT_PAIRWISE_PROMPT pet_query ["monkey"; "dog"; "cat"] in
  let files := [["cat" +:+ Str.chr 10; "dog" +:+ Str.chr 10; "monkey"]] in
  llm_sort (Some model) pet_query "heap" 0 None files [] fresh
  = Some (Usage, fresh)
  ∧ llm_sort (None : option (Model unit)) pet_query "sorting" 0 None
      [] [Str.chr 10] fresh
    = Some (Ran (Stderr "No input lines provided."), fresh)
  ∧ llm_sort (None : option (Model unit)) pet_query "sorting" 0 None
      files [] fresh
    = None
  ∧ fst <$> llm_sort (Some model) pet_query "sorting" 2 None files [] fresh
    = Some (Ran (Stdout ["monkey"; "dog"]))
  ∧ sort_command model pet_query "heap" 0 None files [] fresh
    = Some (Stderr "Invalid sorting method specified.", fresh).
Proof. by vm_compute. Qed.
